(** * simulation_suite: the biased spatial samplers and the fiber pool

    A shallow embedding of
      - [stk/thread/fiber_pool.hpp]
      - [stk/geometry/space_partition/biased_position_generator.hpp]
    together with the properties the specification states about them and
    further properties read off the code.

    Conventions.
      - [unsigned int] / [std::uint32_t] values are integers in [Z] reduced
        modulo [2^32]; [std::size_t] values are reduced modulo [2^64].
      - [double] is the kernel's IEEE-754 binary64 type [float]; the only
        transcendental the code uses, [std::exp], is a parameter.
      - Library code that lives outside the two headers (the BSP, the
        triangulator, the grid traits, the random engine) enters through
        interfaces (type classes), one field per operation the headers call.
      - What the language or a library leaves open is a parameter as well:
        the order in which the operands of a sum are evaluated, and how a
        call of [join] on a thread ends. *)

From Stdlib Require Import String ZArith List Bool Lia Floats Sorted Permutation.
From Equations Require Import Equations.
Import ListNotations.

Local Open Scope Z_scope.

(* ===================================================================== *)
(** * Machine integers *)
(* ===================================================================== *)

Module Machine.

(** [std::uint32_t] arithmetic. *)
Definition uint32_modulus : Z := 2 ^ 32.
Definition wrap32 (z : Z) : Z := z mod uint32_modulus.

(** [std::size_t] arithmetic (LP64). *)
Definition size_t_modulus : Z := 2 ^ 64.
Definition wrap_size_t (z : Z) : Z := z mod size_t_modulus.

(** The half-open range [lo, hi) a [for (i = lo; i < hi; ++i)] loop visits. *)
Definition loop_range (lo hi : Z) : list Z :=
  map (fun k => lo + Z.of_nat k) (seq 0 (Z.to_nat (hi - lo))).

End Machine.

(* ===================================================================== *)
(** * The fiber pool *)
(* ===================================================================== *)

Module FiberPool.
Import Machine.

(** ** Fiber slots *)

(** The constructor's thread loop hands thread [i] the index
    [i % nCPUS] ([unsigned int] remainder, undefined when
    [hardware_concurrency()] reports [0]). *)
Definition thread_idx (nCPUS i : Z) : option Z :=
  if nCPUS =? 0 then None else Some (wrap32 (i mod nCPUS)).

(** [os_thread]: [start = idx * nFibersPerThread], [end = start + nFibersPerThread],
    both [std::size_t]. *)
Definition slot_start (nFibersPerThread idx : Z) : Z :=
  wrap_size_t (idx * nFibersPerThread).

Definition slot_end (nFibersPerThread idx : Z) : Z :=
  wrap_size_t (slot_start nFibersPerThread idx + nFibersPerThread).

(** The slots of [m_fibers] one [os_thread] launches a fiber into and, after
    the shutdown condition, joins: both loops run
    [for (i = start; i < end; ++i)]. *)
Definition os_thread (nFibersPerThread idx : Z) : list Z :=
  loop_range (slot_start nFibersPerThread idx) (slot_end nFibersPerThread idx).

Inductive ctor_error : Type :=
| assertion_failed      (* GEOMETRIX_ASSERT(nOSThreads > 1) *)
| invalid_argument      (* "fiber pool should have at least 2 OS threads." *)
| undefined_behaviour.  (* remainder by zero *)

(** The constructor's loop over the threads: thread [i] is started with the
    index [i % nCPUS] and comes to own the slots its [os_thread] visits. *)
Fixpoint spawn (nFibersPerThread nCPUS : Z) (threads : list Z) : option (list (list Z)) :=
  match threads with
  | [] => Some []
  | i :: rest =>
      match thread_idx nCPUS i, spawn nFibersPerThread nCPUS rest with
      | Some idx, Some owned => Some (os_thread nFibersPerThread idx :: owned)
      | _, _ => None
      end
  end.

Record layout : Type := {
  n_slots : Z;                 (* m_fibers.size() *)
  owned   : list (list Z)      (* slots per OS thread, in spawn order *)
}.

(** The constructor: the guard on [nOSThreads] (an assertion, where
    [GEOMETRIX_ASSERT] is compiled in, and a [throw]),
    [m_fibers.resize(nFibersPerThread * nOSThreads)], and one [os_thread] per
    [i < nOSThreads].  The result is the size of [m_fibers] and, per thread,
    the slots it owns. *)
Definition fiber_pool (asserts : bool) (nFibersPerThread nOSThreads nCPUS : Z)
  : ctor_error + layout :=
  if asserts && negb (1 <? nOSThreads) then inl assertion_failed
  else if nOSThreads <? 2 then inl invalid_argument
  else
    match spawn nFibersPerThread nCPUS (loop_range 0 nOSThreads) with
    | None => inl undefined_behaviour
    | Some o => inr {| n_slots := wrap_size_t (nFibersPerThread * nOSThreads);
                       owned := o |}
    end.

(** Thread [t] owns slot [s]. *)
Definition owns (l : layout) (t : nat) (s : Z) : Prop :=
  In s (nth t (owned l) []).

(** Distinct threads own disjoint slot sets. *)
Definition pairwise_disjoint (l : layout) : Prop :=
  forall t u s, t <> u -> owns l t s -> ~ owns l u s.

(** The owned slots are exactly the slots of [m_fibers]. *)
Definition covers (l : layout) : Prop :=
  forall s, (exists t, owns l t s) <-> 0 <= s < n_slots l.

(** Every fiber slot is launched and joined by exactly one thread. *)
Definition exactly_one_owner (l : layout) : Prop :=
  forall s, 0 <= s < n_slots l ->
    exists t, owns l t s /\ forall u, owns l u s -> u = t.

Definition slots_partitioned (l : layout) : Prop :=
  pairwise_disjoint l /\ covers l /\ exactly_one_owner l.

(** ** Shutdown *)

(** What [shutdown] does to the world besides its own fields. *)
Inductive event : Type :=
| notify_all          (* m_shutdownCondition.notify_all() *)
| join (t : nat).     (* m_threads[t].join(): the only blocking call *)

(** How a call of [t.join()] ends: it returns once the thread has finished,
    it throws, or the thread never finishes and the call never returns. *)
Inductive join_result : Type :=
| join_returns
| join_throws
| join_blocks.

(** The fields [shutdown] reads and writes: [m_done] and, per OS thread,
    whether it is still joinable. *)
Record pool : Type := {
  m_done    : bool;
  m_threads : list bool
}.

(** [std::atomic<bool>::compare_exchange_strong(expected, desired)]:
    success flag and the value left in the atomic. *)
Definition compare_exchange_strong (current expected desired : bool) : bool * bool :=
  if Bool.eqb current expected then (true, desired) else (false, current).

(** [boost::for_each(m_threads, [](thread_type& t)
       { try { if (t.joinable()) t.join(); } catch (...) {} })]
    from thread [t] on, [joins] telling how each call of [join] ends: the
    joinable flags the loop leaves, the calls it makes, and whether it comes
    to its end.  A join that returns leaves the thread not joinable; one
    that throws is swallowed by the [catch (...)] and leaves the thread
    joinable; one that never returns is the last thing the loop does. *)
Fixpoint join_threads (joins : nat -> join_result) (t : nat) (ts : list bool)
  : list bool * list event * bool :=
  match ts with
  | [] => ([], [], true)
  | joinable :: rest =>
      if joinable then
        match joins t with
        | join_returns =>
            let '(rest', tr, ended) := join_threads joins (S t) rest in
            (false :: rest', join t :: tr, ended)
        | join_throws =>
            let '(rest', tr, ended) := join_threads joins (S t) rest in
            (true :: rest', join t :: tr, ended)
        | join_blocks => (ts, [join t], false)
        end
      else
        let '(rest', tr, ended) := join_threads joins (S t) rest in
        (false :: rest', tr, ended)
  end.

(** [shutdown]: the fields it leaves, the calls it makes, and whether it
    returns. *)
Definition shutdown (joins : nat -> join_result) (p : pool)
  : pool * list event * bool :=
  let '(swapped, done') := compare_exchange_strong (m_done p) false true in
  if swapped then
    let '(ts, tr, ended) := join_threads joins 0 (m_threads p) in
    ({| m_done := done'; m_threads := ts |}, notify_all :: tr, ended)
  else
    ({| m_done := done'; m_threads := m_threads p |}, [], true).

(** The states the specification gives the pool, read off its fields. *)
Inductive state : Type := Running | Draining | Stopped.

Definition pool_state (p : pool) : state :=
  if m_done p then
    if existsb (fun j => j) (m_threads p) then Draining else Stopped
  else Running.

(** The default argument
    [nOSThreads = std::thread::hardware_concurrency() - 1], an
    [unsigned int]. *)
Definition default_nOSThreads (nCPUS : Z) : Z := wrap32 (nCPUS - 1).

End FiberPool.

(* ===================================================================== *)
(** * The fiber pool's threads against [shutdown] *)
(* ===================================================================== *)

(** [os_thread] from its wait on the shutdown condition on, and [shutdown],
    one atomic action at a time.  Any interleaving of the threads and of the
    caller of [shutdown] is a schedule. *)
Module ShutdownRace.

(** Where an [os_thread] stands once its fibers are launched:
    [lock_type lk{ m_mtx };
     m_shutdownCondition.wait(lk, [this]() { return m_done.load(); });]
    then the joins of its fibers.  [wait(lk, pred)] is
    [while (!pred()) wait(lk);], and [wait(lk)] puts the caller on the
    condition's wait queue, releases [lk] and suspends it until a
    notification takes it off the queue, after which it locks [lk] again.
    The contract of [wait] also lets a waiter wake up with no notification
    (a spurious wake-up); nothing obliges the library to deliver one. *)
Inductive thread_pc : Type :=
| at_lock          (* about to lock m_mtx *)
| at_predicate     (* holds m_mtx, about to load m_done *)
| at_wait          (* holds m_mtx, the predicate was false: about to wait *)
| suspended        (* on the wait queue, m_mtx released *)
| notified         (* taken off the wait queue, about to lock m_mtx again *)
| at_join_fibers   (* holds m_mtx, the predicate was true *)
| finished.        (* os_thread has returned, m_mtx released *)

(** Where the caller of [shutdown] stands. *)
Inductive shutdown_pc : Type :=
| at_compare_exchange
| at_notify_all
| at_join (t : nat)
| returned.

Record pool : Type := {
  m_done : bool;
  m_mtx : option nat;             (* the thread that holds m_mtx *)
  m_threads : list thread_pc;
  caller : shutdown_pc
}.

(** Thread [t] moves on to [pc]. *)
Fixpoint move (threads : list thread_pc) (t : nat) (pc : thread_pc) : list thread_pc :=
  match threads, t with
  | [], _ => []
  | _ :: rest, O => pc :: rest
  | pc0 :: rest, S t' => pc0 :: move rest t' pc
  end.

(** One step of the [t]-th [os_thread]; a thread that cannot move (it needs
    [m_mtx] while another holds it, it is suspended, or it has finished)
    leaves the pool as it is.  The worker fibers leave their loops once
    [m_done] is set, so the joins of the fibers are one step. *)
Definition os_thread (self : pool) (t : nat) : pool :=
  match nth_error (m_threads self) t with
  | Some at_lock | Some notified =>
      match m_mtx self with
      | None => {| m_done := m_done self; m_mtx := Some t;
                   m_threads := move (m_threads self) t at_predicate;
                   caller := caller self |}
      | Some _ => self
      end
  | Some at_predicate =>
      {| m_done := m_done self; m_mtx := m_mtx self;
         m_threads := move (m_threads self) t
                           (if m_done self then at_join_fibers else at_wait);
         caller := caller self |}
  | Some at_wait =>
      {| m_done := m_done self; m_mtx := None;
         m_threads := move (m_threads self) t suspended;
         caller := caller self |}
  | Some at_join_fibers =>
      {| m_done := m_done self; m_mtx := None;
         m_threads := move (m_threads self) t finished;
         caller := caller self |}
  | Some suspended | Some finished | None => self
  end.

(** [notify_all]: whoever is on the wait queue is taken off it. *)
Definition wake (pc : thread_pc) : thread_pc :=
  match pc with suspended => notified | _ => pc end.

(** One step of [shutdown]: the [compare_exchange_strong], the
    [notify_all] (made without [m_mtx]), or the join of one thread, which
    does not return before that thread has finished. *)
Definition shutdown (self : pool) : pool :=
  match caller self with
  | at_compare_exchange =>
      let '(swapped, done') :=
        FiberPool.compare_exchange_strong (m_done self) false true in
      {| m_done := done'; m_mtx := m_mtx self; m_threads := m_threads self;
         caller := if swapped then at_notify_all else returned |}
  | at_notify_all =>
      {| m_done := m_done self; m_mtx := m_mtx self;
         m_threads := map wake (m_threads self);
         caller := at_join 0 |}
  | at_join t =>
      match nth_error (m_threads self) t with
      | None => {| m_done := m_done self; m_mtx := m_mtx self;
                   m_threads := m_threads self; caller := returned |}
      | Some finished => {| m_done := m_done self; m_mtx := m_mtx self;
                            m_threads := m_threads self; caller := at_join (S t) |}
      | Some _ => self
      end
  | returned => self
  end.

(** A spurious wake-up of thread [t]. *)
Definition wake_spuriously (self : pool) (t : nat) : pool :=
  match nth_error (m_threads self) t with
  | Some suspended =>
      {| m_done := m_done self; m_mtx := m_mtx self;
         m_threads := move (m_threads self) t notified;
         caller := caller self |}
  | _ => self
  end.

(** What can happen next. *)
Inductive action : Type :=
| run_thread (t : nat)
| run_shutdown
| spurious_wakeup (t : nat).

Definition step (self : pool) (a : action) : pool :=
  match a with
  | run_thread t => os_thread self t
  | run_shutdown => shutdown self
  | spurious_wakeup t => wake_spuriously self t
  end.

Definition run (schedule : list action) (self : pool) : pool :=
  fold_left step schedule self.

(** The pool when the constructor has returned and [shutdown] is called:
    every thread has launched its fibers. *)
Definition constructed (n_threads : nat) : pool :=
  {| m_done := false; m_mtx := None;
     m_threads := repeat at_lock n_threads;
     caller := at_compare_exchange |}.

(** A further call of [shutdown] on the same pool. *)
Definition call_shutdown (self : pool) : pool :=
  {| m_done := m_done self; m_mtx := m_mtx self; m_threads := m_threads self;
     caller := at_compare_exchange |}.

End ShutdownRace.

(* ===================================================================== *)
(** * The fiber pool's tasks *)
(* ===================================================================== *)

(** [send_impl] and [worker_fiber], one atomic action at a time.  Any
    interleaving of the fibers, of the clients that send and of [shutdown] is
    a schedule; what holds of every schedule holds of every run of the pool. *)
Module FiberPoolTasks.

Section Tasks.
(** [function_wrapper]: a packaged task, opaque to the pool. *)
Variable function_wrapper : Type.

(** Modelled from the spec: the task queue ([stk/container/locked_queue.hpp]
    is not among the sources), "a multi-producer multi-consumer FIFO of
    opaque callables" with the operations [push(task)] and
    [try_pop(out) -> bool], each of them atomic. *)
Definition queue_type : Type := list function_wrapper.

Definition push (q : queue_type) (task : function_wrapper) : queue_type :=
  q ++ [task].

Definition try_pop (q : queue_type) : option (function_wrapper * queue_type) :=
  match q with
  | [] => None
  | task :: rest => Some (task, rest)
  end.

(** Where a fiber stands in
    [while (!m_done.load()) { if (try_pop(m_tasks, task)) task(); yield(); }] *)
Inductive worker_pc : Type :=
| at_while                           (* about to load m_done *)
| at_try_pop                         (* in the loop body, about to try_pop *)
| at_call (task : function_wrapper)  (* holds a popped task, about to run it *)
| at_yield                           (* about to yield *)
| returned.                          (* left the loop *)

(** The fields the tasks pass through, and the fibers that were launched. *)
Record pool_tasks : Type := {
  m_done : bool;
  m_tasks : queue_type;
  m_fibers : list worker_pc
}.

(** One step of [worker_fiber]: where the fiber stands next, the queue it
    leaves, and the task it ran, if it ran one. *)
Definition worker_fiber (done : bool) (q : queue_type) (pc : worker_pc)
  : worker_pc * queue_type * option function_wrapper :=
  match pc with
  | at_while => (if done then returned else at_try_pop, q, None)
  | at_try_pop =>
      match try_pop q with
      | Some (task, q') => (at_call task, q', None)
      | None => (at_yield, q, None)
      end
  | at_call task => (at_yield, q, Some task)
  | at_yield => (at_while, q, None)
  | returned => (returned, q, None)
  end.

(** [send_impl]: the packaged task is pushed; [m_done] is not read. *)
Definition send_impl (self : pool_tasks) (m : function_wrapper) : pool_tasks :=
  {| m_done := m_done self;
     m_tasks := push (m_tasks self) m;
     m_fibers := m_fibers self |}.

(** What can happen next: a client sends a task, [shutdown] wins its
    [compare_exchange_strong] on [m_done], or fiber [i] is resumed for one
    step. *)
Inductive action : Type :=
| send (m : function_wrapper)
| set_done
| resume (i : nat).

Fixpoint resume_fiber (done : bool) (q : queue_type) (fibers : list worker_pc)
  (i : nat) : list worker_pc * queue_type * option function_wrapper :=
  match fibers, i with
  | [], _ => ([], q, None)
  | pc :: rest, O =>
      let '(pc', q', ran) := worker_fiber done q pc in (pc' :: rest, q', ran)
  | pc :: rest, S i' =>
      let '(rest', q', ran) := resume_fiber done q rest i' in (pc :: rest', q', ran)
  end.

Definition step (self : pool_tasks) (a : action)
  : pool_tasks * option function_wrapper :=
  match a with
  | send m => (send_impl self m, None)
  | set_done =>
      ({| m_done := true; m_tasks := m_tasks self; m_fibers := m_fibers self |}, None)
  | resume i =>
      let '(fibers, q, ran) :=
        resume_fiber (m_done self) (m_tasks self) (m_fibers self) i in
      ({| m_done := m_done self; m_tasks := q; m_fibers := fibers |}, ran)
  end.

(** A schedule played from a state: the state reached and the tasks that
    were run, in the order they were run. *)
Fixpoint run (schedule : list action) (self : pool_tasks)
  : pool_tasks * list function_wrapper :=
  match schedule with
  | [] => (self, [])
  | a :: rest =>
      let '(self', ran) := step self a in
      let '(final, ran_later) := run rest self' in
      (final,
       match ran with Some task => task :: ran_later | None => ran_later end)
  end.

(** The pool once its fibers are launched: each at the head of its loop,
    nothing queued. *)
Definition started (n_fibers : nat) : pool_tasks :=
  {| m_done := false; m_tasks := []; m_fibers := repeat at_while n_fibers |}.

End Tasks.

Arguments at_while {function_wrapper}.
Arguments at_try_pop {function_wrapper}.
Arguments at_call {function_wrapper} task.
Arguments at_yield {function_wrapper}.
Arguments returned {function_wrapper}.
Arguments m_done {function_wrapper} p.
Arguments m_tasks {function_wrapper} p.
Arguments m_fibers {function_wrapper} p.
Arguments push {function_wrapper} q task.
Arguments try_pop {function_wrapper} q.
Arguments worker_fiber {function_wrapper} done q pc.
Arguments send_impl {function_wrapper} self m.
Arguments send {function_wrapper} m.
Arguments set_done {function_wrapper}.
Arguments resume {function_wrapper} i.
Arguments resume_fiber {function_wrapper} done q fibers i.
Arguments step {function_wrapper} self a.
Arguments run {function_wrapper} schedule self.
Arguments started {function_wrapper} n_fibers.

End FiberPoolTasks.

(* ===================================================================== *)
(** * Geometry primitives *)
(* ===================================================================== *)

Module Geometry.

(** [stk::point2] and [stk::vector2]: two lengths, held as their values in
    metres. *)
Definition point2 : Type := (float * float)%type.
Definition vector2 : Type := (float * float)%type.
Definition segment2 : Type := (point2 * point2)%type.
Definition polygon2 : Type := list point2.
Definition triangle : Type := (point2 * point2 * point2)%type.

Record polygon_with_holes2 : Type := {
  get_outer : polygon2;
  get_holes : list polygon2
}.

(** The answer of a point-in-solid query. *)
Inductive point_in_solid_classification : Type :=
| in_empty_space
| in_solid_space
| on_boundary.

Definition classification_eqb (a b : point_in_solid_classification) : bool :=
  match a, b with
  | in_empty_space, in_empty_space
  | in_solid_space, in_solid_space
  | on_boundary, on_boundary => true
  | _, _ => false
  end.

(** [scalar * vector] and [point + vector]. *)
Definition scale (u : float) (v : vector2) : vector2 :=
  (u * fst v, u * snd v)%float.

Definition translate (p : point2) (v : vector2) : point2 :=
  (fst p + fst v, snd p + snd v)%float.

(** [std::max(a, b)]: [(a < b) ? b : a]. *)
Definition std_max (a b : float) : float :=
  if (a <? b)%float then b else a.

(** How a call can end other than by returning. *)
Inductive failure : Type :=
| assertion_failed                 (* a GEOMETRIX_ASSERT tripped *)
| out_of_bounds                    (* operator[] past the end *)
| invalid_argument (what : string). (* std::invalid_argument *)

(** The only message the two headers throw. *)
Definition polygon_not_simple : string := "polygon not simple"%string.

(** The closed range a [for (auto i = lo; i <= hi; ++i)] loop over
    [std::uint32_t] visits; the loop does not end when [hi = 2^32 - 1]. *)
Definition closed_range (lo hi : Z) : list Z := Machine.loop_range lo (hi + 1).

(** [stk::polyline2]. *)
Definition polyline2 : Type := list point2.

End Geometry.

(* ===================================================================== *)
(** * Collaborators *)
(* ===================================================================== *)

(** The operations the two headers call on code that lives elsewhere. *)
Module Interfaces.
Import Geometry.

(** [stk::solid_bsp2]; the tolerance policy is part of the implementation. *)
Class SolidBSP : Type := {
  solid_bsp2 : Type;
  make_solid_bsp2 : list segment2 -> solid_bsp2;
  point_in_solid_space : solid_bsp2 -> point2 -> point_in_solid_classification;
  get_min_distance_sqrd_to_solid : solid_bsp2 -> point2 -> float
}.

(** The [geometrix] algorithms and [grid_traits]. *)
Class Geometrix : Type := {
  is_polygon_simple : polygon2 -> bool;
  get_bounds : list point2 -> float * float * float * float;
  get_area : triangle -> float;
  get_centroid : triangle -> point2;
  point_in_triangle : point2 -> triangle -> bool;
  grid_traits : Type;
  make_grid_traits : float * float * float * float -> float -> grid_traits;
  get_x_index : grid_traits -> float -> Z;
  get_y_index : grid_traits -> float -> Z;
  get_cell_centroid : grid_traits -> Z -> Z -> point2;
  (** [operator<] on [point2], the order of [std::set<point2>]. *)
  point_less : point2 -> point2 -> bool
}.

(** The triangulator: the coarse mesh of a polygon, and [p2t::CDT] run on an
    outer ring, holes and Steiner points. *)
Class Poly2Tri : Type := {
  generate_mesh : polygon2 -> list polygon2 -> list triangle;
  cdt_triangulate : polygon2 -> list polygon2 -> list point2 -> list triangle
}.

Class Libm : Type := {
  exp : float -> float
}.

(** A generator together with [std::uniform_real_distribution<>{a, b}]. *)
Class RandomEngine : Type := {
  Gen : Type;
  uniform_real_distribution : float -> float -> Gen -> float * Gen
}.

(** [geometrix::polyline_polyline_intersect(a, b, visitor, cmp)] with the
    visitor [is_self_intersecting] passes, which ends the search at the first
    intersection that is not [e_non_crossing]. *)
Class Intersection : Type := {
  polyline_polyline_intersect : polyline2 -> polyline2 -> bool
}.

(** What the language leaves to the compiler: which operand of a [+] is
    evaluated first when both draw from the generator. *)
Class EvaluationOrder : Type := {
  left_operand_first : bool
}.

End Interfaces.

(* ===================================================================== *)
(** * Standard-library algorithms *)
(* ===================================================================== *)

Module Std.

Section LowerBound.
Context {A : Type} (less : A -> A -> bool) (a : list A) (val : A).

(** [std::lower_bound] on [first, first + len): halve the interval, keeping
    the half that still can hold the first element not less than [val]. *)
Equations? lower_bound_from (first len : nat) : nat by wf len lt :=
  lower_bound_from first 0%nat := first;
  lower_bound_from first (S l) with nth_error a (first + Nat.div2 (S l)) => {
    | None := first;
    | Some middle with less middle val => {
      | true := lower_bound_from (first + Nat.div2 (S l) + 1)
                                 (S l - Nat.div2 (S l) - 1);
      | false := lower_bound_from first (Nat.div2 (S l)) } }.
Proof.
  all: destruct l as [|l']; cbn [Nat.div2]; [lia|].
  all: assert (Nat.div2 l' <= l')%nat
         by (destruct l'; [simpl; lia|apply Nat.lt_le_incl, Nat.lt_div2; lia]).
  all: clear -H; revert H; generalize (Nat.div2 l'); intros; lia.
Qed.

End LowerBound.

Definition lower_bound {A : Type} (less : A -> A -> bool) (a : list A) (val : A) : nat :=
  lower_bound_from less a val 0 (length a).

(** [std::set<T, Compare>::insert] on the set's sorted sequence: the element
    goes before the first one it is less than, unless an equivalent one is
    met first. *)
Fixpoint set_insert {A : Type} (less : A -> A -> bool) (x : A) (s : list A) : list A :=
  match s with
  | [] => [x]
  | y :: s' =>
      if less x y then x :: s
      else if less y x then y :: set_insert less x s'
      else s
  end.

(** [std::vector::empty]. *)
Definition empty {A : Type} (l : list A) : bool :=
  match l with [] => true | _ => false end.

(** [boost::accumulate(range, init)]. *)
Definition accumulate (range : list float) (init : float) : float :=
  fold_left PrimFloat.add range init.

End Std.

(* ===================================================================== *)
(** * [biased_position_generator] *)
(* ===================================================================== *)

Module BiasedPositionGenerator.
Import Geometry Interfaces.

Section Generator.
Context {BSP : SolidBSP} {GX : Geometrix} {P2T : Poly2Tri} {LM : Libm}.

(** ** The weight policy *)

Record triangle_area_distance_weight_policy : Type := {
  pBSP : solid_bsp2;
  distanceSaturation : float;      (* an area: the saturation distance squared *)
  attractionStrength : float
}.

(** The policy's constructor squares the saturation distance. *)
Definition make_weight_policy (bsp : solid_bsp2) (distance_saturation : float)
  (attraction_strength : float) : triangle_area_distance_weight_policy :=
  {| pBSP := bsp;
     distanceSaturation := (distance_saturation * distance_saturation)%float;
     attractionStrength := attraction_strength |}.

Definition get_weight (wp : triangle_area_distance_weight_policy) (trig : triangle)
  : float :=
  let area := get_area trig in
  let distanceSqrd := get_min_distance_sqrd_to_solid (pBSP wp) (get_centroid trig) in
  let d2 := std_max distanceSqrd (distanceSaturation wp) in
  (area * exp ((- attractionStrength wp) * d2))%float.

(** ** The weighted mesh *)

(** Modelled from the spec: [geometrix::mesh_2d], which is handed the
    triangles and the weight policy and stores, per triangle, the weight the
    policy's [get_weight] returns for it. *)
Record mesh_type : Type := {
  mesh_triangles : list triangle;
  mesh_weights : list float
}.

Definition make_mesh (triangles : list triangle)
  (wp : triangle_area_distance_weight_policy) : mesh_type :=
  {| mesh_triangles := triangles;
     mesh_weights := map (get_weight wp) triangles |}.

(** The weight the mesh holds for its [i]-th triangle. *)
Definition weight_of (m : mesh_type) (i : nat) : option (triangle * float) :=
  match nth_error (mesh_triangles m) i, nth_error (mesh_weights m) i with
  | Some t, Some w => Some (t, w)
  | _, _ => None
  end.

(** ** Fine Steiner points *)

(** The centroids of the grid cells under a triangle's bounding box, in the
    order the two nested loops visit them ([j] outer, [i] inner). *)
Definition cell_centroids (grid : grid_traits) (trig : triangle) : list point2 :=
  let '(p0, p1, p2) := trig in
  let '(xmin, xmax, ymin, ymax) := get_bounds [p0; p1; p2] in
  let imin := get_x_index grid xmin in
  let imax := get_x_index grid xmax in
  let jmin := get_y_index grid ymin in
  let jmax := get_y_index grid ymax in
  flat_map (fun j => map (fun i => get_cell_centroid grid i j) (closed_range imin imax))
           (closed_range jmin jmax).

(** The test guarding [results.insert(c)]: more than one square metre from
    the attractive geometry, and inside the triangle. *)
Definition admitted (bsp : solid_bsp2) (trig : triangle) (c : point2) : bool :=
  (1 <? get_min_distance_sqrd_to_solid bsp c)%float && point_in_triangle c trig.

Definition insert_admitted (bsp : solid_bsp2) (trig : triangle)
  (results : list point2) (c : point2) : list point2 :=
  if admitted bsp trig c then Std.set_insert point_less c results else results.

(** The body of [generate_fine_steiner_points] once the bounds and the coarse
    mesh of the polygon are known; the result is the [std::set] read in
    order. *)
Definition fine_steiner_points (obounds : float * float * float * float)
  (mesh : list triangle) (cell : float) (bsp : solid_bsp2) : list point2 :=
  let grid := make_grid_traits obounds cell in
  fold_left
    (fun results trig => fold_left (insert_admitted bsp trig) (cell_centroids grid trig) results)
    mesh [].

(** [Polygon = polygon2]. *)
Definition generate_fine_steiner_points (pgon : polygon2) (cell : float)
  (bsp : solid_bsp2) : list point2 :=
  fine_steiner_points (get_bounds pgon) (generate_mesh pgon []) cell bsp.

(** [Polygon = polygon_with_holes2]: the bounds are those of the outer ring. *)
Definition generate_fine_steiner_points_with_holes (pgon : polygon_with_holes2)
  (cell : float) (bsp : solid_bsp2) : list point2 :=
  fine_steiner_points (get_bounds (get_outer pgon))
    (generate_mesh (get_outer pgon) (get_holes pgon)) cell bsp.

(** ** Building the weighted mesh *)

(** The guard in front of every ring that is handed to the triangulator. *)
Definition not_a_simple_ring (polygon : polygon2) : bool :=
  Std.empty polygon || negb (is_polygon_simple polygon).

(** Boundary without holes. *)
Definition generate_weighted_mesh (polygon : polygon2) (granularity : float)
  (bsp : solid_bsp2) (weightPolicy : triangle_area_distance_weight_policy)
  : failure + mesh_type :=
  if not_a_simple_ring polygon then inl (invalid_argument polygon_not_simple)
  else
    let steinerPoints := generate_fine_steiner_points polygon granularity bsp in
    inr (make_mesh (cdt_triangulate polygon [] steinerPoints) weightPolicy).

(** The loop over the holes: each is checked, then added to the CDT. *)
Fixpoint add_holes (holes added : list polygon2) : failure + list polygon2 :=
  match holes with
  | [] => inr added
  | hole :: rest =>
      if not_a_simple_ring hole then inl (invalid_argument polygon_not_simple)
      else add_holes rest (added ++ [hole])
  end.

(** Boundary with holes. *)
Definition generate_weighted_mesh_with_holes (polygon : polygon2)
  (holes : list polygon2) (granularity : float) (bsp : solid_bsp2)
  (weightPolicy : triangle_area_distance_weight_policy) : failure + mesh_type :=
  if not_a_simple_ring polygon then inl (invalid_argument polygon_not_simple)
  else
    match add_holes holes [] with
    | inl e => inl e
    | inr cdt_holes =>
        let steinerPoints := generate_fine_steiner_points polygon granularity bsp in
        inr (make_mesh (cdt_triangulate polygon cdt_holes steinerPoints) weightPolicy)
    end.

(** A collection of polygons with holes: here a hole is only tested for
    simplicity. *)
Fixpoint triangulate_collection (polygons : list polygon_with_holes2)
  (granularity : float) (bsp : solid_bsp2) : failure + list triangle :=
  match polygons with
  | [] => inr []
  | polygon :: rest =>
      if not_a_simple_ring (get_outer polygon)
      then inl (invalid_argument polygon_not_simple)
      else if existsb (fun hole => negb (is_polygon_simple hole)) (get_holes polygon)
      then inl (invalid_argument polygon_not_simple)
      else
        let steinerPoints :=
          generate_fine_steiner_points_with_holes polygon granularity bsp in
        let triangles :=
          cdt_triangulate (get_outer polygon) (get_holes polygon) steinerPoints in
        match triangulate_collection rest granularity bsp with
        | inl e => inl e
        | inr more => inr (triangles ++ more)
        end
  end.

Definition generate_weighted_mesh_collection (polygons : list polygon_with_holes2)
  (granularity : float) (bsp : solid_bsp2)
  (weightPolicy : triangle_area_distance_weight_policy) : failure + mesh_type :=
  match triangulate_collection polygons granularity bsp with
  | inl e => inl e
  | inr triangles => inr (make_mesh triangles weightPolicy)
  end.

(** ** The three constructors *)

Record biased_position_generator : Type := {
  m_mesh : mesh_type
}.

Definition construct_from (r : failure + mesh_type) : failure + biased_position_generator :=
  match r with
  | inl e => inl e
  | inr m => inr {| m_mesh := m |}
  end.

(** Boundary and attractive segments. *)
Definition from_segments (boundary : polygon2) (attractiveSegments : list segment2)
  (granularity distanceSaturation attractionFactor : float)
  : failure + biased_position_generator :=
  let bsp := make_solid_bsp2 attractiveSegments in
  construct_from
    (generate_weighted_mesh boundary granularity bsp
       (make_weight_policy bsp distanceSaturation attractionFactor)).

(** Boundary, holes and attractive segments. *)
Definition from_segments_with_holes (boundary : polygon2) (holes : list polygon2)
  (attractiveSegments : list segment2)
  (granularity distanceSaturation attractionFactor : float)
  : failure + biased_position_generator :=
  let bsp := make_solid_bsp2 attractiveSegments in
  construct_from
    (generate_weighted_mesh_with_holes boundary holes granularity bsp
       (make_weight_policy bsp distanceSaturation attractionFactor)).

(** Boundary and an attractive BSP owned by the caller. *)
Definition from_bsp (boundary : polygon2) (attractiveBSP : solid_bsp2)
  (granularity distanceSaturation attractionFactor : float)
  : failure + biased_position_generator :=
  construct_from
    (generate_weighted_mesh boundary granularity attractiveBSP
       (make_weight_policy attractiveBSP distanceSaturation attractionFactor)).

End Generator.
End BiasedPositionGenerator.

(* ===================================================================== *)
(** * The arrays handed to the mesh *)
(* ===================================================================== *)

(** The tail of each [generate_weighted_mesh]: from the triangles of the CDT
    to the vertex array and the index array [mesh_type] is constructed
    from. *)
Module MeshArrays.
Import Geometry Interfaces.

(** ** One polygon: [std::map<p2t::Point*, std::size_t> indices] *)

(** A [p2t::Point*] is an address; the map holds its entries in ascending
    order of the keys, one entry per key. *)
Definition pointer_map : Type := list (Z * nat).

(** [m[key] = value]. *)
Fixpoint map_assign (m : pointer_map) (key : Z) (value : nat) : pointer_map :=
  match m with
  | [] => [(key, value)]
  | (k, v) :: rest =>
      if key <? k then (key, value) :: m
      else if k <? key then (k, v) :: map_assign rest key value
      else (k, value) :: rest
  end.

(** [m.find(key)]: the mapped value, or nothing for [m.end()]. *)
Fixpoint map_find (m : pointer_map) (key : Z) : option nat :=
  match m with
  | [] => None
  | (k, v) :: rest => if key =? k then Some v else map_find rest key
  end.

(** [for (i = 0; i < cdtPoints.size(); ++i) indices[cdtPoints[i]] = i;] *)
Fixpoint index_points (cdtPoints : list Z) (i : nat) (indices : pointer_map)
  : pointer_map :=
  match cdtPoints with
  | [] => indices
  | p :: rest => index_points rest (S i) (map_assign indices p i)
  end.

Section Pointers.
(** The [x] and [y] an address holds, as a [point2]. *)
Variable deref : Z -> point2.
(** A value-initialised [point2]. *)
Variable unset : point2.

(** [points[i] = p] on a [std::vector]. *)
Fixpoint vector_assign (points : polygon2) (i : nat) (p : point2)
  : failure + polygon2 :=
  match points, i with
  | [], _ => inl out_of_bounds
  | _ :: rest, O => inr (p :: rest)
  | q :: rest, S i' =>
      match vector_assign rest i' p with
      | inl e => inl e
      | inr rest' => inr (q :: rest')
      end
  end.

(** [for (const auto& item : indices)
       assign(points[item.second], item.first->x, item.first->y);] *)
Fixpoint assign_points (items : pointer_map) (points : polygon2)
  : failure + polygon2 :=
  match items with
  | [] => inr points
  | (p, i) :: rest =>
      match vector_assign points i (deref p) with
      | inl e => inl e
      | inr points' => assign_points rest points'
      end
  end.

(** [it = indices.find(p); GEOMETRIX_ASSERT(it != indices.end());
     iArray.push_back(it->second);] for each of the given corners. *)
Fixpoint index_corners (asserts : bool) (indices : pointer_map) (corners : list Z)
  (iArray : list nat) : failure + list nat :=
  match corners with
  | [] => inr iArray
  | p :: rest =>
      match map_find indices p with
      | None => inl (if asserts then assertion_failed else out_of_bounds)
      | Some i => index_corners asserts indices rest (iArray ++ [i])
      end
  end.

(** [for (auto* triangle : triangles) for (int i = 0; i < 3; ++i) ...] *)
Fixpoint index_triangles (asserts : bool) (indices : pointer_map)
  (triangles : list (Z * Z * Z)) (iArray : list nat) : failure + list nat :=
  match triangles with
  | [] => inr iArray
  | (p0, p1, p2) :: rest =>
      match index_corners asserts indices [p0; p1; p2] iArray with
      | inl e => inl e
      | inr iArray' => index_triangles asserts indices rest iArray'
      end
  end.

(** From [std::map<...> indices] to the call of [make_unique<mesh_type>],
    given what [cdt.GetPoints()] and [cdt.GetTriangles()] return: the
    vertex array [points] and the index array [iArray]. *)
Definition mesh_arrays (asserts : bool) (cdtPoints : list Z)
  (triangles : list (Z * Z * Z)) : failure + polygon2 * list nat :=
  let indices := index_points cdtPoints 0 [] in
  match assign_points indices (repeat unset (length indices)) with
  | inl e => inl e
  | inr points =>
      match index_triangles asserts indices triangles [] with
      | inl e => inl e
      | inr iArray => inr (points, iArray)
      end
  end.

End Pointers.

(** ** A collection: [std::map<point2, std::size_t> allIndices] *)

(** The entries in ascending order of the keys under [operator<]. *)
Definition point_map : Type := list (point2 * nat).

(** What the lambdas [getIndex] and [addTriangle] capture by reference. *)
Record arrays : Type := {
  allIndices : point_map;
  pArray : list point2;
  tArray : list nat
}.

Section Collection.
Context {GX : Geometrix}.

(** [map_lower_bound_contains(p, allIndices, it)] ([stk], not among the
    sources), as a function of the key and of the entry [it] points at, if
    any. *)
Variable map_lower_bound_contains : point2 -> option (point2 * nat) -> bool.

(** [allIndices.lower_bound(p)]: the entries in front of the iterator, and
    those from it on. *)
Fixpoint map_lower_bound (m : point_map) (p : point2) : point_map * point_map :=
  match m with
  | [] => ([], [])
  | (k, v) :: rest =>
      if point_less k p then
        let '(before, from) := map_lower_bound rest p in ((k, v) :: before, from)
      else ([], m)
  end.

(** [allIndices.insert(it, std::make_pair(p, newIndex))]: the hint does not
    change the outcome; nothing is inserted where an equivalent key sits. *)
Fixpoint map_insert (m : point_map) (p : point2) (newIndex : nat) : point_map :=
  match m with
  | [] => [(p, newIndex)]
  | (k, v) :: rest =>
      if point_less p k then (p, newIndex) :: m
      else if point_less k p then (k, v) :: map_insert rest p newIndex
      else m
  end.

Definition getIndex (self : arrays) (p : point2) : failure + nat * arrays :=
  let it := hd_error (snd (map_lower_bound (allIndices self) p)) in
  if map_lower_bound_contains p it then
    match it with
    | Some (_, second) => inr (second, self)
    | None => inl out_of_bounds
    end
  else
    let newIndex := length (allIndices self) in
    inr (newIndex,
         {| allIndices := map_insert (allIndices self) p newIndex;
            pArray := pArray self ++ [p];
            tArray := tArray self |}).

Definition addTriangle (self : arrays) (trig : triangle) : failure + arrays :=
  let '(p0, p1, p2) := trig in
  match getIndex self p0 with
  | inl e => inl e
  | inr (i0, self) =>
      match getIndex self p1 with
      | inl e => inl e
      | inr (i1, self) =>
          match getIndex self p2 with
          | inl e => inl e
          | inr (i2, self) =>
              inr {| allIndices := allIndices self;
                     pArray := pArray self;
                     tArray := tArray self ++ [i0; i1; i2] |}
          end
      end
  end.

(** [addTriangle] for every triangle of every polygon's CDT, in order. *)
Fixpoint add_triangles (self : arrays) (triangles : list triangle)
  : failure + arrays :=
  match triangles with
  | [] => inr self
  | trig :: rest =>
      match addTriangle self trig with
      | inl e => inl e
      | inr self' => add_triangles self' rest
      end
  end.

(** The vertex array and the index array the mesh of a collection is built
    from. *)
Definition collection_arrays (triangles : list triangle)
  : failure + list point2 * list nat :=
  match add_triangles {| allIndices := []; pArray := []; tArray := [] |} triangles with
  | inl e => inl e
  | inr self => inr (pArray self, tArray self)
  end.

End Collection.
End MeshArrays.

(* ===================================================================== *)
(** * [biased_position_grid] *)
(* ===================================================================== *)

Module BiasedPositionGrid.
Import Geometry Interfaces.

(** ** [detail::add_segments] and [detail::polygon_collection_as_segment_range] *)

(** [for (i = 0, j = 1; i < size; ++i, j = (j + 1) % size)
       segs.emplace_back(pgon[i], pgon[j]);] *)
Fixpoint add_segments_loop (pgon : polygon2) (size : nat) (steps i j : nat)
  (segs : list segment2) : failure + list segment2 :=
  match steps with
  | O => inr segs
  | S steps' =>
      match nth_error pgon i, nth_error pgon j with
      | Some pi, Some pj =>
          add_segments_loop pgon size steps' (S i) (Nat.modulo (j + 1) size)
                            (segs ++ [(pi, pj)])
      | _, _ => inl out_of_bounds
      end
  end.

Definition add_segments (pgon : polygon2) (segs : list segment2)
  : failure + list segment2 :=
  add_segments_loop pgon (length pgon) (length pgon) 0 1 segs.

Fixpoint add_segments_rings (rings : list polygon2) (segs : list segment2)
  : failure + list segment2 :=
  match rings with
  | [] => inr segs
  | h :: rest =>
      match add_segments h segs with
      | inl e => inl e
      | inr segs' => add_segments_rings rest segs'
      end
  end.

Definition add_segments_with_holes (pgon : polygon_with_holes2) (segs : list segment2)
  : failure + list segment2 :=
  add_segments_rings (get_outer pgon :: get_holes pgon) segs.

Fixpoint polygon_collection_from (pgons : list polygon_with_holes2)
  (segments : list segment2) : failure + list segment2 :=
  match pgons with
  | [] => inr segments
  | p :: rest =>
      match add_segments_with_holes p segments with
      | inl e => inl e
      | inr segments' => polygon_collection_from rest segments'
      end
  end.

Definition polygon_collection_as_segment_range (pgons : list polygon_with_holes2)
  : failure + list segment2 :=
  polygon_collection_from pgons [].

(** ** [make_integral] *)

(** [for (auto& w : m_integral) { w = last + w / sum; last = w; }] *)
Fixpoint running_share (sum last : float) (integral : list float) : list float :=
  match integral with
  | [] => []
  | w :: rest =>
      let w' := (last + w / sum)%float in
      w' :: running_share sum w' rest
  end.

(** [asserts] says whether [GEOMETRIX_ASSERT] is compiled in. *)
Definition make_integral (asserts : bool) (m_integral : list float)
  : failure + list float :=
  let sum := Std.accumulate m_integral 0%float in
  if asserts && negb (0 <? sum)%float then inl assertion_failed
  else inr (running_share sum 0%float m_integral).

Section Grid.
Context {BSP : SolidBSP} {GX : Geometrix} {LM : Libm} {RE : RandomEngine}
        {EO : EvaluationOrder}.

(** ** The weight policy *)

Record weight_policy : Type := {
  distanceSaturation : float;      (* an area: the saturation distance squared *)
  attractionStrength : float
}.

Definition make_weight_policy (d : float) (attraction_strength : float)
  : weight_policy :=
  {| distanceSaturation := (d * d)%float;
     attractionStrength := attraction_strength |}.

Definition get_weight (wp : weight_policy) (distanceSqrd : float) : float :=
  let d2 := std_max distanceSqrd (distanceSaturation wp) in
  exp ((- attractionStrength wp) * d2)%float.

(** ** The grid *)

Record biased_position_grid : Type := {
  m_halfcell : float;
  m_positions : list point2;
  m_integral : list float;
  m_tree : solid_bsp2
}.

(** The centroids [generate_points] visits for one polygon: the cells under
    the bounding box of its outer ring, [j] outer, [i] inner. *)
Definition cell_centroids (pgon : polygon_with_holes2) (cell : float) : list point2 :=
  let obounds := get_bounds (get_outer pgon) in
  let grid := make_grid_traits obounds cell in
  let '(xmin, xmax, ymin, ymax) := obounds in
  let imin := get_x_index grid xmin in
  let imax := get_x_index grid xmax in
  let jmin := get_y_index grid ymin in
  let jmax := get_y_index grid ymax in
  flat_map (fun j => map (fun i => get_cell_centroid grid i j) (closed_range imin imax))
           (closed_range jmin jmax).

(** The test in front of the two [push_back]s. *)
Definition admitted (self : biased_position_grid) (m2 : float) (bsp : solid_bsp2)
  (c : point2) : bool :=
  (m2 <? get_min_distance_sqrd_to_solid bsp c)%float
  && classification_eqb (point_in_solid_space (m_tree self) c) in_empty_space.

Definition visit_cell (m2 : float) (bsp : solid_bsp2) (wp : weight_policy)
  (self : biased_position_grid) (c : point2) : biased_position_grid :=
  if admitted self m2 bsp c then
    let w := get_weight wp (get_min_distance_sqrd_to_solid bsp c) in
    {| m_halfcell := m_halfcell self;
       m_positions := m_positions self ++ [c];
       m_integral := m_integral self ++ [w];
       m_tree := m_tree self |}
  else self.

(** [gen] and [nPoints] are not read by the body and are left out. *)
Definition generate_points (self : biased_position_grid) (pgon : polygon_with_holes2)
  (cell minDistance : float) (bsp : solid_bsp2) (wp : weight_policy)
  : biased_position_grid :=
  let m2 := (minDistance * minDistance)%float in
  fold_left (visit_cell m2 bsp wp) (cell_centroids pgon cell) self.

(** The constructor taking the attractive BSP, up to the call of
    [make_integral]: the member initialisers and the [boost::for_each] over
    the boundary.  ([nPoints] is declared and never read.) *)
Definition collect_points (boundary : list polygon_with_holes2)
  (attractiveBSP : solid_bsp2)
  (granularity distanceSaturation attractionFactor minDistance : float)
  : failure + biased_position_grid :=
  match polygon_collection_as_segment_range boundary with
  | inl e => inl e
  | inr segments =>
      let self := {| m_halfcell := (0.5 * granularity)%float;
                     m_positions := [];
                     m_integral := [];
                     m_tree := make_solid_bsp2 segments |} in
      let wp := make_weight_policy distanceSaturation attractionFactor in
      inr (fold_left (fun self p =>
                        generate_points self p granularity minDistance attractiveBSP wp)
                     boundary self)
  end.

(** The constructor taking the attractive BSP. *)
Definition construct (asserts : bool) (boundary : list polygon_with_holes2)
  (attractiveBSP : solid_bsp2)
  (granularity distanceSaturation attractionFactor minDistance : float)
  : failure + biased_position_grid :=
  match collect_points boundary attractiveBSP granularity distanceSaturation
                       attractionFactor minDistance with
  | inl e => inl e
  | inr self =>
      match make_integral asserts (m_integral self) with
      | inl e => inl e
      | inr integral =>
          inr {| m_halfcell := m_halfcell self;
                 m_positions := m_positions self;
                 m_integral := integral;
                 m_tree := m_tree self |}
      end
  end.

(** The constructor taking the attractive segments. *)
Definition construct_from_segments (asserts : bool)
  (boundary : list polygon_with_holes2) (attractiveSegments : list segment2)
  (granularity distanceSaturation attractionFactor minDistance : float)
  : failure + biased_position_grid :=
  construct asserts boundary (make_solid_bsp2 attractiveSegments)
            granularity distanceSaturation attractionFactor minDistance.

(** ** Sampling *)

(** [generate_random]: the stored position [i] moved by two draws from
    [-1, 1) along [vx] and [vy].  In
    [(m_positions[i] + U(gen) * vx) + U(gen) * vy] the left operand of the
    outer [+] holds the draw that scales [vx], the right operand the one that
    scales [vy]; which of the two is drawn first is the compiler's choice. *)
Definition generate_random (asserts : bool) (self : biased_position_grid)
  (i : nat) (gen : Gen) : failure + point2 * Gen :=
  if asserts && negb (i <? length (m_positions self))%nat then inl assertion_failed
  else
    let vx : vector2 := (m_halfcell self, 0%float) in
    let vy : vector2 := (0%float, m_halfcell self) in
    match nth_error (m_positions self) i with
    | None => inl out_of_bounds
    | Some position =>
        let '(first, gen) := uniform_real_distribution (-1)%float 1%float gen in
        let '(second, gen) := uniform_real_distribution (-1)%float 1%float gen in
        let '(ux, uy) :=
          if left_operand_first then (first, second) else (second, first) in
        inr (translate (translate position (scale ux vx)) (scale uy vy), gen)
    end.

(** The body of the [do] loop: one draw from [0, 1), the binary search, the
    jitter. *)
Definition attempt (asserts : bool) (self : biased_position_grid) (gen : Gen)
  : failure + point2 * Gen :=
  let '(rT, gen) := uniform_real_distribution 0%float 1%float gen in
  let i := Std.lower_bound PrimFloat.ltb (m_integral self) rT in
  generate_random asserts self i gen.

(** The first operand of the loop condition. *)
Definition rejected (self : biased_position_grid) (p : point2) : bool :=
  negb (classification_eqb (point_in_solid_space (m_tree self) p) in_empty_space).

(** How the [do ... while] loop ends: the last point, what is left of
    [maxAttempts], and the generator. *)
Inductive loop_exit : Type :=
| loop_failed (e : failure)
| loop_done (p : point2) (maxAttempts : Z) (gen : Gen).

(** [do { ... } while (rejected(p) && --maxAttempts > 0);] with
    [maxAttempts] a [std::uint32_t]. *)
Equations? sample_loop (asserts : bool) (self : biased_position_grid)
  (gen : Gen) (maxAttempts : Z) : loop_exit
  by wf (Z.to_nat (Machine.wrap32 (maxAttempts - 1))) lt :=
  sample_loop asserts self gen maxAttempts with attempt asserts self gen => {
    | inl e := loop_failed e;
    | inr (p, gen') with rejected self p => {
      | false := loop_done p maxAttempts gen';
      | true with Z_lt_dec 0 (Machine.wrap32 (maxAttempts - 1)) => {
        | left _ := sample_loop asserts self gen' (Machine.wrap32 (maxAttempts - 1));
        | right _ := loop_done p (Machine.wrap32 (maxAttempts - 1)) gen' } } }.
Proof.
  assert (Machine.wrap32 (maxAttempts - 1) < Machine.uint32_modulus)
    by (apply Z.mod_pos_bound; reflexivity).
  unfold Machine.wrap32 at 1. rewrite Z.mod_small by lia. lia.
Qed.

Definition get_random_position (asserts : bool) (self : biased_position_grid)
  (gen : Gen) (maxAttempts : Z) : failure + option point2 * Gen :=
  if asserts && Std.empty (m_positions self) then inl assertion_failed
  else
    match sample_loop asserts self gen maxAttempts with
    | loop_failed e => inl e
    | loop_done p maxAttempts gen =>
        if 0 <? maxAttempts then inr (Some p, gen) else inr (None, gen)
    end.

End Grid.
End BiasedPositionGrid.

(* ===================================================================== *)
(** * [is_self_intersecting] *)
(* ===================================================================== *)

Module SelfIntersection.
Import Geometry Interfaces.

Section SelfIntersection.
Context {IX : Intersection}.

(** [to_polyline]: the ring with its first vertex repeated at the end;
    [pgon.front()] of an empty ring reads out of bounds. *)
Definition to_polyline (pgon : polygon2) : failure + polyline2 :=
  match pgon with
  | [] => inl out_of_bounds
  | front :: _ => inr (pgon ++ [front])
  end.

(** [subjects.emplace_back(to_polyline(...))] for the outer ring, then for
    each hole. *)
Fixpoint emplace_polylines (rings : list polygon2) (subjects : list polyline2)
  : failure + list polyline2 :=
  match rings with
  | [] => inr subjects
  | ring :: rest =>
      match to_polyline ring with
      | inl e => inl e
      | inr r => emplace_polylines rest (subjects ++ [r])
      end
  end.

(** The two nested loops: [subjects[i]] against every [subjects[j]] with
    [j > i], returning at the first intersection. *)
Fixpoint some_pair_intersects (subjects : list polyline2) : bool :=
  match subjects with
  | [] => false
  | subject :: later =>
      existsb (polyline_polyline_intersect subject) later
      || some_pair_intersects later
  end.

(** The overload taking the outer ring and the holes. *)
Definition is_self_intersecting (outer : polygon2) (holes : list polygon2)
  : failure + bool :=
  match emplace_polylines (outer :: holes) [] with
  | inl e => inl e
  | inr subjects => inr (some_pair_intersects subjects)
  end.

End SelfIntersection.
End SelfIntersection.

(* ===================================================================== *)
(** * A concrete world *)
(* ===================================================================== *)

(** Executable stand-ins for the collaborators, used to run the model on
    concrete inputs: exact point-to-segment distances, an even-odd
    point-in-region test, a uniform grid, a triangulator for convex rings
    with at most one hole that places no Steiner points, a truncated series
    for [exp], a generator that replays a list of canonical draws, and the
    two orders in which a compiler can evaluate the operands of a sum. *)
Module Scenario.
Import Geometry Interfaces.

Local Open Scope float_scope.

Definition minus (p q : point2) : vector2 := (fst p - fst q, snd p - snd q).
Definition dot (u v : vector2) : float := fst u * fst v + snd u * snd v.
Definition cross (u v : vector2) : float := fst u * snd v - snd u * fst v.

Definition clamp01 (t : float) : float :=
  if t <? 0 then 0 else if 1 <? t then 1 else t.

Definition distance_sqrd_to_segment (p : point2) (s : segment2) : float :=
  let '(a, b) := s in
  let ab := minus b a in
  let len2 := dot ab ab in
  let t := if len2 =? 0 then 0 else clamp01 (dot (minus p a) ab / len2) in
  let q := translate a (scale t ab) in
  dot (minus p q) (minus p q).

Definition min_distance_sqrd (segments : list segment2) (p : point2) : float :=
  fold_left (fun d s => let d' := distance_sqrd_to_segment p s in
                        if d' <? d then d' else d)
            segments infinity.

(** Does the ray from [p] towards [+x] cross the segment? *)
Definition ray_crosses (p : point2) (s : segment2) : bool :=
  let '(a, b) := s in
  if Bool.eqb (snd p <? snd a) (snd p <? snd b) then false
  else fst p <? fst a + (fst b - fst a) * (snd p - snd a) / (snd b - snd a).

(** The walls are solid: a point is in empty space when an odd number of
    boundary segments lies to its right. *)
Definition classify (segments : list segment2) (p : point2)
  : point_in_solid_classification :=
  if existsb (fun s => distance_sqrd_to_segment p s =? 0) segments then on_boundary
  else if Nat.odd (length (filter (ray_crosses p) segments)) then in_empty_space
  else in_solid_space.

#[export] Instance segments_bsp : SolidBSP := {|
  solid_bsp2 := list segment2;
  make_solid_bsp2 := fun segments => segments;
  point_in_solid_space := classify;
  get_min_distance_sqrd_to_solid := min_distance_sqrd
|}.

Definition bounds_of (points : list point2) : float * float * float * float :=
  match points with
  | [] => (0, 0, 0, 0)
  | p :: rest =>
      fold_left (fun '(xmin, xmax, ymin, ymax) q =>
                   (if fst q <? xmin then fst q else xmin,
                    if xmax <? fst q then fst q else xmax,
                    if snd q <? ymin then snd q else ymin,
                    if ymax <? snd q then snd q else ymax))
                rest (fst p, fst p, snd p, snd p)
  end.

Definition orientation (a b c : point2) : float := cross (minus b a) (minus c a).

Definition edges (pgon : polygon2) : list segment2 :=
  match pgon with
  | [] => []
  | first :: rest => combine pgon (rest ++ [first])
  end.

Definition properly_cross (s t : segment2) : bool :=
  let '(a, b) := s in
  let '(c, d) := t in
  (orientation a b c * orientation a b d <? 0)
  && (orientation c d a * orientation c d b <? 0).

Definition simple (pgon : polygon2) : bool :=
  (3 <=? length pgon)%nat
  && forallb (fun s => forallb (fun t => negb (properly_cross s t)) (edges pgon))
             (edges pgon).

Definition area (t : triangle) : float :=
  let '(a, b, c) := t in 0.5 * abs (orientation a b c).

Definition centroid (t : triangle) : point2 :=
  let '(a, b, c) := t in
  ((fst a + fst b + fst c) / 3, (snd a + snd b + snd c) / 3).

Definition in_triangle (p : point2) (t : triangle) : bool :=
  let '(a, b, c) := t in
  let d1 := orientation a b p in
  let d2 := orientation b c p in
  let d3 := orientation c a p in
  ((0 <=? d1) && (0 <=? d2) && (0 <=? d3))
  || ((d1 <=? 0) && (d2 <=? 0) && (d3 <=? 0)).

Record uniform_grid : Type := {
  grid_xmin : float;
  grid_ymin : float;
  grid_cell : float
}.

(** Truncation of a non-negative quotient to an index. *)
Definition to_index (x : float) : Z :=
  match Prim2SF x with
  | S754_finite false m e => Z.shiftl (Z.pos m) e
  | _ => 0%Z
  end.

Definition of_index (i : Z) : float := of_uint63 (Uint63.of_Z i).

Definition lexicographically_less (p q : point2) : bool :=
  (fst p <? fst q) || (negb (fst q <? fst p) && (snd p <? snd q)).

#[export] Instance planar : Geometrix := {|
  is_polygon_simple := simple;
  get_bounds := bounds_of;
  get_area := area;
  get_centroid := centroid;
  point_in_triangle := in_triangle;
  grid_traits := uniform_grid;
  make_grid_traits := fun '(xmin, _, ymin, _) cell =>
    {| grid_xmin := xmin; grid_ymin := ymin; grid_cell := cell |};
  get_x_index := fun g x => to_index ((x - grid_xmin g) / grid_cell g);
  get_y_index := fun g y => to_index ((y - grid_ymin g) / grid_cell g);
  get_cell_centroid := fun g i j =>
    (grid_xmin g + (of_index i + 0.5) * grid_cell g,
     grid_ymin g + (of_index j + 0.5) * grid_cell g);
  point_less := lexicographically_less
|}.

(** Triangles [(p0, p_k, p_k+1)] of a convex ring. *)
Definition fan (pgon : polygon2) : list triangle :=
  match pgon with
  | p0 :: p1 :: rest => map (fun '(a, b) => (p0, a, b)) (combine (p1 :: rest) rest)
  | _ => []
  end.

(** The band between a ring and a hole of as many corners, corner [k] of
    the one facing corner [k] of the other: two triangles per edge. *)
Definition band (pgon hole : polygon2) : list triangle :=
  flat_map (fun '((a, b), (c, d)) => [(a, b, d); (a, d, c)])
           (combine (edges pgon) (edges hole)).

Definition triangles_of (pgon : polygon2) (holes : list polygon2) : list triangle :=
  match holes with
  | [] => fan pgon
  | hole :: _ => band pgon hole
  end.

#[export] Instance fan_triangulator : Poly2Tri := {|
  generate_mesh := triangles_of;
  cdt_triangulate := fun pgon holes _ => triangles_of pgon holes
|}.

(** [sum_(k <= n) x^k / k!] by Horner's rule. *)
Fixpoint exp_series (n : nat) (k x : float) : float :=
  match n with
  | O => 1
  | S n' => 1 + x / k * exp_series n' (k + 1) x
  end.

Fixpoint repeated_square (n : nat) (y : float) : float :=
  match n with
  | O => y
  | S n' => repeated_square n' (y * y)
  end.

(** [exp x = (exp (x / 2^10))^(2^10)], the inner value by its series. *)
Definition exp_approx (x : float) : float :=
  repeated_square 10 (exp_series 20 1 (x / 1024)).

#[export] Instance series_libm : Libm := {| exp := exp_approx |}.

(** A generator that replays canonical draws from [0, 1); the distribution
    maps a draw [r] to [r * (b - a) + a]. *)
#[export] Instance replay : RandomEngine := {|
  Gen := list float;
  uniform_real_distribution := fun a b gen =>
    match gen with
    | [] => (a, [])
    | r :: rest => (r * (b - a) + a, rest)
    end
|}.

(** The draw that scales [vx] is taken first, or the one that scales [vy]. *)
Definition left_to_right : EvaluationOrder := {| left_operand_first := true |}.

#[export] Instance right_to_left : EvaluationOrder := {| left_operand_first := false |}.

(** The strip [(0,0)-(1,10)] with an attractive segment across its middle. *)
Definition strip : polygon_with_holes2 :=
  {| get_outer := [(0, 0); (1, 0); (1, 10); (0, 10)]; get_holes := [] |}.

Definition middle_bar : list segment2 := [((0, 5), (1, 5))].

(** The grid over the strip: cells of one metre, no attraction
    ([attractionFactor = 0]), at least an eighth of a metre from the bar. *)
Definition no_grid : BiasedPositionGrid.biased_position_grid :=
  {| BiasedPositionGrid.m_halfcell := 0;
     BiasedPositionGrid.m_positions := [];
     BiasedPositionGrid.m_integral := [];
     BiasedPositionGrid.m_tree := [] |}.

Definition strip_grid : BiasedPositionGrid.biased_position_grid :=
  Eval vm_compute in
    match BiasedPositionGrid.construct true [strip] middle_bar 1 1 0 0.125 with
    | inr g => g
    | inl _ => no_grid
    end.

(** The same grid before [make_integral] has run. *)
Definition strip_collected : BiasedPositionGrid.biased_position_grid :=
  Eval vm_compute in
    match BiasedPositionGrid.collect_points [strip] middle_bar 1 1 0 0.125 with
    | inr g => g
    | inl _ => no_grid
    end.

(** A shorter strip, [(0,0)-(1,7)], with the bar on a cell border: seven
    admitted cells of equal weight. *)
Definition strip7 : polygon_with_holes2 :=
  {| get_outer := [(0, 0); (1, 0); (1, 7); (0, 7)]; get_holes := [] |}.

Definition bar7 : list segment2 := [((0, 3), (1, 3))].

Definition strip7_grid : BiasedPositionGrid.biased_position_grid :=
  Eval vm_compute in
    match BiasedPositionGrid.construct true [strip7] bar7 1 1 0 0.125 with
    | inr g => g
    | inl _ => no_grid
    end.

(** A square of side two and an attractive segment well away from it. *)
Definition square : polygon2 := [(0, 0); (2, 0); (2, 2); (0, 2)].

Definition far_bar : list segment2 := [((10, 0), (10, 2))].

Definition no_generator : BiasedPositionGenerator.biased_position_generator :=
  {| BiasedPositionGenerator.m_mesh :=
       {| BiasedPositionGenerator.mesh_triangles := [];
          BiasedPositionGenerator.mesh_weights := [] |} |}.

(** The generator over the square: cells of one metre, saturation at one
    metre, attraction factor one. *)
Definition square_generator : BiasedPositionGenerator.biased_position_generator :=
  Eval vm_compute in
    match BiasedPositionGenerator.from_segments square far_bar 1 1 1 with
    | inr g => g
    | inl _ => no_generator
    end.

(** Three draws: [u = 0.5625] selects the cell centred at [(0.5, 5.5)]; the
    jitter draws, both [-0.875], move it to [(0.0625, 5.0625)]. *)
Definition towards_the_bar : @Gen replay := [0.5625; 0.0625; 0.0625].

(** Three draws: [u = 0.03125] selects the cell centred at [(0.5, 0.5)]; the
    jitter draws, both [-1], move it onto the corner [(0, 0)] of the wall. *)
Definition onto_the_wall : @Gen replay := [0.03125; 0; 0].

(** The grid over the strip under repulsion: [attractionFactor = -800]
    makes every weight overflow. *)
Definition repelled_grid : BiasedPositionGrid.biased_position_grid :=
  Eval vm_compute in
    match BiasedPositionGrid.construct true [strip] middle_bar 1 1 (-800) 0.125 with
    | inr g => g
    | inl _ => no_grid
    end.

(** The grid over the strip with saturation at two metres and attraction
    factor one, before [make_integral] has run. *)
Definition attracted_collected : BiasedPositionGrid.biased_position_grid :=
  Eval vm_compute in
    match BiasedPositionGrid.collect_points [strip] middle_bar 1 2 1 0.125 with
    | inr g => g
    | inl _ => no_grid
    end.

(** With a minimum distance of a hundred metres no cell of the strip is
    admitted. *)
Definition empty_strip_grid : BiasedPositionGrid.biased_position_grid :=
  {| BiasedPositionGrid.m_halfcell := 0.5;
     BiasedPositionGrid.m_positions := [];
     BiasedPositionGrid.m_integral := [];
     BiasedPositionGrid.m_tree := make_solid_bsp2
                 [((0, 0), (1, 0)); ((1, 0), (1, 10)); ((1, 10), (0, 10));
                  ((0, 10), (0, 0))] |}.

(** The generator over the square with saturation at ten metres, beyond
    the attractive segment, and attraction factor one sixteenth. *)
Definition saturated_generator : BiasedPositionGenerator.biased_position_generator :=
  Eval vm_compute in
    match BiasedPositionGenerator.from_segments square far_bar 1 10 0.0625 with
    | inr g => g
    | inl _ => no_generator
    end.

(** A square of side four with a square hole of side two in its middle. *)
Definition frame : polygon_with_holes2 :=
  {| get_outer := [(0, 0); (4, 0); (4, 4); (0, 4)];
     get_holes := [[(1, 1); (3, 1); (3, 3); (1, 3)]] |}.

(** The centroids of the sixteen cells of one metre under the frame. *)
Definition frame_cells : list point2 :=
  flat_map (fun y => map (fun x => (x, y)) [0.5; 1.5; 2.5; 3.5]) [0.5; 1.5; 2.5; 3.5].

(** Four threads of sixteen fibers on a machine that reports two
    processors. *)
Definition no_layout : FiberPool.layout :=
  {| FiberPool.n_slots := 0; FiberPool.owned := [] |}.

Definition four_threads_two_processors : FiberPool.layout :=
  Eval vm_compute in
    match FiberPool.fiber_pool true 16 4 2 with
    | inr l => l
    | inl _ => no_layout
    end.

(** A pool after [shutdown] has set [m_done]: two tasks queued, one fiber
    inside its loop, one that has returned; and a schedule that resumes
    them and sends a third task. *)
Definition draining : FiberPoolTasks.pool_tasks nat :=
  {| FiberPoolTasks.m_done := true;
     FiberPoolTasks.m_tasks := [7%nat; 8%nat];
     FiberPoolTasks.m_fibers := [FiberPoolTasks.at_try_pop; FiberPoolTasks.returned] |}.

Definition late_send : list (FiberPoolTasks.action nat) :=
  [FiberPoolTasks.resume 0; FiberPoolTasks.resume 0; FiberPoolTasks.send 9%nat;
   FiberPoolTasks.resume 0; FiberPoolTasks.resume 0; FiberPoolTasks.resume 1].

(** Four CDT points at four addresses, each holding its address as [x], and
    two triangles over them. *)
Definition four_points : list Z := [10; 20; 30; 40]%Z.

Definition two_triangles : list (Z * Z * Z) := [(10, 20, 30); (10, 30, 40)]%Z.

Definition coordinates (address : Z) : point2 := (of_index address, 0).

End Scenario.

(* ===================================================================== *)
(** * The specification's own words *)
(* ===================================================================== *)

(** Definitions that follow the specification's sentences, to be compared
    with the code above, and the invariants and tests used on the way. *)
Module Specification.
Import Geometry Interfaces.

(** The sign bit of a [double] is clear, or the value is a NaN. *)
Definition sign_clear (x : spec_float) : Prop :=
  match x with
  | S754_zero false | S754_finite false _ _ | S754_infinity false | S754_nan => True
  | _ => False
  end.

(** A cumulative array is monotonically non-decreasing. *)
Definition non_decreasing (cumulative : list float) : Prop :=
  forall i j x y, (i < j)%nat ->
    nth_error cumulative i = Some x -> nth_error cumulative j = Some y ->
    (x <=? y)%float = true.

(** The same, as a test of neighbouring entries. *)
Fixpoint non_decreasing_check (cumulative : list float) : bool :=
  match cumulative with
  | x :: (y :: _) as rest => (x <=? y)%float && non_decreasing_check rest
  | _ => true
  end.

(** [less] orders the points of [domain] strictly and totally, equivalent
    points being equal: what [std::set] needs of its order to hold each exact
    coordinate pair once. *)
Definition strict_total_order_on {A : Type} (domain : list A) (less : A -> A -> bool)
  : Prop :=
  (forall x, In x domain -> less x x = false)
  /\ (forall x y z, In x domain -> In y domain -> In z domain ->
        less x y = true -> less y z = true -> less x z = true)
  /\ (forall x y, In x domain -> In y domain ->
        less x y = false -> less y x = false -> x = y).

(** Exact equality of coordinates. *)
Definition same_point (p q : point2) : bool :=
  Leibniz.eqb (fst p) (fst q) && Leibniz.eqb (snd p) (snd q).

Definition strict_total_order_check (domain : list point2)
  (less : point2 -> point2 -> bool) : bool :=
  forallb (fun x => negb (less x x)) domain
  && forallb (fun x => forallb (fun y => forallb (fun z =>
       implb (less x y && less y z) (less x z)) domain) domain) domain
  && forallb (fun x => forallb (fun y =>
       less x y || less y x || same_point x y) domain) domain.

(** The first index whose entry is not below [u], scanning from the left. *)
Fixpoint first_index_reaching (u : float) (cumulative : list float) : nat :=
  match cumulative with
  | [] => 0
  | c :: rest => if (c <? u)%float then S (first_index_reaching u rest) else 0
  end.

Section LowerBound.
Context {A : Type} (less : A -> A -> bool) (a : list A) (val : A).

(** The precondition of [std::lower_bound]: the elements less than [val]
    come first. *)
Definition partitioned : Prop :=
  forall i j x y, (i <= j)%nat ->
    nth_error a i = Some x -> nth_error a j = Some y ->
    less y val = true -> less x val = true.

(** [r] is the first index whose element is not less than [val]
    ([length a] when there is none). *)
Definition first_not_less_at (r : nat) : Prop :=
  (r <= length a)%nat
  /\ (forall i x, (i < r)%nat -> nth_error a i = Some x -> less x val = true)
  /\ (forall x, nth_error a r = Some x -> less x val = false).

End LowerBound.

Section GeneratorSpec.
Context {BSP : SolidBSP} {GX : Geometrix}.

(** A ring the triangulator must not be handed: empty, or not simple. *)
Definition invalid_ring (ring : polygon2) : Prop :=
  ring = [] \/ is_polygon_simple ring = false.

(** The cell centroids the two nested loops visit, each with the triangle
    whose bounding box it was enumerated for. *)
Definition visits (grid : grid_traits) (mesh : list triangle)
  : list (triangle * point2) :=
  flat_map (fun trig => map (pair trig) (BiasedPositionGenerator.cell_centroids grid trig)) mesh.

Definition visit (bsp : solid_bsp2) (results : list point2)
  (v : triangle * point2) : list point2 :=
  BiasedPositionGenerator.insert_admitted bsp (fst v) results (snd v).

End GeneratorSpec.

Section Retry.
Context {State Point : Type}.
Variable attempt : State -> failure + Point * State.
Variable reject : Point -> bool.

(** Retry up to [attempts] times: the first point that is not rejected is
    the result; when every attempt is rejected the result is absent. *)
Fixpoint retry (attempts : nat) (s : State) : failure + option Point * State :=
  match attempts with
  | O => inr (None, s)
  | S k =>
      match attempt s with
      | inl e => inl e
      | inr (p, s') => if reject p then retry k s' else inr (Some p, s')
      end
  end.

(** Each of the first [attempts] attempts yields a point and rejects it. *)
Fixpoint all_rejected (attempts : nat) (s : State) : Prop :=
  match attempts with
  | O => True
  | S k =>
      match attempt s with
      | inl _ => False
      | inr (p, s') => reject p = true /\ all_rejected k s'
      end
  end.

End Retry.

Section GridSampler.
Context {BSP : SolidBSP} {GX : Geometrix} {LM : Libm} {RE : RandomEngine}
        {EO : EvaluationOrder}.
Import BiasedPositionGrid.

(** One attempt: draw [u] from [0, 1), take the first index whose cumulative
    value is not below [u], and move the stored position by a draw from
    [-1, 1) times half the granularity along each axis.  The two draws are
    taken one after the other; which of them moves which axis follows the
    compiler's order of evaluation. *)
Definition sampling_attempt (asserts : bool) (self : biased_position_grid)
  (granularity : float) (gen : Gen) : failure + point2 * Gen :=
  let '(u, gen) := uniform_real_distribution 0%float 1%float gen in
  match nth_error (m_positions self) (first_index_reaching u (m_integral self)) with
  | None => inl (if asserts then assertion_failed else out_of_bounds)
  | Some (x, y) =>
      let half := (0.5 * granularity)%float in
      let '(first, gen) := uniform_real_distribution (-1)%float 1%float gen in
      let '(second, gen) := uniform_real_distribution (-1)%float 1%float gen in
      let ux := if left_operand_first then first else second in
      let uy := if left_operand_first then second else first in
      inr ((x + ux * half + uy * 0, y + ux * 0 + uy * half)%float, gen)
  end.

(** The jittered point is not classified as lying in empty space: it is in
    solid space or on the boundary. *)
Definition outside_empty_space (self : biased_position_grid) (p : point2) : bool :=
  match point_in_solid_space (m_tree self) p with
  | in_empty_space => false
  | in_solid_space | on_boundary => true
  end.

(** Up to [attempts] attempts; the first point in empty space is returned. *)
Definition sample_with_retries (asserts : bool) (self : biased_position_grid)
  (granularity : float) (attempts : nat) (gen : Gen)
  : failure + option point2 * Gen :=
  retry (sampling_attempt asserts self granularity) (outside_empty_space self)
        attempts gen.

(** Each of the first [attempts] attempts yields a point and rejects it. *)
Definition every_attempt_rejected (asserts : bool) (self : biased_position_grid)
  (granularity : float) (attempts : nat) (gen : Gen) : Prop :=
  all_rejected (sampling_attempt asserts self granularity) (outside_empty_space self)
               attempts gen.

(** What [generate_points] keeps true of the grid it fills: the tree and the
    half cell stay as initialised, every stored position passed both tests,
    and the two vectors grow together. *)
Record filled (tree : solid_bsp2) (halfcell m2 : float) (bsp : solid_bsp2)
  (self : biased_position_grid) : Prop := {
  filled_tree : m_tree self = tree;
  filled_halfcell : m_halfcell self = halfcell;
  filled_positions :
    Forall (fun c => (m2 <? get_min_distance_sqrd_to_solid bsp c)%float = true
                     /\ point_in_solid_space tree c = in_empty_space)
           (m_positions self);
  filled_lengths : length (m_positions self) = length (m_integral self)
}.

End GridSampler.
(** ** Rings and their segments *)

(** The edges of a closed ring: every vertex joined to its successor, the
    last one to the first. *)
Definition closed_ring (pgon : polygon2) : list segment2 :=
  match pgon with
  | [] => []
  | first :: rest => combine pgon (rest ++ [first])
  end.

(** The rings of a collection in the order [add_segments] meets them: per
    polygon the outer ring, then its holes. *)
Definition rings_of (pgons : list polygon_with_holes2) : list polygon2 :=
  flat_map (fun p => get_outer p :: get_holes p) pgons.

Definition single_vertex (ring : polygon2) : bool :=
  match ring with [_] => true | _ => false end.

(** A ring closed into a polyline. *)
Definition closed_polyline (ring : polygon2) : polyline2 :=
  ring ++ firstn 1 ring.

(** ** Draws *)

(** The generator after the three draws of one sampling attempt. *)
Definition three_draws {RE : RandomEngine} (gen : Gen) : Gen :=
  let '(_, gen) := uniform_real_distribution 0%float 1%float gen in
  let '(_, gen) := uniform_real_distribution (-1)%float 1%float gen in
  let '(_, gen) := uniform_real_distribution (-1)%float 1%float gen in
  gen.

(** ** The fiber pool *)

(** The indices of the joinable threads. *)
Definition joinable_indices (threads : list bool) : list nat :=
  filter (fun t => nth t threads false) (seq 0 (length threads)).

(** The call of [join] ended in an exception. *)
Definition throws (r : FiberPool.join_result) : bool :=
  match r with FiberPool.join_throws => true | _ => false end.

(** Each of the threads [k, k + m), one after the other, takes three
    steps. *)
Definition three_steps_each (k m : nat) : list ShutdownRace.action :=
  flat_map (fun t => [ShutdownRace.run_thread t; ShutdownRace.run_thread t;
                      ShutdownRace.run_thread t])
           (seq k m).

(** The schedule on which [shutdown] finds every thread waiting: each of the
    [n] threads locks [m_mtx], tests [m_done] and waits; [shutdown] swaps
    [m_done] and notifies; each thread locks [m_mtx] again, tests [m_done]
    and joins its fibers; [shutdown] joins the threads. *)
Definition threads_wait_first (n : nat) : list ShutdownRace.action :=
  three_steps_each 0 n
  ++ [ShutdownRace.run_shutdown; ShutdownRace.run_shutdown]
  ++ three_steps_each 0 n
  ++ repeat ShutdownRace.run_shutdown (S n).

Section Tasks.
Context {function_wrapper : Type}.
Import FiberPoolTasks.

(** The tasks a schedule sends, in order. *)
Definition sent (schedule : list (action function_wrapper)) : list function_wrapper :=
  flat_map (fun a => match a with send m => [m] | _ => [] end) schedule.

(** The tasks that were popped and are not yet run. *)
Definition in_flight (fibers : list (worker_pc function_wrapper))
  : list function_wrapper :=
  flat_map (fun pc => match pc with at_call task => [task] | _ => [] end) fibers.

(** The fibers that are past the loop test: those that can still run a
    task after [m_done] is set. *)
Definition committed (fibers : list (worker_pc function_wrapper)) : nat :=
  length (filter (fun pc => match pc with
                            | at_try_pop | at_call _ => true
                            | _ => false
                            end)
                 fibers).

(** The task a step ran, as a list. *)
Definition ran_by (ran : option function_wrapper) : list function_wrapper :=
  match ran with Some task => [task] | None => [] end.

End Tasks.

(** ** The arrays of the mesh *)

(** The corners of the triangles, in the order the index array lists them. *)
Definition corners_of {A : Type} (triangles : list (A * A * A)) : list A :=
  flat_map (fun '(p0, p1, p2) => [p0; p1; p2]) triangles.

(** The keys of a [std::map] over addresses ascend strictly. *)
Definition ascending (m : MeshArrays.pointer_map) : Prop :=
  StronglySorted (fun a b => fst a < fst b) m.

Section Collection.
Context {GX : Geometrix}.
Import MeshArrays.

(** The usual test after [lower_bound]: the iterator is not [end()] and its
    key is not greater than the one looked for. *)
Definition found_at_lower_bound (p : point2) (it : option (point2 * nat)) : bool :=
  match it with
  | Some (k, _) => negb (point_less p k)
  | None => false
  end.

(** What [getIndex] keeps true of the map and the vertex array: the keys
    ascend, and the map sends each vertex to its place in the array. *)
Record indexed (domain : list point2) (self : arrays) : Prop := {
  indexed_within : Forall (fun e => In (fst e) domain) (allIndices self);
  indexed_sorted :
    StronglySorted (fun a b => point_less (fst a) (fst b) = true) (allIndices self);
  indexed_places :
    forall k v, In (k, v) (allIndices self) <-> nth_error (pArray self) v = Some k;
  indexed_length : length (allIndices self) = length (pArray self)
}.

End Collection.

End Specification.

(** Case analysis on every comparison of exponents and mantissas in the goal. *)
Ltac compare_cases :=
  change (Pos.compare_cont Eq) with Pos.compare in *;
  repeat match goal with
  | |- context [Z.compare ?a ?b] => destruct (Z.compare_spec a b)
  | |- context [Pos.compare ?a ?b] => destruct (Pos.compare_spec a b)
  end; simpl; try congruence; try lia.


(* ===================================================================== *)
(** * Facts about machine integers *)
(* ===================================================================== *)

Module MachineFacts.
Import Machine.

Lemma in_loop_range (lo hi s : Z) : In s (loop_range lo hi) <-> lo <= s < hi.
Proof.
  unfold loop_range. rewrite in_map_iff. split.
  - intros (k & <- & Hk). apply in_seq in Hk. lia.
  - intros Hs. exists (Z.to_nat (s - lo)). split; [lia|].
    apply in_seq. lia.
Qed.

Lemma wrap32_small (z : Z) : 0 <= z < uint32_modulus -> wrap32 z = z.
Proof. intros. unfold wrap32. now apply Z.mod_small. Qed.

Lemma wrap_size_t_small (z : Z) : 0 <= z < size_t_modulus -> wrap_size_t z = z.
Proof. intros. unfold wrap_size_t. now apply Z.mod_small. Qed.

End MachineFacts.

(* ===================================================================== *)
(** * Facts about the fiber pool *)
(* ===================================================================== *)

Module FiberPoolFacts.
Import Machine MachineFacts FiberPool.

(** ** The slot layout *)

Lemma nth_error_loop_range (lo hi : Z) (t : nat) :
  nth_error (loop_range lo hi) t =
  if Z.of_nat t <? hi - lo then Some (lo + Z.of_nat t) else None.
Proof.
  unfold loop_range.
  destruct (Z.ltb_spec (Z.of_nat t) (hi - lo)) as [Hlt|Hge].
  - rewrite nth_error_map, nth_error_nth' with (d := 0%nat).
    + rewrite seq_nth by lia. reflexivity.
    + rewrite length_seq. lia.
  - apply nth_error_None. rewrite length_map, length_seq. lia.
Qed.

Lemma spawn_length nF nCPUS ts o :
  spawn nF nCPUS ts = Some o -> length o = length ts.
Proof.
  revert o. induction ts as [|i ts IH]; intros o; simpl.
  - now intros [= <-].
  - destruct (thread_idx nCPUS i); [|discriminate].
    destruct (spawn nF nCPUS ts); [|discriminate].
    intros [= <-]. simpl. f_equal. now apply IH.
Qed.

(** The slots of thread [t] are those [os_thread] visits for the index the
    constructor computed from the [t]-th loop counter. *)
Lemma spawn_nth nF nCPUS ts o t i :
  spawn nF nCPUS ts = Some o ->
  nth_error ts t = Some i ->
  exists idx, thread_idx nCPUS i = Some idx /\ nth t o [] = os_thread nF idx.
Proof.
  revert o t. induction ts as [|j ts IH]; intros o t; simpl.
  - destruct t; discriminate.
  - destruct (thread_idx nCPUS j) as [idx|] eqn:Hidx; [|discriminate].
    destruct (spawn nF nCPUS ts) as [o'|]; [|discriminate].
    intros [= <-]. destruct t as [|t]; simpl.
    + intros [= <-]. now exists idx.
    + intros Ht. now apply (IH o' t).
Qed.

Lemma spawn_defined nF nCPUS ts :
  nCPUS <> 0 -> exists o, spawn nF nCPUS ts = Some o.
Proof.
  intros Hn. induction ts as [|i ts [o Ho]]; simpl.
  - now exists [].
  - unfold thread_idx. destruct (Z.eqb_spec nCPUS 0); [contradiction|].
    rewrite Ho. eauto.
Qed.

Lemma spawn_undefined nF ts :
  ts <> [] -> spawn nF 0 ts = None.
Proof. destruct ts; [congruence|reflexivity]. Qed.

(** Without wrap-around a thread's slots are the block [idx * n, (idx+1) * n). *)
Lemma in_os_thread nF idx s :
  0 <= nF -> 0 <= idx -> (idx + 1) * nF < size_t_modulus ->
  In s (os_thread nF idx) <-> idx * nF <= s < (idx + 1) * nF.
Proof.
  intros HnF Hidx Hbound. unfold os_thread, slot_end, slot_start.
  rewrite in_loop_range.
  rewrite (wrap_size_t_small (idx * nF)) by nia.
  rewrite wrap_size_t_small by nia. lia.
Qed.

Lemma spawned_slots nF nOS nCPUS o t :
  0 < nCPUS < uint32_modulus ->
  spawn nF nCPUS (loop_range 0 nOS) = Some o ->
  Z.of_nat t < nOS ->
  nth t o [] = os_thread nF (Z.of_nat t mod nCPUS).
Proof.
  intros HnC Hsp Ht.
  destruct (spawn_nth nF nCPUS _ o t (Z.of_nat t) Hsp) as (idx & Hidx & ->).
  { rewrite nth_error_loop_range.
    destruct (Z.ltb_spec (Z.of_nat t) (nOS - 0)); [f_equal|]; lia. }
  unfold thread_idx in Hidx. destruct (Z.eqb_spec nCPUS 0); [lia|].
  injection Hidx as <-.
  assert (Hm : 0 <= Z.of_nat t mod nCPUS < nCPUS) by (apply Z.mod_pos_bound; lia).
  now rewrite wrap32_small by lia.
Qed.

(** With at most as many threads as processors, thread [t] owns block [t]. *)
Lemma owns_own_block nF nOS nCPUS o t s :
  0 <= nF -> 0 < nCPUS < uint32_modulus -> nOS <= nCPUS ->
  nF * nOS < size_t_modulus ->
  spawn nF nCPUS (loop_range 0 nOS) = Some o ->
  Z.of_nat t < nOS ->
  In s (nth t o []) <-> Z.of_nat t * nF <= s < (Z.of_nat t + 1) * nF.
Proof.
  intros HnF HnC Hle Hprod Hsp Ht.
  rewrite (spawned_slots nF nOS nCPUS o t HnC Hsp Ht).
  rewrite Z.mod_small by lia.
  apply in_os_thread; nia.
Qed.

Lemma owns_nothing_beyond nF nCPUS ts o t s :
  spawn nF nCPUS ts = Some o -> (length ts <= t)%nat -> ~ In s (nth t o []).
Proof.
  intros Hsp Ht. apply spawn_length in Hsp.
  rewrite nth_overflow by lia. intros [].
Qed.

Lemma length_loop_range lo hi : length (loop_range lo hi) = Z.to_nat (hi - lo).
Proof. unfold loop_range. now rewrite length_map, length_seq. Qed.

Lemma fiber_pool_layout asserts nF nOS nCPUS l :
  fiber_pool asserts nF nOS nCPUS = inr l ->
  2 <= nOS /\ nCPUS <> 0 /\
  n_slots l = wrap_size_t (nF * nOS) /\
  spawn nF nCPUS (loop_range 0 nOS) = Some (owned l).
Proof.
  unfold fiber_pool. destruct (asserts && negb (1 <? nOS)); [discriminate|].
  destruct (Z.ltb_spec nOS 2); [discriminate|].
  destruct (spawn nF nCPUS (loop_range 0 nOS)) as [o|] eqn:Hsp; [|discriminate].
  intros [= <-]. simpl. repeat split; trivial.
  intros ->. rewrite spawn_undefined in Hsp; [discriminate|].
  intros Hnil. apply (f_equal (@length Z)) in Hnil.
  rewrite length_loop_range in Hnil. simpl in Hnil. lia.
Qed.

Lemma block_of_slot nF s t u :
  0 < nF ->
  t * nF <= s < (t + 1) * nF -> u * nF <= s < (u + 1) * nF -> t = u.
Proof. intros. nia. Qed.

Lemma partitioned_when_threads_fit asserts nF nOS nCPUS l :
  1 <= nF -> nOS <= nCPUS -> nCPUS < uint32_modulus ->
  nF * nOS < size_t_modulus ->
  fiber_pool asserts nF nOS nCPUS = inr l -> slots_partitioned l.
Proof.
  intros HnF Hle HnC Hprod Hl.
  destruct (fiber_pool_layout _ _ _ _ _ Hl) as (HnOS & _ & Hn & Hsp).
  rewrite wrap_size_t_small in Hn by nia.
  assert (Hown : forall t s, Z.of_nat t < nOS ->
            In s (nth t (owned l) []) <->
            Z.of_nat t * nF <= s < (Z.of_nat t + 1) * nF).
  { intros t s Ht. apply (owns_own_block nF nOS nCPUS); trivial; lia. }
  assert (Hout : forall t s, nOS <= Z.of_nat t -> ~ In s (nth t (owned l) [])).
  { intros t s Ht. apply (owns_nothing_beyond _ _ _ _ _ _ Hsp).
    rewrite length_loop_range. lia. }
  assert (Hin : forall t s, owns l t s ->
            Z.of_nat t < nOS /\ Z.of_nat t * nF <= s < (Z.of_nat t + 1) * nF).
  { intros t s Hts. destruct (Z_lt_le_dec (Z.of_nat t) nOS) as [Ht|Ht].
    - split; [trivial|]. now apply Hown.
    - now apply Hout in Hts. }
  assert (Hhome : forall s, 0 <= s < nF * nOS -> owns l (Z.to_nat (s / nF)) s).
  { intros s Hs.
    assert (0 <= s / nF < nOS).
    { split; [apply Z.div_pos; lia|apply Z.div_lt_upper_bound; lia]. }
    apply Hown; [lia|]. rewrite Z2Nat.id by lia.
    pose proof (Z.mul_div_le s nF). pose proof (Z.mul_succ_div_gt s nF). lia. }
  split; [|split].
  - intros t u s Htu Ht Hu. apply Hin in Ht, Hu.
    apply Htu, Nat2Z.inj, (block_of_slot nF s); lia.
  - intros s. rewrite Hn. split.
    + intros [t Ht]. apply Hin in Ht. nia.
    + intros Hs. eauto.
  - intros s Hs. rewrite Hn in Hs.
    exists (Z.to_nat (s / nF)). split; [now apply Hhome|].
    intros u Hu. apply Hin in Hu. specialize (Hhome s Hs). apply Hin in Hhome.
    apply Nat2Z.inj, (block_of_slot nF s); lia.
Qed.

(** With more threads than processors, threads [0] and [nCPUS] are both
    handed index [0] and so both own slot [0]. *)
Lemma shared_slot_when_threads_exceed asserts nF nOS nCPUS l :
  1 <= nF -> 0 <= nCPUS < nOS -> nCPUS < uint32_modulus ->
  nF * nOS < size_t_modulus ->
  fiber_pool asserts nF nOS nCPUS = inr l ->
  owns l 0 0 /\ owns l (Z.to_nat nCPUS) 0 /\ (0 <> Z.to_nat nCPUS)%nat.
Proof.
  intros HnF HnC HnC32 Hprod Hl.
  destruct (fiber_pool_layout _ _ _ _ _ Hl) as (HnOS & Hnz & _ & Hsp).
  assert (Hz : In 0 (os_thread nF 0)) by (apply in_os_thread; nia).
  unfold owns.
  rewrite (spawned_slots nF nOS nCPUS _ 0%nat) by (trivial; lia).
  rewrite (spawned_slots nF nOS nCPUS _ (Z.to_nat nCPUS)) by (trivial; lia).
  rewrite Z2Nat.id, Z.mod_same, Z.mod_0_l by lia.
  repeat split; trivial. lia.
Qed.

(** C9. For a pool of at least two OS threads and at least one fiber per
    thread (sizes that fit [std::size_t]): construction yields fiber-slot
    blocks [idx * nFibersPerThread, (idx + 1) * nFibersPerThread) that are
    pairwise disjoint, cover all [nFibersPerThread * nOSThreads] slots and give
    every slot exactly one launching and joining thread if and only if
    [nOSThreads <= hardware_concurrency()]: the constructor passes
    [i % hardware_concurrency()], not [i]. *)
Theorem fiber_slots_partitioned_iff_threads_fit (asserts : bool) (nF nOS nCPUS : Z) :
  1 <= nF -> 2 <= nOS < uint32_modulus -> 0 <= nCPUS < uint32_modulus ->
  nF * nOS < size_t_modulus ->
  (exists l, fiber_pool asserts nF nOS nCPUS = inr l /\ slots_partitioned l)
  <-> nOS <= nCPUS.
Proof.
  intros HnF HnOS HnC Hprod. split.
  - intros (l & Hl & Hpart). destruct Hpart as (Hdisj & _).
    destruct (Z_le_gt_dec nOS nCPUS) as [|Hgt]; trivial.
    destruct (shared_slot_when_threads_exceed asserts nF nOS nCPUS l)
      as (H0 & H1 & Hne); trivial; try lia.
    exfalso. exact (Hdisj _ _ _ Hne H0 H1).
  - intros Hle.
    destruct (spawn_defined nF nCPUS (loop_range 0 nOS)) as [o Ho]; [lia|].
    assert (Hl : fiber_pool asserts nF nOS nCPUS
                 = inr {| n_slots := wrap_size_t (nF * nOS); owned := o |}).
    { unfold fiber_pool.
      destruct (Z.ltb_spec 1 nOS); [|lia]. rewrite andb_false_r.
      destruct (Z.ltb_spec nOS 2); [lia|]. now rewrite Ho. }
    eexists. split; [exact Hl|].
    apply (partitioned_when_threads_fit asserts nF nOS nCPUS); trivial; lia.
Qed.

(** Four OS threads of sixteen fibers on an eight-processor machine. *)
Lemma fiber_slots_partitioned_4x16 :
  (exists l, fiber_pool true 16 4 8 = inr l /\ slots_partitioned l) <-> 4 <= 8.
Proof.
  apply (fiber_slots_partitioned_iff_threads_fit true 16 4 8);
    unfold uint32_modulus, size_t_modulus; lia.
Defined.

(** ** Shutdown *)

Lemma shutdown_first joins p :
  m_done p = false ->
  shutdown joins p =
  ({| m_done := true;
      m_threads := fst (fst (join_threads joins 0 (m_threads p))) |},
   notify_all :: snd (fst (join_threads joins 0 (m_threads p))),
   snd (join_threads joins 0 (m_threads p))).
Proof.
  intros Hd. unfold shutdown. rewrite Hd. simpl.
  now destruct (join_threads joins 0 (m_threads p)) as [[ts tr] ended].
Qed.

(** A call that finds [m_done] set changes no field, notifies nobody, joins
    nobody and returns. *)
Lemma shutdown_again joins p :
  m_done p = true -> shutdown joins p = (p, [], true).
Proof.
  intros Hd. unfold shutdown. rewrite Hd. simpl.
  destruct p as [d ts]. simpl in Hd. now subst.
Qed.

(** Two calls, every join of the first returning: the first sets [m_done],
    notifies and joins; the second changes nothing; the pool is [Stopped]. *)
Lemma shutdown_twice joins (p : pool) :
  m_done p = false ->
  (forall t, joins t = join_returns) ->
  let '(p1, trace1, returned1) := shutdown joins p in
  let '(p2, trace2, returned2) := shutdown joins p1 in
  returned1 = true /\ m_done p1 = true /\ In notify_all trace1
  /\ returned2 = true /\ p2 = p1 /\ trace2 = []
  /\ pool_state p2 = Stopped.
Proof.
  intros Hdone Hjoins. rewrite (shutdown_first joins p Hdone).
  rewrite shutdown_again by reflexivity.
  assert (Hends : forall t ts,
            existsb (fun j => j) (fst (fst (join_threads joins t ts))) = false
            /\ snd (join_threads joins t ts) = true).
  { intros t ts. revert t. induction ts as [|joinable ts IH]; intros t; [now split|].
    cbn [join_threads]. rewrite Hjoins. destruct (IH (S t)) as [Hnone Htrue].
    destruct (join_threads joins (S t) ts) as [[rest tr] ended].
    now destruct joinable. }
  destruct (Hends 0%nat (m_threads p)) as [Hnone Htrue].
  repeat split; trivial; try (simpl; tauto).
  unfold pool_state. cbn [m_done m_threads]. now rewrite Hnone.
Qed.

(** ** The slots that are launched *)

(** X15. Whatever the number of processors, the slots some [os_thread]
    launches a fiber into and joins are the first
    [min(nOSThreads, nCPUS) * nFibersPerThread] slots of [m_fibers]: no
    [os_thread] indexes [m_fibers] out of bounds, and when there are more
    threads than processors the slots from [nCPUS * nFibersPerThread] on
    never hold a fiber. *)
Theorem launched_slots_within_bounds (asserts : bool) (nF nOS nCPUS : Z) (l : layout) :
  0 <= nF -> nOS < uint32_modulus -> 0 <= nCPUS < uint32_modulus ->
  nF * nOS < size_t_modulus ->
  fiber_pool asserts nF nOS nCPUS = inr l ->
  (forall s, (exists t, owns l t s) <-> 0 <= s < Z.min nOS nCPUS * nF)
  /\ Z.min nOS nCPUS * nF <= n_slots l.
Proof.
  intros HnF HnOS HnCPUS Hsize Hpool.
  destruct (fiber_pool_layout _ _ _ _ _ Hpool) as (Hos & Hcpus & Hslots & Hspawn).
  assert (Hmin : 0 <= Z.min nOS nCPUS <= nOS) by lia.
  split.
  - intros s. unfold owns. split.
    + intros (t & Hin).
      assert (Ht : Z.of_nat t < nOS).
      { destruct (Z.lt_ge_cases (Z.of_nat t) nOS) as [Hlt|Hge]; trivial.
        exfalso. revert Hin. apply (owns_nothing_beyond _ _ _ _ _ _ Hspawn).
        rewrite length_loop_range. lia. }
      rewrite (spawned_slots nF nOS nCPUS _ t) in Hin by (trivial; lia).
      pose proof (Z.mod_pos_bound (Z.of_nat t) nCPUS ltac:(lia)) as Hmod.
      assert (Hle : Z.of_nat t mod nCPUS <= Z.of_nat t) by (apply Z.mod_le; lia).
      apply in_os_thread in Hin; [nia|lia|lia|nia].
    + intros Hs.
      assert (HnFpos : 0 < nF) by nia.
      exists (Z.to_nat (s / nF)).
      assert (Hq : 0 <= s / nF < Z.min nOS nCPUS).
      { split; [apply Z.div_pos; lia|]. apply Z.div_lt_upper_bound; nia. }
      rewrite (spawned_slots nF nOS nCPUS _ _ ltac:(lia) Hspawn) by lia.
      rewrite Z2Nat.id by lia. rewrite Z.mod_small by lia.
      apply in_os_thread; [lia|lia|nia|].
      pose proof (Z.mul_div_le s nF HnFpos).
      pose proof (Z.mul_succ_div_gt s nF HnFpos). nia.
  - rewrite Hslots, wrap_size_t_small by nia. nia.
Qed.

(** ** The joins of [shutdown] *)

Lemma joinable_shift (t : nat) (joinable : bool) (ts : list bool)
  (f : nat -> bool -> bool) :
  map (fun k => f k (nth (k - t) (joinable :: ts) false)) (seq (S t) (length ts))
  = map (fun k => f k (nth (k - S t) ts false)) (seq (S t) (length ts)).
Proof.
  apply map_ext_in. intros k Hk. apply in_seq in Hk.
  replace (k - t)%nat with (S (k - S t)) by lia. reflexivity.
Qed.

Lemma joinable_filter_shift (t : nat) (joinable : bool) (ts : list bool) :
  filter (fun k => nth (k - t) (joinable :: ts) false) (seq (S t) (length ts))
  = filter (fun k => nth (k - S t) ts false) (seq (S t) (length ts)).
Proof.
  apply filter_ext_in. intros k Hk. apply in_seq in Hk.
  replace (k - t)%nat with (S (k - S t)) by lia. reflexivity.
Qed.

Lemma filter_none {A : Type} (f : A -> bool) (l : list A) :
  (forall x, In x l -> f x = false) -> filter f l = [].
Proof.
  induction l as [|x l IH]; intros Hf; trivial. cbn [filter].
  rewrite (Hf x (or_introl eq_refl)). apply IH. intros y Hy. apply Hf. now right.
Qed.

Lemma flags_unchanged (t : nat) (ts : list bool) :
  map (fun k => nth (k - t) ts false) (seq t (length ts)) = ts.
Proof.
  revert t. induction ts as [|joinable ts IH]; intros t; trivial.
  cbn [length seq map]. rewrite Nat.sub_diag. cbn [nth]. f_equal.
  rewrite <- (IH (S t)) at 2. apply map_ext_in. intros k Hk. apply in_seq in Hk.
  replace (k - t)%nat with (S (k - S t)) by lia. reflexivity.
Qed.

(** When no join blocks, the loop comes to its end. *)
Lemma join_threads_ends joins (t : nat) (ts : list bool) :
  (forall u, In u (filter (fun k => nth (k - t) ts false) (seq t (length ts))) ->
             joins u <> join_blocks) ->
  join_threads joins t ts
  = (map (fun k => nth (k - t) ts false && Specification.throws (joins k))
         (seq t (length ts)),
     map join (filter (fun k => nth (k - t) ts false) (seq t (length ts))),
     true).
Proof.
  revert t. induction ts as [|joinable ts IH]; intros t Hjoins; trivial.
  cbn [join_threads length seq filter map] in Hjoins |- *.
  rewrite joinable_filter_shift in Hjoins |- *.
  rewrite (joinable_shift t joinable ts
             (fun k b => b && Specification.throws (joins k))).
  rewrite Nat.sub_diag in Hjoins |- *.
  change (nth 0 (joinable :: ts) false) with joinable in Hjoins |- *.
  rewrite IH.
  - destruct joinable; [|reflexivity].
    specialize (Hjoins t (or_introl eq_refl)).
    now destruct (joins t).
  - intros u Hu. apply Hjoins. destruct joinable; [now right|trivial].
Qed.

(** When the join of thread [b] is the first that blocks, the loop stops
    there. *)
Lemma join_threads_blocks joins (t : nat) (ts : list bool) (b : nat) :
  In b (filter (fun k => nth (k - t) ts false) (seq t (length ts))) ->
  joins b = join_blocks ->
  (forall u, In u (filter (fun k => nth (k - t) ts false) (seq t (length ts))) ->
             (u < b)%nat -> joins u <> join_blocks) ->
  join_threads joins t ts
  = (map (fun k => nth (k - t) ts false
                   && ((b <=? k)%nat || Specification.throws (joins k)))
         (seq t (length ts)),
     map join (filter (fun k => (k <=? b)%nat)
                      (filter (fun k => nth (k - t) ts false) (seq t (length ts)))),
     false).
Proof.
  revert t. induction ts as [|joinable ts IH]; intros t Hb Hblocks Hbefore;
    [destruct Hb|].
  assert (Htb : (t <= b)%nat).
  { apply filter_In in Hb. destruct Hb as [Hb _]. apply in_seq in Hb. lia. }
  cbn [join_threads length seq filter map] in Hb, Hbefore |- *.
  rewrite joinable_filter_shift in Hb, Hbefore |- *.
  rewrite (joinable_shift t joinable ts
             (fun k f => f && ((b <=? k)%nat || Specification.throws (joins k)))).
  rewrite Nat.sub_diag in Hb, Hbefore |- *.
  change (nth 0 (joinable :: ts) false) with joinable in Hb, Hbefore |- *.
  destruct (Nat.eq_dec t b) as [->|Hne].
  - assert (Hjoinable : joinable = true).
    { destruct joinable; trivial. apply filter_In in Hb. destruct Hb as [Hb _].
      apply in_seq in Hb. lia. }
    subst joinable. rewrite Hblocks. cbn [filter]. rewrite Nat.leb_refl.
    cbn [andb orb map].
    assert (Hflags : map (fun k => nth (k - S b) ts false
                                   && ((b <=? k)%nat || Specification.throws (joins k)))
                         (seq (S b) (length ts)) = ts).
    { rewrite <- (flags_unchanged (S b) ts) at 2. apply map_ext_in.
      intros k Hk. apply in_seq in Hk.
      destruct (Nat.leb_spec b k); [|lia]. now rewrite andb_true_r. }
    assert (Hnone : filter (fun k => (k <=? b)%nat)
                           (filter (fun k => nth (k - S b) ts false)
                                   (seq (S b) (length ts))) = []).
    { apply filter_none. intros k Hk. apply filter_In in Hk.
      destruct Hk as [Hk _]. apply in_seq in Hk.
      destruct (Nat.leb_spec k b); [lia|reflexivity]. }
    now rewrite Hflags, Hnone.
  - assert (Hb' : In b (filter (fun k => nth (k - S t) ts false)
                               (seq (S t) (length ts)))).
    { destruct joinable; trivial. destruct Hb as [Hb|Hb]; [contradiction|trivial]. }
    rewrite (IH (S t) Hb' Hblocks).
    + destruct (Nat.leb_spec b t); [lia|]. destruct (Nat.leb_spec t b); [|lia].
      destruct joinable; cbn [filter andb orb map]; [|reflexivity].
      destruct (Nat.leb_spec t b); [|lia].
      specialize (Hbefore t (or_introl eq_refl) ltac:(lia)).
      now destruct (joins t).
    + intros u Hu. apply Hbefore. destruct joinable; [now right|trivial].
Qed.

(** X16. The first [shutdown] (and so the destructor) calls [notify_all]
    once and then joins the joinable threads, each once, in the order of
    [m_threads]; a thread that is not joinable is never joined.  When every
    join ends, the call returns and leaves joinable exactly the threads whose
    join threw.  When the join of thread [b] is the first that does not end,
    the call does not return: the threads after [b] are never joined, and
    [b] and the joinable threads after it stay joinable. *)
Theorem shutdown_joins_each_joinable_thread_once (joins : nat -> join_result)
  (p : pool) :
  m_done p = false ->
  ((forall t, In t (Specification.joinable_indices (m_threads p)) ->
              joins t <> join_blocks) ->
   shutdown joins p
   = ({| m_done := true;
         m_threads :=
           map (fun t => nth t (m_threads p) false
                         && match joins t with join_throws => true | _ => false end)
               (seq 0 (length (m_threads p))) |},
      notify_all :: map join (Specification.joinable_indices (m_threads p)),
      true))
  /\ (forall b, In b (Specification.joinable_indices (m_threads p)) ->
        joins b = join_blocks ->
        (forall t, In t (Specification.joinable_indices (m_threads p)) ->
                   (t < b)%nat -> joins t <> join_blocks) ->
        shutdown joins p
        = ({| m_done := true;
              m_threads :=
                map (fun t => nth t (m_threads p) false
                              && ((b <=? t)%nat
                                  || match joins t with
                                     | join_throws => true
                                     | _ => false
                                     end))
                    (seq 0 (length (m_threads p))) |},
           notify_all :: map join (filter (fun t => (t <=? b)%nat)
                                          (Specification.joinable_indices (m_threads p))),
           false)).
Proof.
  intros Hdone. rewrite (shutdown_first joins p Hdone).
  assert (Hidx : Specification.joinable_indices (m_threads p)
                 = filter (fun k => nth (k - 0) (m_threads p) false)
                          (seq 0 (length (m_threads p)))).
  { unfold Specification.joinable_indices. apply filter_ext.
    intros k. now rewrite Nat.sub_0_r. }
  rewrite Hidx. split.
  - intros Hends. rewrite (join_threads_ends joins 0 (m_threads p) Hends).
    cbn [fst snd]. do 3 f_equal. apply map_ext. intros k.
    now rewrite Nat.sub_0_r.
  - intros b Hb Hblocks Hbefore.
    rewrite (join_threads_blocks joins 0 (m_threads p) b Hb Hblocks Hbefore).
    cbn [fst snd]. do 3 f_equal. apply map_ext. intros k.
    now rewrite Nat.sub_0_r.
Qed.

(** ** The default number of threads *)

Lemma loop_range_nonempty (lo hi : Z) : lo < hi -> loop_range lo hi <> [].
Proof.
  intros Hlt Hnil. apply (f_equal (@length Z)) in Hnil.
  rewrite length_loop_range in Hnil. cbn [length] in Hnil. lia.
Qed.

(** X19. A pool constructed with the default [nOSThreads]: when
    [hardware_concurrency()] reports [0] the default wraps around to
    [2^32 - 1], the guard lets it pass and the thread loop takes a remainder
    by zero; with one or two processors the default is below two and the
    constructor refuses it; from three processors on the pool is built with
    [nCPUS - 1] threads, whose slots partition [m_fibers]. *)
Theorem default_thread_count (asserts : bool) (nF nCPUS : Z) :
  (nCPUS = 0 ->
   fiber_pool asserts nF (default_nOSThreads nCPUS) nCPUS = inl undefined_behaviour)
  /\ (1 <= nCPUS <= 2 ->
      fiber_pool asserts nF (default_nOSThreads nCPUS) nCPUS
      = inl (if asserts then assertion_failed else invalid_argument))
  /\ (3 <= nCPUS < uint32_modulus -> 1 <= nF -> nF * (nCPUS - 1) < size_t_modulus ->
      exists l, fiber_pool asserts nF (default_nOSThreads nCPUS) nCPUS = inr l
                /\ n_slots l = nF * (nCPUS - 1)
                /\ slots_partitioned l).
Proof.
  split; [|split].
  - intros ->. unfold default_nOSThreads, fiber_pool.
    assert (Hwrap : wrap32 (0 - 1) = uint32_modulus - 1) by reflexivity.
    rewrite Hwrap.
    assert (Hbig : 2 <= uint32_modulus - 1) by (unfold uint32_modulus; lia).
    destruct (Z.ltb_spec 1 (uint32_modulus - 1)); [|lia].
    destruct (Z.ltb_spec (uint32_modulus - 1) 2); [lia|].
    rewrite andb_false_r.
    rewrite spawn_undefined; trivial. apply loop_range_nonempty. lia.
  - intros Hcpus. unfold default_nOSThreads, fiber_pool.
    rewrite wrap32_small by (unfold uint32_modulus; lia).
    destruct (Z.ltb_spec 1 (nCPUS - 1)); [lia|].
    destruct (Z.ltb_spec (nCPUS - 1) 2); [|lia].
    now destruct asserts.
  - intros Hcpus HnF Hsize. unfold default_nOSThreads.
    rewrite wrap32_small by lia.
    destruct (spawn_defined nF nCPUS (loop_range 0 (nCPUS - 1)) ltac:(lia)) as (o & Ho).
    assert (Hpool : fiber_pool asserts nF (nCPUS - 1) nCPUS
                    = inr {| n_slots := wrap_size_t (nF * (nCPUS - 1)); owned := o |}).
    { unfold fiber_pool.
      destruct (Z.ltb_spec 1 (nCPUS - 1)); [|lia].
      destruct (Z.ltb_spec (nCPUS - 1) 2); [lia|].
      rewrite andb_false_r. now rewrite Ho. }
    eexists. split; [exact Hpool|]. split.
    + cbn [n_slots]. apply wrap_size_t_small. nia.
    + apply (partitioned_when_threads_fit asserts nF (nCPUS - 1) nCPUS); trivial; lia.
Qed.

End FiberPoolFacts.

(* ===================================================================== *)
(** * Facts about the fiber pool's threads against [shutdown] *)
(* ===================================================================== *)

Module ShutdownRaceFacts.
Import ShutdownRace.

Lemma nth_error_move_other (threads : list thread_pc) (t u : nat) (pc : thread_pc) :
  t <> u -> nth_error (move threads t pc) u = nth_error threads u.
Proof.
  revert t u. induction threads as [|pc0 threads IH]; intros [|t] [|u] Hne;
    simpl; trivial; try congruence.
  apply IH. congruence.
Qed.

(** A step of one thread leaves the caller of [shutdown] and the other
    threads where they stand. *)
Lemma os_thread_frame (self : pool) (u : nat) :
  m_done (os_thread self u) = m_done self
  /\ caller (os_thread self u) = caller self
  /\ forall t, u <> t ->
       nth_error (m_threads (os_thread self u)) t = nth_error (m_threads self) t.
Proof.
  unfold os_thread.
  destruct (nth_error (m_threads self) u) as [[]|]; try destruct (m_mtx self);
    simpl; repeat split; trivial; intros t Hne; now apply nth_error_move_other.
Qed.

(** No thread but [notify_all] takes a thread off the wait queue. *)
Lemma os_thread_suspended (self : pool) (u t : nat) :
  nth_error (m_threads self) t = Some suspended ->
  nth_error (m_threads (os_thread self u)) t = Some suspended.
Proof.
  intros Ht. destruct (Nat.eq_dec u t) as [->|Hne].
  - unfold os_thread. now rewrite Ht.
  - destruct (os_thread_frame self u) as (_ & _ & Hframe). now rewrite Hframe.
Qed.

(** While [shutdown] is in the join of a suspended thread, whatever runs
    next leaves it there, short of a spurious wake-up. *)
Lemma join_of_suspended_thread_blocks (t : nat) (schedule : list action) (self : pool) :
  (forall u, ~ In (spurious_wakeup u) schedule) ->
  caller self = at_join t ->
  nth_error (m_threads self) t = Some suspended ->
  caller (run schedule self) = at_join t
  /\ nth_error (m_threads (run schedule self)) t = Some suspended.
Proof.
  unfold run. revert self.
  induction schedule as [|a schedule IH]; intros self Hnone Hcaller Ht; [now split|].
  cbn [fold_left].
  assert (Hrest : forall u, ~ In (spurious_wakeup u) schedule)
    by (intros u Hu; apply (Hnone u); now right).
  apply IH; trivial.
  - destruct a as [u| |u]; cbn [step].
    + destruct (os_thread_frame self u) as (_ & Hc & _). now rewrite Hc.
    + unfold shutdown. now rewrite Hcaller, Ht.
    + exfalso. apply (Hnone u). now left.
  - destruct a as [u| |u]; cbn [step].
    + now apply os_thread_suspended.
    + unfold shutdown. now rewrite Hcaller, Ht.
    + exfalso. apply (Hnone u). now left.
Qed.

Lemma wake_spuriously_frame (self : pool) (u : nat) :
  m_done (wake_spuriously self u) = m_done self
  /\ caller (wake_spuriously self u) = caller self
  /\ forall t, nth_error (m_threads self) t = Some finished ->
       nth_error (m_threads (wake_spuriously self u)) t = Some finished.
Proof.
  unfold wake_spuriously.
  destruct (nth_error (m_threads self) u) as [[]|] eqn:Hu; simpl; repeat split;
    trivial.
  intros t Ht. destruct (Nat.eq_dec u t) as [->|Hne]; [congruence|].
  now rewrite nth_error_move_other.
Qed.

(** A thread that has finished stays so. *)
Lemma os_thread_finished (self : pool) (u t : nat) :
  nth_error (m_threads self) t = Some finished ->
  nth_error (m_threads (os_thread self u)) t = Some finished.
Proof.
  intros Ht. destruct (Nat.eq_dec u t) as [->|Hne].
  - unfold os_thread. now rewrite Ht.
  - destruct (os_thread_frame self u) as (_ & _ & Hframe). now rewrite Hframe.
Qed.

Lemma wake_finished (threads : list thread_pc) (t : nat) :
  nth_error threads t = Some finished ->
  nth_error (map wake threads) t = Some finished.
Proof. intros Ht. now rewrite nth_error_map, Ht. Qed.

(** How far the first call of [shutdown] has come: [m_done] is set from the
    [compare_exchange_strong] on, the threads before the one being joined
    have finished, and once the call has returned all have. *)
Lemma shutdown_progress (n : nat) (schedule : list action) :
  let self := run schedule (constructed n) in
  match caller self with
  | at_compare_exchange => m_done self = false
  | at_notify_all => m_done self = true
  | at_join k =>
      m_done self = true
      /\ forall t, (t < k)%nat -> nth_error (m_threads self) t = Some finished
  | returned =>
      m_done self = true
      /\ forall t, (t < length (m_threads self))%nat ->
                   nth_error (m_threads self) t = Some finished
  end.
Proof.
  unfold run.
  assert (Hstart : m_done (constructed n) = false) by reflexivity.
  revert Hstart.
  change (m_done (constructed n) = false)
    with (match caller (constructed n) with
          | at_compare_exchange => m_done (constructed n) = false
          | at_notify_all => m_done (constructed n) = true
          | at_join k =>
              m_done (constructed n) = true
              /\ forall t, (t < k)%nat ->
                   nth_error (m_threads (constructed n)) t = Some finished
          | returned =>
              m_done (constructed n) = true
              /\ forall t, (t < length (m_threads (constructed n)))%nat ->
                   nth_error (m_threads (constructed n)) t = Some finished
          end).
  generalize (constructed n) as self.
  induction schedule as [|a schedule IH]; intros self Hinv; [exact Hinv|].
  cbn [fold_left]. apply IH. clear IH. destruct a as [u| |u]; cbn [step].
  - destruct (os_thread_frame self u) as (Hd & Hc & Hframe). rewrite Hc, Hd.
    destruct (caller self) as [| |k|]; trivial.
    + destruct Hinv as [Hdone Hk]. split; trivial.
      intros t Ht. apply os_thread_finished. now apply Hk.
    + destruct Hinv as [Hdone Hall]. split; trivial.
      assert (Hsame : os_thread self u = self).
      { unfold os_thread.
        destruct (nth_error (m_threads self) u) as [pc|] eqn:Hu; trivial.
        assert (Hlt : (u < length (m_threads self))%nat)
          by (apply nth_error_Some; congruence).
        rewrite (Hall u Hlt) in Hu. now injection Hu as <-. }
      now rewrite Hsame.
  - unfold shutdown. destruct (caller self) as [| |k|] eqn:Hcaller.
    + rewrite Hinv. reflexivity.
    + cbn [caller m_done m_threads]. split; trivial. intros t Ht. lia.
    + destruct Hinv as [Hdone Hk].
      destruct (nth_error (m_threads self) k) as [pc|] eqn:Hpc.
      * destruct pc; try (rewrite Hcaller; now split).
        cbn [caller m_done m_threads]. split; trivial. intros t Ht.
        destruct (Nat.eq_dec t k) as [->|Hne]; trivial. apply Hk. lia.
      * cbn [caller m_done m_threads]. split; trivial. intros t Ht.
        apply Hk. apply nth_error_None in Hpc. lia.
    + now rewrite Hcaller.
  - destruct (wake_spuriously_frame self u) as (Hd & Hc & Hframe). rewrite Hc, Hd.
    destruct (caller self) as [| |k|]; trivial.
    + destruct Hinv as [Hdone Hk]. split; trivial.
      intros t Ht. apply Hframe. now apply Hk.
    + destruct Hinv as [Hdone Hall]. split; trivial.
      assert (Hsame : wake_spuriously self u = self).
      { unfold wake_spuriously.
        destruct (nth_error (m_threads self) u) as [pc|] eqn:Hu; trivial.
        assert (Hlt : (u < length (m_threads self))%nat)
          by (apply nth_error_Some; congruence).
        rewrite (Hall u Hlt) in Hu. now injection Hu as <-. }
      now rewrite Hsame.
Qed.

(** ** A run on which [shutdown] returns *)

Lemma nth_error_middle (before after : list thread_pc) (pc : thread_pc) :
  nth_error (before ++ pc :: after) (length before) = Some pc.
Proof. rewrite nth_error_app2, Nat.sub_diag by lia. reflexivity. Qed.

Lemma move_middle (before after : list thread_pc) (pc pc' : thread_pc) :
  move (before ++ pc :: after) (length before) pc' = before ++ pc' :: after.
Proof. induction before as [|pc0 before IH]; simpl; [reflexivity|now rewrite IH]. Qed.

(** A thread that finds [m_mtx] free and [m_done] clear goes to wait in
    three steps. *)
Lemma thread_goes_to_wait (before after : list thread_pc) (c : shutdown_pc) :
  let t := length before in
  os_thread (os_thread (os_thread
    {| m_done := false; m_mtx := None;
       m_threads := before ++ at_lock :: after; caller := c |} t) t) t
  = {| m_done := false; m_mtx := None;
       m_threads := before ++ suspended :: after; caller := c |}.
Proof.
  intros t. subst t. unfold os_thread at 3. cbn [m_threads m_mtx m_done caller].
  rewrite nth_error_middle, move_middle.
  unfold os_thread at 2. cbn [m_threads m_mtx m_done caller].
  rewrite nth_error_middle, move_middle.
  unfold os_thread. cbn [m_threads m_mtx m_done caller].
  now rewrite nth_error_middle, move_middle.
Qed.

(** A notified thread that finds [m_mtx] free and [m_done] set finishes in
    three steps. *)
Lemma notified_thread_finishes (before after : list thread_pc) (c : shutdown_pc) :
  let t := length before in
  os_thread (os_thread (os_thread
    {| m_done := true; m_mtx := None;
       m_threads := before ++ notified :: after; caller := c |} t) t) t
  = {| m_done := true; m_mtx := None;
       m_threads := before ++ finished :: after; caller := c |}.
Proof.
  intros t. subst t. unfold os_thread at 3. cbn [m_threads m_mtx m_done caller].
  rewrite nth_error_middle, move_middle.
  unfold os_thread at 2. cbn [m_threads m_mtx m_done caller].
  rewrite nth_error_middle, move_middle.
  unfold os_thread. cbn [m_threads m_mtx m_done caller].
  now rewrite nth_error_middle, move_middle.
Qed.

Lemma repeat_snoc (pc : thread_pc) (k : nat) (after : list thread_pc) :
  repeat pc k ++ pc :: after = repeat pc (S k) ++ after.
Proof. induction k as [|k IH]; simpl; [reflexivity|now rewrite IH]. Qed.

Lemma threads_go_to_wait (c : shutdown_pc) (m k : nat) :
  run (Specification.three_steps_each k m)
      {| m_done := false; m_mtx := None;
         m_threads := repeat suspended k ++ repeat at_lock m; caller := c |}
  = {| m_done := false; m_mtx := None;
       m_threads := repeat suspended (k + m); caller := c |}.
Proof.
  unfold run, Specification.three_steps_each. revert k.
  induction m as [|m IH]; intros k.
  - cbn. now rewrite app_nil_r, Nat.add_0_r.
  - cbn [seq flat_map app fold_left step repeat].
    pose proof (thread_goes_to_wait (repeat suspended k) (repeat at_lock m) c) as Hk.
    cbv zeta in Hk. rewrite repeat_length in Hk. rewrite Hk.
    rewrite repeat_snoc, IH. do 2 f_equal. lia.
Qed.

Lemma notified_threads_finish (c : shutdown_pc) (m k : nat) :
  run (Specification.three_steps_each k m)
      {| m_done := true; m_mtx := None;
         m_threads := repeat finished k ++ repeat notified m; caller := c |}
  = {| m_done := true; m_mtx := None;
       m_threads := repeat finished (k + m); caller := c |}.
Proof.
  unfold run, Specification.three_steps_each. revert k.
  induction m as [|m IH]; intros k.
  - cbn. now rewrite app_nil_r, Nat.add_0_r.
  - cbn [seq flat_map app fold_left step repeat].
    pose proof (notified_thread_finishes (repeat finished k) (repeat notified m) c) as Hk.
    cbv zeta in Hk. rewrite repeat_length in Hk. rewrite Hk.
    rewrite repeat_snoc, IH. do 2 f_equal. lia.
Qed.

Lemma nth_error_repeat_finished (n t : nat) :
  nth_error (repeat finished n) t = if (t <? n)%nat then Some finished else None.
Proof.
  revert t. induction n as [|n IH]; intros [|t]; trivial. simpl. apply IH.
Qed.

Lemma joins_of_finished_threads (n m : nat) :
  (m <= n)%nat ->
  run (repeat run_shutdown (S m))
      {| m_done := true; m_mtx := None; m_threads := repeat finished n;
         caller := at_join (n - m) |}
  = {| m_done := true; m_mtx := None; m_threads := repeat finished n;
       caller := returned |}.
Proof.
  unfold run. induction m as [|m IH]; intros Hm.
  - cbn [repeat fold_left step]. unfold shutdown. cbn [caller m_threads m_done m_mtx].
    rewrite nth_error_repeat_finished.
    destruct (Nat.ltb_spec (n - 0) n); [lia|reflexivity].
  - cbn [repeat fold_left step]. unfold shutdown at 2.
    cbn [caller m_threads m_done m_mtx].
    rewrite nth_error_repeat_finished.
    destruct (Nat.ltb_spec (n - S m) n); [|lia].
    replace (S (n - S m)) with (n - m)%nat by lia.
    apply IH. lia.
Qed.

(** When every thread is waiting as [shutdown] is called, the call
    returns. *)
Lemma shutdown_returns_when_threads_wait_first (n : nat) :
  run (Specification.threads_wait_first n) (constructed n)
  = {| m_done := true; m_mtx := None; m_threads := repeat finished n;
       caller := returned |}.
Proof.
  unfold Specification.threads_wait_first, run. rewrite !fold_left_app.
  pose proof (threads_go_to_wait at_compare_exchange n 0) as Hwait.
  unfold run in Hwait. cbn [repeat app Nat.add] in Hwait.
  unfold constructed. rewrite Hwait.
  cbn [fold_left step shutdown caller m_done m_mtx m_threads
       FiberPool.compare_exchange_strong Bool.eqb].
  rewrite map_repeat. cbn [wake].
  pose proof (notified_threads_finish (at_join 0) n 0) as Hfinish.
  unfold run in Hfinish. cbn [repeat app Nat.add] in Hfinish. rewrite Hfinish.
  pose proof (joins_of_finished_threads n n (le_n n)) as Hjoins.
  unfold run in Hjoins. now rewrite Nat.sub_diag in Hjoins.
Qed.

(** C4. The first [shutdown] swaps [m_done] from [false] to [true] and
    notifies the shutdown condition; when it returns, [m_done] is set and
    every thread has finished, which is what happens when every thread is
    waiting as it is called; and a call that finds [m_done] set returns at
    once, changing nothing.  But the first call can block for ever: when a
    thread has found [m_done] clear and has not yet entered the wait as
    [shutdown] sets [m_done] and notifies (without [m_mtx]), the notification
    finds nobody waiting, the thread then suspends itself, and whatever runs
    next, short of a spurious wake-up, leaves the thread suspended and
    [shutdown] in the join of that thread. *)
Theorem shutdown_can_block_forever (n : nat) :
  let lost_wakeup :=
    [run_thread 0; run_thread 0; run_shutdown; run_shutdown; run_thread 0] in
  let self := run lost_wakeup (constructed (S n)) in
  self = {| m_done := true; m_mtx := None;
            m_threads := suspended :: repeat at_lock n;
            caller := at_join 0 |}
  /\ (forall schedule,
        (forall t, ~ In (spurious_wakeup t) schedule) ->
        caller (run schedule self) = at_join 0
        /\ nth_error (m_threads (run schedule self)) 0 = Some suspended)
  /\ (forall schedule,
        caller (run schedule (constructed (S n))) = returned ->
        m_done (run schedule (constructed (S n))) = true
        /\ Forall (fun pc => pc = finished)
                  (m_threads (run schedule (constructed (S n)))))
  /\ caller (run (Specification.threads_wait_first (S n)) (constructed (S n)))
     = returned
  /\ (forall p, m_done p = true ->
        shutdown (call_shutdown p)
        = {| m_done := m_done p; m_mtx := m_mtx p; m_threads := m_threads p;
             caller := returned |}).
Proof.
  intros lost_wakeup self.
  assert (Hself : self = {| m_done := true; m_mtx := None;
                            m_threads := suspended :: repeat at_lock n;
                            caller := at_join 0 |}).
  { subst self lost_wakeup. unfold run, constructed.
    cbn [fold_left step os_thread shutdown repeat nth_error move m_threads m_mtx
         m_done caller FiberPool.compare_exchange_strong Bool.eqb map wake].
    now rewrite map_repeat. }
  split; [exact Hself|]. split; [|split; [|split]].
  - intros schedule Hnone.
    apply join_of_suspended_thread_blocks; trivial; now rewrite Hself.
  - intros schedule Hreturned.
    pose proof (shutdown_progress (S n) schedule) as Hprogress. cbv zeta in Hprogress.
    rewrite Hreturned in Hprogress. destruct Hprogress as [Hdone Hall].
    split; trivial. apply Forall_forall. intros pc Hin.
    apply In_nth_error in Hin. destruct Hin as [t Ht].
    assert (Hlt : (t < length (m_threads (run schedule (constructed (S n)))))%nat)
      by (apply nth_error_Some; congruence).
    specialize (Hall t Hlt). congruence.
  - now rewrite shutdown_returns_when_threads_wait_first.
  - intros p Hdone. unfold shutdown, call_shutdown. cbn [caller m_done].
    now rewrite Hdone.
Qed.

End ShutdownRaceFacts.

(* ===================================================================== *)
(** * Facts about the fiber pool's tasks *)
(* ===================================================================== *)

Module TaskFacts.
Import FiberPoolTasks Specification.

Section Tasks.
Context {function_wrapper : Type}.
Implicit Types (q : queue_type function_wrapper) (pc : worker_pc function_wrapper)
  (fibers : list (worker_pc function_wrapper)) (self : pool_tasks function_wrapper)
  (a : action function_wrapper) (schedule : list (action function_wrapper)).

(** ** No task is lost or run twice *)

Lemma worker_fiber_conserves done q pc :
  let '(pc', q', ran) := worker_fiber done q pc in
  in_flight [pc] ++ q = ran_by ran ++ in_flight [pc'] ++ q'.
Proof.
  destruct pc as [| |task| |]; simpl; trivial.
  - now destruct done.
  - now destruct q.
Qed.

Lemma in_flight_cons pc fibers :
  in_flight (pc :: fibers) = in_flight [pc] ++ in_flight fibers.
Proof. unfold in_flight. simpl. now rewrite app_nil_r. Qed.

Lemma resume_fiber_conserves done q fibers i :
  let '(fibers', q', ran) := resume_fiber done q fibers i in
  Permutation (in_flight fibers ++ q) (ran_by ran ++ in_flight fibers' ++ q').
Proof.
  revert i. induction fibers as [|pc fibers IH]; intros i; [simpl; reflexivity|].
  destruct i as [|i]; cbn [resume_fiber].
  - pose proof (worker_fiber_conserves done q pc) as Hpc.
    destruct (worker_fiber done q pc) as [[pc' q'] ran].
    rewrite (in_flight_cons pc), (in_flight_cons pc').
    rewrite <- !app_assoc.
    transitivity (in_flight fibers ++ in_flight [pc] ++ q);
      [apply Permutation_app_swap_app|].
    rewrite Hpc.
    rewrite (app_assoc (ran_by ran) (in_flight [pc']) q').
    rewrite (app_assoc (ran_by ran) (in_flight [pc']) (in_flight fibers ++ q')).
    apply Permutation_app_swap_app.
  - specialize (IH i). destruct (resume_fiber done q fibers i) as [[fibers' q'] ran].
    rewrite (in_flight_cons pc fibers), (in_flight_cons pc fibers').
    rewrite <- !app_assoc.
    transitivity (in_flight [pc] ++ ran_by ran ++ in_flight fibers' ++ q');
      [now apply Permutation_app_head|].
    apply Permutation_app_swap_app.
Qed.

Lemma step_conserves self a :
  Permutation (sent [a] ++ in_flight (m_fibers self) ++ m_tasks self)
              (ran_by (snd (step self a))
               ++ in_flight (m_fibers (fst (step self a)))
               ++ m_tasks (fst (step self a))).
Proof.
  destruct a as [m| |i]; simpl.
  - unfold push. rewrite app_assoc.
    change (m :: in_flight (m_fibers self) ++ m_tasks self)
      with ([m] ++ (in_flight (m_fibers self) ++ m_tasks self)).
    apply Permutation_app_comm.
  - reflexivity.
  - pose proof (resume_fiber_conserves (m_done self) (m_tasks self) (m_fibers self) i)
      as Hresume.
    now destruct (resume_fiber _ _ _ i) as [[fibers' q'] ran].
Qed.

Lemma run_cons a schedule self :
  run (a :: schedule) self
  = (fst (run schedule (fst (step self a))),
     ran_by (snd (step self a)) ++ snd (run schedule (fst (step self a)))).
Proof.
  cbn [run]. destruct (step self a) as [self' ran]. cbn [fst snd].
  destruct (run schedule self') as [final later]. now destruct ran.
Qed.

Lemma sent_cons a schedule : sent (a :: schedule) = sent [a] ++ sent schedule.
Proof. unfold sent. simpl. now rewrite app_nil_r. Qed.

Lemma run_conserves schedule self :
  Permutation (sent schedule ++ in_flight (m_fibers self) ++ m_tasks self)
              (snd (run schedule self)
               ++ in_flight (m_fibers (fst (run schedule self)))
               ++ m_tasks (fst (run schedule self))).
Proof.
  revert self. induction schedule as [|a schedule IH]; intros self; [reflexivity|].
  rewrite run_cons, sent_cons. cbn [fst snd]. rewrite <- !app_assoc.
  transitivity (sent schedule ++ sent [a] ++ in_flight (m_fibers self) ++ m_tasks self);
    [apply Permutation_app_swap_app|].
  rewrite (step_conserves self a).
  transitivity (ran_by (snd (step self a))
                ++ sent schedule ++ in_flight (m_fibers (fst (step self a)))
                ++ m_tasks (fst (step self a)));
    [apply Permutation_app_swap_app|].
  apply Permutation_app_head, IH.
Qed.

(** X17. However the fibers, the sending clients and [shutdown] interleave,
    the tasks sent to a pool are, counted with multiplicity, the tasks that
    were run, those a fiber has popped and not yet run, and those still in
    [m_tasks]: no task is run twice, dropped or made up. *)
Theorem sent_tasks_are_conserved (n_fibers : nat) schedule :
  let '(final, ran) := run schedule (started n_fibers) in
  Permutation (sent schedule) (ran ++ in_flight (m_fibers final) ++ m_tasks final).
Proof.
  pose proof (run_conserves schedule (started n_fibers)) as Hrun.
  destruct (run schedule (started n_fibers)) as [final ran].
  cbn [fst snd] in Hrun. rewrite <- Hrun.
  assert (Hidle : in_flight (m_fibers (@started function_wrapper n_fibers)) = []).
  { unfold started, in_flight. cbn [m_fibers]. clear Hrun.
    induction n_fibers; simpl; trivial. }
  rewrite Hidle. cbn [started m_tasks]. now rewrite !app_nil_r.
Qed.

(** ** After [m_done] is set *)

Lemma committed_cons pc fibers :
  committed (pc :: fibers) = (committed [pc] + committed fibers)%nat.
Proof. unfold committed. simpl. now destruct pc. Qed.

Lemma worker_fiber_after_done q pc :
  let '(pc', _, ran) := worker_fiber true q pc in
  (length (ran_by ran) + committed [pc'] <= committed [pc])%nat.
Proof.
  destruct pc as [| |task| |]; try destruct q; unfold committed; simpl; lia.
Qed.

Lemma resume_fiber_after_done q fibers i :
  let '(fibers', _, ran) := resume_fiber true q fibers i in
  (length (ran_by ran) + committed fibers' <= committed fibers)%nat.
Proof.
  revert i. induction fibers as [|pc fibers IH]; intros i; [simpl; lia|].
  destruct i as [|i]; cbn [resume_fiber].
  - pose proof (worker_fiber_after_done q pc) as Hpc.
    destruct (worker_fiber true q pc) as [[pc' q'] ran].
    rewrite (committed_cons pc), (committed_cons pc'). lia.
  - specialize (IH i). destruct (resume_fiber true q fibers i) as [[fibers' q'] ran].
    rewrite (committed_cons pc fibers), (committed_cons pc fibers'). lia.
Qed.

Lemma step_after_done self a :
  m_done self = true ->
  m_done (fst (step self a)) = true
  /\ (length (ran_by (snd (step self a))) + committed (m_fibers (fst (step self a)))
      <= committed (m_fibers self))%nat.
Proof.
  intros Hdone. destruct a as [m| |i]; simpl; try (split; [trivial|lia]).
  rewrite Hdone.
  pose proof (resume_fiber_after_done (m_tasks self) (m_fibers self) i) as Hresume.
  destruct (resume_fiber true _ _ i) as [[fibers' q'] ran]. now split.
Qed.

Lemma run_after_done schedule self :
  m_done self = true ->
  m_done (fst (run schedule self)) = true
  /\ (length (snd (run schedule self)) + committed (m_fibers (fst (run schedule self)))
      <= committed (m_fibers self))%nat.
Proof.
  revert self. induction schedule as [|a schedule IH]; intros self Hdone.
  - simpl. split; [trivial|lia].
  - rewrite run_cons. cbn [fst snd].
    destruct (step_after_done self a Hdone) as [Hdone' Hle].
    destruct (IH _ Hdone') as [Hfinal Hle'].
    split; trivial. rewrite length_app. lia.
Qed.

Lemma worker_fiber_idle done q pc :
  committed [pc] = 0%nat -> snd (fst (worker_fiber done q pc)) = q.
Proof.
  destruct pc; unfold committed; simpl; trivial; try discriminate.
Qed.

Lemma resume_fiber_idle done q fibers i :
  committed fibers = 0%nat -> snd (fst (resume_fiber done q fibers i)) = q.
Proof.
  revert i. induction fibers as [|pc fibers IH]; intros i; trivial.
  rewrite committed_cons. intros Hidle.
  destruct i as [|i]; cbn [resume_fiber].
  - pose proof (worker_fiber_idle done q pc ltac:(lia)) as Hq.
    now destruct (worker_fiber done q pc) as [[pc' q'] ran].
  - specialize (IH i ltac:(lia)).
    now destruct (resume_fiber done q fibers i) as [[fibers' q'] ran].
Qed.

Lemma step_idle self a :
  committed (m_fibers self) = 0%nat ->
  m_tasks (fst (step self a)) = m_tasks self ++ sent [a].
Proof.
  intros Hidle. destruct a as [m| |i]; simpl; trivial; try now rewrite app_nil_r.
  pose proof (resume_fiber_idle (m_done self) (m_tasks self) (m_fibers self) i Hidle)
    as Hq.
  destruct (resume_fiber _ _ _ i) as [[fibers' q'] ran]. simpl in *.
  now rewrite app_nil_r.
Qed.

Lemma run_idle schedule self :
  m_done self = true -> committed (m_fibers self) = 0%nat ->
  m_tasks (fst (run schedule self)) = m_tasks self ++ sent schedule.
Proof.
  revert self. induction schedule as [|a schedule IH]; intros self Hdone Hidle.
  - simpl. now rewrite app_nil_r.
  - rewrite run_cons, sent_cons. cbn [fst].
    destruct (step_after_done self a Hdone) as [Hdone' Hle].
    rewrite IH by (trivial; lia).
    now rewrite (step_idle self a Hidle), <- app_assoc.
Qed.

(** X18. Once [m_done] is set it stays set, and from then on the pool runs
    at most one task per fiber that is already past its loop test; when no
    fiber is (all have returned, say) no task runs any more, while [send]
    goes on accepting tasks, which stay in [m_tasks] for good. *)
Theorem at_most_one_task_per_fiber_after_shutdown schedule self :
  m_done self = true ->
  let '(final, ran) := run schedule self in
  m_done final = true
  /\ (length ran <= committed (m_fibers self))%nat
  /\ (committed (m_fibers self) = 0%nat ->
      ran = [] /\ m_tasks final = m_tasks self ++ sent schedule).
Proof.
  intros Hdone. destruct (run_after_done schedule self Hdone) as [Hfinal Hle].
  pose proof (run_idle schedule self Hdone) as Hqueue.
  destruct (run schedule self) as [final ran]. cbn [fst snd] in *.
  split; trivial. split; [lia|].
  intros Hidle. split; [|now apply Hqueue].
  destruct ran; trivial. simpl in Hle. lia.
Qed.

End Tasks.
End TaskFacts.

(* ===================================================================== *)
(** * Facts about [double] arithmetic *)
(* ===================================================================== *)

(** Sums and quotients of values that are not negative, read off the
    kernel's specification of IEEE-754 binary64. *)
Module FloatFacts.
Import Specification.

Abbreviation fexp := (SpecFloat.fexp prec emax).
Abbreviation emin := (SpecFloat.emin prec emax).

(** ** Rounding *)

Lemma digits2_pos_bounds (m : positive) :
  2 ^ (Z.pos (digits2_pos m) - 1) <= Z.pos m < 2 ^ Z.pos (digits2_pos m).
Proof.
  induction m as [m IH|m IH|]; cbn [digits2_pos].
  - rewrite Pos2Z.inj_succ, (Pos2Z.inj_xI m).
    replace (Z.succ (Z.pos (digits2_pos m)) - 1) with (Z.succ (Z.pos (digits2_pos m) - 1)) by lia.
    rewrite !Z.pow_succ_r by lia.
    set (a := 2 ^ (Z.pos (digits2_pos m) - 1)) in *.
    set (b := 2 ^ Z.pos (digits2_pos m)) in *. lia.
  - rewrite Pos2Z.inj_succ, (Pos2Z.inj_xO m).
    replace (Z.succ (Z.pos (digits2_pos m)) - 1) with (Z.succ (Z.pos (digits2_pos m) - 1)) by lia.
    rewrite !Z.pow_succ_r by lia.
    set (a := 2 ^ (Z.pos (digits2_pos m) - 1)) in *.
    set (b := 2 ^ Z.pos (digits2_pos m)) in *. lia.
  - vm_compute. split; [discriminate|reflexivity].
Qed.

Lemma iter_xO (m d : positive) : Z.pos (Pos.iter xO m d) = Z.pos m * 2 ^ Z.pos d.
Proof.
  induction d as [|d IH] using Pos.peano_ind.
  - simpl. lia.
  - rewrite Pos.iter_succ, Pos2Z.inj_xO, IH, Pos2Z.inj_succ, Z.pow_succ_r by lia. lia.
Qed.

(** [shl_align] towards a smaller exponent keeps the value. *)
Lemma shl_align_spec (m : positive) (e e' : Z) :
  let '(m', e'') := shl_align m e e' in
  e'' = Z.min e e' /\ Z.pos m' = Z.pos m * 2 ^ (e - e'').
Proof.
  unfold shl_align. destruct (e' - e) as [|d|d] eqn:Hd.
  - split; [lia|]. replace (e - e) with 0 by lia. simpl. lia.
  - split; [lia|]. replace (e - e) with 0 by lia. simpl. lia.
  - split; [lia|]. rewrite iter_xO. f_equal. f_equal. lia.
Qed.

Lemma shr_1_m (mrs : shr_record) :
  0 <= shr_m mrs -> shr_m (shr_1 mrs) = shr_m mrs / 2 /\ 0 <= shr_m (shr_1 mrs).
Proof.
  destruct mrs as [m r s]. cbn [shr_m]. intros Hm.
  destruct m as [|[p|p|]|p]; cbn [shr_1 shr_m]; try lia.
  - split; [reflexivity|lia].
  - split; [|lia].
    apply Z.div_unique with 1; [lia|]. rewrite (Pos2Z.inj_xI p). lia.
  - split; [|lia].
    apply Z.div_unique with 0; [lia|]. rewrite (Pos2Z.inj_xO p). lia.
  - split; [reflexivity|lia].
Qed.

Lemma pow2_xO (p : positive) : 2 ^ Z.pos p~0 = 2 ^ Z.pos p * 2 ^ Z.pos p.
Proof.
  replace (Z.pos p~0) with (Z.pos p + Z.pos p) by lia.
  apply Z.pow_add_r; lia.
Qed.

Lemma pow2_xI (p : positive) : 2 ^ Z.pos p~1 = 2 * (2 ^ Z.pos p * 2 ^ Z.pos p).
Proof.
  replace (Z.pos p~1) with (Z.succ (Z.pos p + Z.pos p)) by lia.
  rewrite Z.pow_succ_r, Z.pow_add_r by lia. reflexivity.
Qed.

Lemma iter_shr_1_m (p : positive) (mrs : shr_record) :
  0 <= shr_m mrs ->
  shr_m (iter_pos shr_1 p mrs) = shr_m mrs / 2 ^ Z.pos p
  /\ 0 <= shr_m (iter_pos shr_1 p mrs).
Proof.
  revert mrs. induction p as [p IH|p IH|]; intros mrs Hm; cbn [iter_pos].
  - destruct (shr_1_m mrs Hm) as [H1 H1'].
    destruct (IH _ H1') as [H2 H2']. destruct (IH _ H2') as [H3 H3'].
    split; trivial. rewrite H3, H2, H1.
    assert (0 < 2 ^ Z.pos p) by (apply Z.pow_pos_nonneg; lia).
    rewrite !Z.div_div by lia. now rewrite pow2_xI.
  - destruct (IH _ Hm) as [H2 H2']. destruct (IH _ H2') as [H3 H3'].
    split; trivial. rewrite H3, H2.
    assert (0 < 2 ^ Z.pos p) by (apply Z.pow_pos_nonneg; lia).
    rewrite !Z.div_div by lia. now rewrite pow2_xO.
  - destruct (shr_1_m mrs Hm) as [H1 H1']. split; trivial.
Qed.

(** The mantissa and the exponent [shr_fexp] leaves. *)
Lemma shr_fexp_m (m e : Z) (l : location) :
  0 <= m ->
  let E := fexp (Zdigits2 m + e) in
  let '(mrs, e') := shr_fexp prec emax m e l in
  e' = Z.max e E /\ shr_m mrs = m / 2 ^ (e' - e) /\ 0 <= shr_m mrs.
Proof.
  intros Hm E. unfold shr_fexp, shr. fold E.
  assert (Hrec : shr_m (shr_record_of_loc m l) = m) by (destruct l as [|[]]; reflexivity).
  destruct (E - e) as [|n|n] eqn:Hn.
  - split; [lia|]. replace (e - e) with 0 by lia. rewrite Hrec, Z.div_1_r. split; lia.
  - destruct (iter_shr_1_m n (shr_record_of_loc m l)) as [H1 H2]; [rewrite Hrec; lia|].
    split; [lia|]. split; trivial. rewrite H1, Hrec. f_equal. f_equal. lia.
  - split; [lia|]. replace (e - e) with 0 by lia. rewrite Hrec, Z.div_1_r. split; lia.
Qed.

Lemma round_nearest_even_bounds (m : Z) (l : location) :
  m <= round_nearest_even m l <= m + 1.
Proof.
  destruct l as [|[]]; simpl; try lia. destruct (Z.even m); lia.
Qed.


Lemma digits2_pos_iter_xO (m d : positive) :
  Z.pos (digits2_pos (Pos.iter xO m d)) = Z.pos (digits2_pos m) + Z.pos d.
Proof.
  induction d as [|d IH] using Pos.peano_ind.
  - simpl. lia.
  - rewrite Pos.iter_succ. cbn [digits2_pos]. rewrite Pos2Z.inj_succ, IH. lia.
Qed.

Lemma shl_align_digits (m : positive) (e e' : Z) :
  Z.pos (digits2_pos (fst (shl_align m e e'))) + snd (shl_align m e e')
  = Z.pos (digits2_pos m) + e.
Proof.
  unfold shl_align. destruct (e' - e) as [|d|d] eqn:Hd; cbn [fst snd]; trivial.
  rewrite digits2_pos_iter_xO. lia.
Qed.

Lemma fexp_mono (a b : Z) : a <= b -> fexp a <= fexp b.
Proof. unfold SpecFloat.fexp. lia. Qed.

Lemma fexp_emin (a : Z) : emin <= fexp a.
Proof. unfold SpecFloat.fexp. lia. Qed.

(** A mantissa shifted right by fewer places than it has digits stays
    positive. *)
Lemma div_pow2_positive (m : positive) (k : Z) :
  0 <= k < Z.pos (digits2_pos m) -> 1 <= Z.pos m / 2 ^ k.
Proof.
  intros Hk. destruct (digits2_pos_bounds m) as [Hlow _].
  assert (Hpow : 2 ^ k <= 2 ^ (Z.pos (digits2_pos m) - 1))
    by (apply Z.pow_le_mono_r; lia).
  apply Z.div_le_lower_bound; [apply Z.pow_pos_nonneg; lia|lia].
Qed.

Lemma binary_round_aux_sign (sx : bool) (mx ex : Z) (lx : location) :
  match binary_round_aux prec emax sx mx ex lx with
  | S754_zero s | S754_infinity s | S754_finite s _ _ => s = sx
  | S754_nan => True
  end.
Proof.
  unfold binary_round_aux.
  destruct (shr_fexp prec emax mx ex lx) as [mrs' e'].
  destruct (shr_fexp prec emax _ e' loc_Exact) as [mrs'' e''].
  destruct (shr_m mrs''); trivial.
  now destruct (e'' <=? emax - prec).
Qed.

(** Rounding a positive multiple of [2^ez], [emin <= ez]: the result is
    infinite, or finite with an exponent not below the target exponent and,
    when it is the target exponent, a mantissa not below the truncated one. *)
Lemma binary_round_lower (M : positive) (ez : Z) :
  emin <= ez ->
  let E := fexp (Z.pos (digits2_pos M) + ez) in
  binary_round prec emax false M ez = S754_infinity false
  \/ exists m3 e3,
       binary_round prec emax false M ez = S754_finite false m3 e3
       /\ E <= e3 /\ (e3 = E -> Z.pos M / 2 ^ (E - ez) <= Z.pos m3).
Proof.
  intros Hez E. unfold binary_round. fold E.
  pose proof (shl_align_spec M ez E) as Hal.
  pose proof (shl_align_digits M ez E) as Hdig.
  destruct (shl_align M ez E) as [mz e1]. cbn [fst snd] in Hdig.
  destruct Hal as [He1 Hmz].
  unfold binary_round_aux.
  pose proof (shr_fexp_m (Z.pos mz) e1 loc_Exact ltac:(lia)) as H1. cbv zeta in H1.
  destruct (shr_fexp prec emax (Z.pos mz) e1 loc_Exact) as [mrs1 e1'].
  destruct H1 as (He1' & Hm1 & _).
  change (Zdigits2 (Z.pos mz)) with (Z.pos (digits2_pos mz)) in He1'.
  rewrite Hdig in He1'. fold E in He1'.
  assert (HE : e1' = E) by lia. clear He1'. subst e1'.
  assert (Hm1ge : 1 <= shr_m mrs1).
  { rewrite Hm1. destruct (Z.eq_dec e1 E) as [Heq|Hne].
    - replace (E - e1) with 0 by lia. rewrite Z.pow_0_r, Z.div_1_r. lia.
    - apply div_pow2_positive.
      unfold E, SpecFloat.fexp, SpecFloat.emin, prec, emax in *. lia. }
  pose proof (round_nearest_even_bounds (shr_m mrs1) (loc_of_shr_record mrs1)) as Hr.
  destruct (round_nearest_even (shr_m mrs1) (loc_of_shr_record mrs1)) as [|p2|p2] eqn:Hp2;
    try lia.
  pose proof (shr_fexp_m (Z.pos p2) E loc_Exact ltac:(lia)) as H2. cbv zeta in H2.
  destruct (shr_fexp prec emax (Z.pos p2) E loc_Exact) as [mrs2 e3].
  destruct H2 as (He3 & Hm3 & _).
  change (Zdigits2 (Z.pos p2)) with (Z.pos (digits2_pos p2)) in He3.
  assert (HEmin : emin <= E) by apply fexp_emin.
  assert (Hm3ge : 1 <= shr_m mrs2).
  { rewrite Hm3. destruct (Z.eq_dec e3 E) as [Heq|Hne].
    - replace (e3 - E) with 0 by lia. rewrite Z.pow_0_r, Z.div_1_r. lia.
    - apply div_pow2_positive.
      unfold SpecFloat.fexp, SpecFloat.emin, prec, emax in *. lia. }
  destruct (shr_m mrs2) as [|m3|m3] eqn:Hm3'; try lia.
  destruct (e3 <=? emax - prec); [|now left].
  right. exists m3, e3. split; [reflexivity|]. split; [lia|].
  intros Heq. clear He3. subst e3. replace (E - E) with 0 in Hm3 by lia.
  rewrite Z.pow_0_r, Z.div_1_r in Hm3. rewrite Hm3.
  apply Z.le_trans with (shr_m mrs1); [|lia].
  rewrite Hm1. destruct (Z.eq_dec e1 ez) as [Hez1|Hez1].
  - rewrite Hez1 in Hmz |- *. rewrite Z.sub_diag, Z.pow_0_r, Z.mul_1_r in Hmz.
    rewrite Hmz. lia.
  - assert (Hneg : E - ez < 0) by lia.
    rewrite (Z.pow_neg_r 2 (E - ez)) by lia.
    rewrite Z.div_0_r. apply Z.div_pos; [lia|]. apply Z.pow_pos_nonneg; lia.
Qed.


(** ** Sums and quotients of values that are not negative *)

Lemma valid_finite (s : bool) (m : positive) (e : Z) :
  valid_binary (S754_finite s m e) = true ->
  fexp (Z.pos (digits2_pos m) + e) = e.
Proof.
  cbn [valid_binary]. unfold bounded, canonical_mantissa. intros Hv.
  apply andb_prop in Hv. destruct Hv as [Hc _].
  now apply Z.eqb_eq in Hc.
Qed.

Lemma SFadd_sign_clear (a w : spec_float) :
  sign_clear a -> SFltb w (S754_zero false) = false -> sign_clear (SFadd prec emax a w).
Proof.
  destruct a as [[]|[]| |[] ma ea], w as [[]|[]| |[] mw ew];
    cbn; trivial; try contradiction; try discriminate.
  intros _ _.
  pose proof (binary_round_aux_sign false) as Hs.
  unfold binary_normalize.
  destruct (shl_align ma ea (Z.min ea ew)) as [a1 e1].
  destruct (shl_align mw ew (Z.min ea ew)) as [a2 e2]. cbn [fst cond_Zopp Z.add].
  unfold binary_round.
  destruct (shl_align _ _ _) as [mz ez].
  specialize (Hs (Z.pos mz) ez loc_Exact).
  now destruct (binary_round_aux prec emax false (Z.pos mz) ez loc_Exact) as [[]|[]| |[] m e].
Qed.

Lemma SFdiv_not_negative (w s : spec_float) :
  SFltb w (S754_zero false) = false -> sign_clear s ->
  SFltb (SFdiv prec emax w s) (S754_zero false) = false.
Proof.
  destruct w as [[]|[]| |[] mw ew], s as [[]|[]| |[] ms es];
    cbn; trivial; try contradiction; try discriminate.
  intros _ _.
  destruct (SFdiv_core_binary prec emax (Z.pos mw) ew (Z.pos ms) es) as [[mz ez] lz].
  pose proof (binary_round_aux_sign false mz ez lz) as Hs.
  now destruct (binary_round_aux prec emax false mz ez lz) as [[]|[]| |[] m e].
Qed.

Lemma SFadd_nan (a q : spec_float) :
  SFadd prec emax a q <> S754_nan -> a <> S754_nan /\ q <> S754_nan.
Proof.
  destruct a as [[]|[]| |[] ma ea], q as [[]|[]| |[] mq eq]; cbn; intros H;
    split; congruence.
Qed.

(** Adding a value that is not negative does not go below the sum so far. *)
Lemma SFadd_not_below (a q : spec_float) :
  valid_binary a = true -> valid_binary q = true ->
  sign_clear a -> a <> S754_nan ->
  SFltb q (S754_zero false) = false -> q <> S754_nan ->
  SFleb a (SFadd prec emax a q) = true.
Proof.
  intros Hva Hvq Ha Hna Hq Hnq.
  destruct a as [[]|[]| |[] ma ea]; try contradiction; try congruence;
    destruct q as [[]|[]| |[] mq eq]; try discriminate; try congruence;
    try reflexivity.
  - cbn. unfold SFleb. cbn. rewrite Z.compare_refl.
    change (Pos.compare_cont Eq) with Pos.compare. now rewrite Pos.compare_refl.
  - cbn. unfold SFleb. cbn. rewrite Z.compare_refl.
    change (Pos.compare_cont Eq) with Pos.compare. now rewrite Pos.compare_refl.
  - apply valid_finite in Hva, Hvq.
    cbn [SFadd cond_Zopp].
    set (ez := Z.min ea eq).
    pose proof (shl_align_spec ma ea ez) as Ha1.
    pose proof (shl_align_spec mq eq ez) as Hq1.
    destruct (shl_align ma ea ez) as [a1 e1], (shl_align mq eq ez) as [q1 e2].
    cbn [fst Z.add binary_normalize].
    destruct Ha1 as [He1 Ha1], Hq1 as [He2 Hq1].
    assert (He1' : e1 = ez) by lia. clear He1. subst e1.
    assert (Hemin : emin <= ez).
    { pose proof (fexp_emin (Z.pos (digits2_pos ma) + ea)).
      pose proof (fexp_emin (Z.pos (digits2_pos mq) + eq)). lia. }
    assert (Hpow : 0 < 2 ^ (ea - ez)) by (apply Z.pow_pos_nonneg; lia).
    assert (HE : ea <= fexp (Z.pos (digits2_pos (a1 + q1)) + ez)).
    { rewrite <- Hva at 1. apply fexp_mono.
      destruct (digits2_pos_bounds ma) as [Hlow _].
      destruct (digits2_pos_bounds (a1 + q1)) as [_ Hhigh].
      assert (Hlt : 2 ^ (Z.pos (digits2_pos ma) - 1 + (ea - ez))
                    < 2 ^ Z.pos (digits2_pos (a1 + q1))).
      { rewrite Z.pow_add_r by lia.
        apply Z.le_lt_trans with (Z.pos (a1 + q1)); [|lia].
        rewrite Pos2Z.inj_add, Ha1.
        apply Z.le_trans with (Z.pos ma * 2 ^ (ea - ez)); [|lia].
        apply Z.mul_le_mono_nonneg_r; lia. }
      apply Z.pow_lt_mono_r_iff in Hlt; lia. }
    destruct (binary_round_lower (a1 + q1) ez Hemin) as [->|(m3 & e3 & -> & He3 & Hm3)];
      [reflexivity|].
    unfold SFleb. cbn [SFcompare].
    destruct (Z.compare_spec ea e3) as [Heq|Hlt|Hgt]; trivial; [|lia].
    change (Pos.compare_cont Eq) with Pos.compare.
    destruct (Pos.compare_spec ma m3) as [?|?|Hgt]; trivial. exfalso.
    assert (Heq3 : e3 = fexp (Z.pos (digits2_pos (a1 + q1)) + ez)) by lia.
    specialize (Hm3 Heq3). rewrite <- Heq3, <- Heq in Hm3.
    assert (Z.pos ma <= Z.pos (a1 + q1) / 2 ^ (ea - ez)); [|lia].
    apply Z.div_le_lower_bound; trivial.
    rewrite Pos2Z.inj_add, Ha1. lia.
Qed.


(** ** The same on [float] *)

Lemma zero_sign_clear : sign_clear (Prim2SF 0%float).
Proof. exact I. Qed.

Lemma ltb_zero (w : float) :
  (w <? 0)%float = SFltb (Prim2SF w) (S754_zero false).
Proof. now rewrite ltb_spec. Qed.

Lemma add_sign_clear (a w : float) :
  sign_clear (Prim2SF a) -> (w <? 0)%float = false ->
  sign_clear (Prim2SF (a + w)%float).
Proof.
  rewrite ltb_zero, add_spec. apply SFadd_sign_clear.
Qed.

Lemma div_not_negative (w s : float) :
  (w <? 0)%float = false -> sign_clear (Prim2SF s) ->
  (w / s <? 0)%float = false.
Proof.
  rewrite !ltb_zero, div_spec. apply SFdiv_not_negative.
Qed.

Lemma add_not_below (a q : float) :
  sign_clear (Prim2SF a) -> (q <? 0)%float = false ->
  Prim2SF (a + q)%float <> S754_nan ->
  (a <=? a + q)%float = true.
Proof.
  rewrite ltb_zero, leb_spec, add_spec. intros Ha Hq Hnan.
  destruct (SFadd_nan _ _ Hnan) as [Hna Hnq].
  apply SFadd_not_below; trivial; apply Prim2SF_valid.
Qed.

Lemma ltb_not_nan (x u : float) : (x <? u)%float = true -> Prim2SF x <> S754_nan.
Proof. rewrite ltb_spec. intros Hlt Hnan. rewrite Hnan in Hlt. discriminate. Qed.

Lemma leb_not_nan (x y : float) : (x <=? y)%float = true -> Prim2SF x <> S754_nan.
Proof. rewrite leb_spec. intros Hle Hnan. rewrite Hnan in Hle. discriminate. Qed.

(** A product of a value with itself is not negative. *)
Lemma square_not_negative (z : float) : (z * z <? 0)%float = false.
Proof.
  rewrite ltb_zero, mul_spec. unfold SF64mul.
  destruct (Prim2SF z) as [[]|[]| |[] m e]; trivial; cbn [SFmul xorb].
  all: pose proof (binary_round_aux_sign false (Z.pos (m * m)) (e + e) loc_Exact) as Hs.
  all: now destruct (binary_round_aux prec emax false (Z.pos (m * m)) (e + e) loc_Exact)
         as [[]|[]| |[] m' e'].
Qed.

End FloatFacts.

(* ===================================================================== *)
(** * Facts about the standard-library algorithms *)
(* ===================================================================== *)

Module StdFacts.
Import Std Specification.

(** ** The order on [double] *)

Lemma SFleb_SFltb_trans (x y z : spec_float) :
  SFleb x y = true -> SFltb y z = true -> SFltb x z = true.
Proof.
  unfold SFleb, SFltb.
  destruct x as [sx|sx| |sx mx ex], y as [sy|sy| |sy my ey], z as [sz|sz| |sz mz ez];
    simpl; try discriminate;
    try (destruct sx); try (destruct sy); try (destruct sz); simpl; try congruence.
  all: compare_cases.
  all: intros; subst; try lia; try congruence.
Qed.

Lemma SFltb_irrefl (x : spec_float) : SFltb x x = false.
Proof.
  unfold SFltb. destruct x as [[]|[]| |[] m e]; simpl; trivial;
    rewrite Z.compare_refl; change (Pos.compare_cont Eq) with Pos.compare;
    now rewrite Pos.compare_refl.
Qed.

Lemma SFeqb_not_SFltb (x y : spec_float) : SFeqb x y = true -> SFltb y x = false.
Proof.
  unfold SFeqb, SFltb.
  destruct x as [sx|sx| |sx mx ex], y as [sy|sy| |sy my ey];
    simpl; try discriminate;
    try (destruct sx); try (destruct sy); simpl; try congruence.
  all: compare_cases.
  all: intros; subst; try lia; try congruence.
Qed.

Lemma SFleb_trans (x y z : spec_float) :
  SFleb x y = true -> SFleb y z = true -> SFleb x z = true.
Proof.
  unfold SFleb.
  destruct x as [sx|sx| |sx mx ex], y as [sy|sy| |sy my ey], z as [sz|sz| |sz mz ez];
    simpl; try discriminate;
    try (destruct sx); try (destruct sy); try (destruct sz); simpl; try congruence.
  all: compare_cases.
  all: intros; subst; try lia; try congruence.
Qed.

Lemma leb_trans (x y z : float) :
  (x <=? y)%float = true -> (y <=? z)%float = true -> (x <=? z)%float = true.
Proof. rewrite !leb_spec. apply SFleb_trans. Qed.

Lemma leb_ltb_trans (x y z : float) :
  (x <=? y)%float = true -> (y <? z)%float = true -> (x <? z)%float = true.
Proof. rewrite leb_spec, !ltb_spec. apply SFleb_SFltb_trans. Qed.

Lemma ltb_irrefl (x : float) : (x <? x)%float = false.
Proof. rewrite ltb_spec. apply SFltb_irrefl. Qed.

Lemma eqb_not_ltb (x y : float) : (x =? y)%float = true -> (y <? x)%float = false.
Proof. rewrite eqb_spec, ltb_spec. apply SFeqb_not_SFltb. Qed.

(** ** [std::lower_bound] *)

Section LowerBoundFacts.
Context {A : Type} (less : A -> A -> bool) (a : list A) (val : A).

Lemma first_not_less_at_unique (r r' : nat) :
  partitioned less a val ->
  first_not_less_at less a val r -> first_not_less_at less a val r' -> r = r'.
Proof.
  intros Hp (Hr & Hlt & Hge) (Hr' & Hlt' & Hge').
  destruct (Nat.lt_trichotomy r r') as [Hc|[Hc|Hc]]; trivial; exfalso.
  - destruct (nth_error a r) as [x|] eqn:Hx.
    + specialize (Hlt' r x Hc Hx). specialize (Hge x eq_refl). congruence.
    + apply nth_error_None in Hx. lia.
  - destruct (nth_error a r') as [x|] eqn:Hx.
    + specialize (Hlt r' x Hc Hx). specialize (Hge' x eq_refl). congruence.
    + apply nth_error_None in Hx. lia.
Qed.

Lemma lower_bound_from_spec (first len : nat) :
  partitioned less a val ->
  (first + len <= length a)%nat ->
  (forall i x, (i < first)%nat -> nth_error a i = Some x -> less x val = true) ->
  (forall i x, (first + len <= i)%nat -> nth_error a i = Some x -> less x val = false) ->
  first_not_less_at less a val (lower_bound_from less a val first len).
Proof.
  intros Hp. revert first.
  induction len as [len IH] using lt_wf_ind. intros first Hlen Hbelow Habove.
  destruct len as [|l]; simp lower_bound_from.
  - unfold first_not_less_at. repeat split; [lia|exact Hbelow|].
    intros x Hx. apply (Habove first); [lia|trivial].
  - assert (Hhalf : (Nat.div2 (S l) < S l)%nat) by (apply Nat.lt_div2; lia).
    destruct (nth_error a (first + Nat.div2 (S l))) as [middle|] eqn:Hmid;
      cbn -[Nat.div2 Nat.sub].
    + destruct (less middle val) eqn:Hless; cbn -[Nat.div2 Nat.sub];
        set (half := Nat.div2 (S l)) in *; clearbody half.
      * apply IH; try lia.
        -- intros i x Hi Hx.
           apply (Hp i (first + half)%nat x middle); trivial. lia.
        -- intros i x Hi Hx. apply (Habove i); trivial. lia.
      * apply IH; [lia|lia|exact Hbelow|].
        intros i x Hi Hx.
        destruct (less x val) eqn:Hxv; trivial.
        assert (less middle val = true)
          by (apply (Hp (first + half)%nat i middle x); trivial).
        congruence.
    + exfalso. apply nth_error_None in Hmid.
      set (half := Nat.div2 (S l)) in *; clearbody half. lia.
Qed.

Lemma lower_bound_spec :
  partitioned less a val -> first_not_less_at less a val (lower_bound less a val).
Proof.
  intros Hp. unfold lower_bound. apply lower_bound_from_spec; trivial.
  - intros i x Hi. lia.
  - intros i x Hi Hx. simpl in Hi.
    assert (nth_error a i = None) by (apply nth_error_None; lia). congruence.
Qed.

End LowerBoundFacts.

End StdFacts.

(* ===================================================================== *)
(** * Facts about [biased_position_grid]: sampling *)
(* ===================================================================== *)

Module SamplingFacts.
Import Geometry Interfaces Machine MachineFacts Std StdFacts Specification.
Import BiasedPositionGrid.

(** ** Scanning and binary search agree on a sorted array *)

Lemma first_index_reaching_spec (u : float) (a : list float) :
  first_not_less_at PrimFloat.ltb a u (first_index_reaching u a).
Proof.
  unfold first_not_less_at. induction a as [|c a (IHlen & IHlt & IHge)]; simpl.
  - repeat split; [lia|intros; lia|discriminate].
  - destruct (c <? u)%float eqn:Hc.
    + repeat split; [lia| |exact IHge].
      intros [|i] x Hi; simpl; [congruence|]. apply IHlt. lia.
    + repeat split; [lia|intros; lia|]. simpl. congruence.
Qed.

Lemma non_decreasing_partitioned (a : list float) (u : float) :
  non_decreasing a -> partitioned PrimFloat.ltb a u.
Proof.
  intros Hsorted i j x y Hij Hx Hy Hyu.
  destruct (Nat.eq_dec i j) as [->|Hne]; [congruence|].
  apply (leb_ltb_trans x y u); trivial.
  apply (Hsorted i j); trivial. lia.
Qed.

Lemma non_decreasing_check_head (x : float) (a : list float) :
  non_decreasing_check (x :: a) = true ->
  Forall (fun y => (x <=? y)%float = true) a.
Proof.
  revert x. induction a as [|y a IH]; intros x Hc; [constructor|].
  cbn [non_decreasing_check] in Hc. apply andb_prop in Hc. destruct Hc as [Hxy Hc].
  constructor; trivial.
  apply (Forall_impl _ (fun z (Hz : (y <=? z)%float = true) => leb_trans x y z Hxy Hz)).
  now apply IH.
Qed.

Lemma non_decreasing_check_tail (x : float) (a : list float) :
  non_decreasing_check (x :: a) = true -> non_decreasing_check a = true.
Proof.
  destruct a as [|y a]; trivial. cbn [non_decreasing_check].
  intros Hc. now apply andb_prop in Hc.
Qed.

Lemma non_decreasing_check_sound (a : list float) :
  non_decreasing_check a = true -> non_decreasing a.
Proof.
  induction a as [|x a IH]; intros Hc i j u v Hij Hi Hj.
  - destruct i; discriminate.
  - destruct j as [|j]; [lia|]. simpl in Hj.
    destruct i as [|i]; simpl in Hi.
    + injection Hi as <-.
      pose proof (non_decreasing_check_head x a Hc) as Hall.
      rewrite Forall_forall in Hall. apply Hall.
      now apply nth_error_In with j.
    + apply (IH (non_decreasing_check_tail x a Hc) i j); trivial. lia.
Qed.

Lemma lower_bound_first_index (a : list float) (u : float) :
  partitioned PrimFloat.ltb a u ->
  lower_bound PrimFloat.ltb a u = first_index_reaching u a.
Proof.
  intros Hp.
  apply (first_not_less_at_unique PrimFloat.ltb a u); trivial.
  - now apply lower_bound_spec.
  - apply first_index_reaching_spec.
Qed.

(** ** The retry loop *)

Section Retry.
Context {State Point : Type}.
Variables attempt attempt' : State -> failure + Point * State.
Variables reject reject' : Point -> bool.
Hypothesis same_attempt : forall s, attempt s = attempt' s.
Hypothesis same_reject : forall p, reject p = reject' p.

Lemma retry_ext (n : nat) (s : State) :
  retry attempt reject n s = retry attempt' reject' n s.
Proof.
  revert s. induction n as [|n IH]; intros s; simpl; trivial.
  rewrite same_attempt. destruct (attempt' s) as [e|[p s']]; trivial.
  rewrite same_reject. destruct (reject' p); trivial.
Qed.

Lemma all_rejected_ext (n : nat) (s : State) :
  all_rejected attempt reject n s <-> all_rejected attempt' reject' n s.
Proof.
  revert s. induction n as [|n IH]; intros s; simpl; [tauto|].
  rewrite same_attempt. destruct (attempt' s) as [e|[p s']]; [tauto|].
  rewrite same_reject, IH. tauto.
Qed.

(** The result is absent exactly when every attempt is rejected. *)
Lemma retry_absent_iff (n : nat) (s : State) :
  (exists s', retry attempt reject n s = inr (None, s'))
  <-> all_rejected attempt reject n s.
Proof.
  revert s. induction n as [|n IH]; intros s; simpl.
  - split; [trivial|]. intros _. now exists s.
  - destruct (attempt s) as [e|[p s1]].
    + split; [intros [s' Hs']; discriminate|tauto].
    + destruct (reject p).
      * rewrite IH. tauto.
      * split; [intros [s' Hs']; discriminate|intros [Hf _]; discriminate].
Qed.

(** A returned point comes out of an attempt and was not rejected. *)
Lemma retry_some (n : nat) (s : State) (p : Point) (s' : State) :
  retry attempt reject n s = inr (Some p, s') ->
  exists s0, attempt s0 = inr (p, s') /\ reject p = false.
Proof.
  revert s. induction n as [|n IH]; intros s; simpl; [discriminate|].
  destruct (attempt s) as [e|[q s1]] eqn:Hs; [discriminate|].
  destruct (reject q) eqn:Hq.
  - apply IH.
  - intros [= <- <-]. eauto.
Qed.

End Retry.

Section Sampling.
Context {BSP : SolidBSP} {GX : Geometrix} {LM : Libm} {RE : RandomEngine}
        {EO : EvaluationOrder}.
Variable asserts : bool.
Variable self : biased_position_grid.

Lemma rejected_outside_empty_space (p : point2) :
  rejected self p = outside_empty_space self p.
Proof.
  unfold rejected, outside_empty_space.
  now destruct (point_in_solid_space (m_tree self) p).
Qed.

(** The loop body, unrolled once. *)
Lemma sample_loop_unfold (gen : Gen) (maxAttempts : Z) :
  sample_loop asserts self gen maxAttempts =
  match attempt asserts self gen with
  | inl e => loop_failed e
  | inr (p, gen') =>
      if rejected self p then
        if 0 <? wrap32 (maxAttempts - 1)
        then sample_loop asserts self gen' (wrap32 (maxAttempts - 1))
        else loop_done p (wrap32 (maxAttempts - 1)) gen'
      else loop_done p maxAttempts gen'
  end.
Proof.
  simp sample_loop.
  destruct (attempt asserts self gen) as [e|[p gen']]; cbn; trivial.
  destruct (rejected self p); cbn; trivial.
  destruct (Z_lt_dec 0 (wrap32 (maxAttempts - 1))) as [Hpos|Hnpos]; cbn.
  - apply Z.ltb_lt in Hpos. now rewrite Hpos.
  - apply Z.ltb_nlt in Hnpos. now rewrite Hnpos.
Qed.

(** With no stored position every attempt trips the assertion of
    [generate_random], as the one in front of the loop does. *)
Lemma attempt_without_positions (gen : Gen) :
  asserts && empty (m_positions self) = true ->
  attempt asserts self gen = inl assertion_failed.
Proof.
  intros Hempty. apply andb_prop in Hempty. destruct Hempty as [-> Hnil].
  unfold attempt, generate_random.
  destruct (uniform_real_distribution 0%float 1%float gen) as [rT gen1].
  destruct (m_positions self); [|discriminate]. simpl.
  now destruct (lower_bound PrimFloat.ltb (m_integral self) rT).
Qed.

(** [get_random_position], unrolled once. *)
Lemma get_random_position_unfold (gen : Gen) (maxAttempts : Z) :
  get_random_position asserts self gen maxAttempts =
  match attempt asserts self gen with
  | inl e => inl e
  | inr (p, gen') =>
      if rejected self p then
        if 0 <? wrap32 (maxAttempts - 1)
        then get_random_position asserts self gen' (wrap32 (maxAttempts - 1))
        else inr (None, gen')
      else inr (if 0 <? maxAttempts then Some p else None, gen')
  end.
Proof.
  unfold get_random_position.
  destruct (asserts && empty (m_positions self)) eqn:Hempty.
  - now rewrite (attempt_without_positions gen Hempty).
  - rewrite sample_loop_unfold.
    destruct (attempt asserts self gen) as [e|[p gen']]; trivial.
    destruct (rejected self p).
    + destruct (Z.ltb_spec 0 (wrap32 (maxAttempts - 1))) as [Hpos|Hnpos]; trivial.
      destruct (Z.ltb_spec 0 (wrap32 (maxAttempts - 1))); [lia|trivial].
    + now destruct (0 <? maxAttempts).
Qed.

(** Called with a positive cap, the loop is a bounded retry. *)
Lemma get_random_position_retry (n : nat) (gen : Gen) :
  Z.of_nat (S n) < uint32_modulus ->
  get_random_position asserts self gen (Z.of_nat (S n)) =
  retry (attempt asserts self) (rejected self) (S n) gen.
Proof.
  revert gen. induction n as [|n IH]; intros gen Hn;
    rewrite get_random_position_unfold; cbn [retry];
    destruct (attempt asserts self gen) as [e|[p gen']]; trivial.
  replace (Z.of_nat (S (S n)) - 1) with (Z.of_nat (S n)) by lia.
  rewrite wrap32_small by lia.
  destruct (rejected self p).
  - destruct (Z.ltb_spec 0 (Z.of_nat (S n))); [|lia].
    apply IH. lia.
  - destruct (Z.ltb_spec 0 (Z.of_nat (S (S n)))); [trivial|lia].
Qed.

(** The code's attempt is the specification's attempt on a grid whose
    half cell is half the granularity and in whose cumulative array the
    entries below a draw come first. *)
Lemma attempt_is_sampling_attempt (granularity : float) (gen : Gen) :
  m_halfcell self = (0.5 * granularity)%float ->
  (forall u, partitioned PrimFloat.ltb (m_integral self) u) ->
  attempt asserts self gen = sampling_attempt asserts self granularity gen.
Proof.
  intros Hhalf Hsorted. unfold attempt, sampling_attempt, generate_random.
  destruct (uniform_real_distribution 0%float 1%float gen) as [u gen1].
  rewrite (lower_bound_first_index _ _ (Hsorted u)).
  set (i := first_index_reaching u (m_integral self)).
  destruct (nth_error (m_positions self) i) as [[x y]|] eqn:Hi.
  - assert (Hlt : (i < length (m_positions self))%nat)
      by (apply nth_error_Some; congruence).
    apply Nat.ltb_lt in Hlt. rewrite Hlt, andb_false_r.
    destruct (uniform_real_distribution (-1)%float 1%float gen1) as [first gen2].
    destruct (uniform_real_distribution (-1)%float 1%float gen2) as [second gen3].
    rewrite Hhalf. now destruct left_operand_first.
  - apply nth_error_None in Hi. apply Nat.ltb_ge in Hi. rewrite Hi.
    now destruct asserts.
Qed.

(** On such a grid the code is the specification's sampler. *)
Lemma get_random_position_sample_with_retries (granularity : float) (gen : Gen)
  (maxAttempts : Z) :
  m_halfcell self = (0.5 * granularity)%float ->
  (forall u, partitioned PrimFloat.ltb (m_integral self) u) ->
  1 <= maxAttempts < uint32_modulus ->
  get_random_position asserts self gen maxAttempts
  = sample_with_retries asserts self granularity (Z.to_nat maxAttempts) gen.
Proof.
  intros Hhalf Hsorted Hn.
  destruct (Z.to_nat maxAttempts) as [|n] eqn:Hnat; [lia|].
  replace maxAttempts with (Z.of_nat (S n)) by lia.
  rewrite get_random_position_retry by lia.
  apply retry_ext.
  - intros g. now apply attempt_is_sampling_attempt.
  - apply rejected_outside_empty_space.
Qed.

(** C10. With [maxAttempts = 0] the cap is not "no attempt": a first point
    that is accepted is still answered with absent, and a first point that is
    rejected makes the 32-bit decrement wrap to [2^32 - 1], after which the
    loop goes on as a call with that cap would, for up to [2^32 - 1] further
    attempts. *)
Theorem zero_cap_wraps_around (gen : Gen) (p : point2) (gen' : Gen) :
  attempt asserts self gen = inr (p, gen') ->
  (rejected self p = false ->
   get_random_position asserts self gen 0 = inr (None, gen'))
  /\ (rejected self p = true ->
      wrap32 (0 - 1) = 2 ^ 32 - 1
      /\ get_random_position asserts self gen 0
         = get_random_position asserts self gen' (2 ^ 32 - 1)
      /\ get_random_position asserts self gen' (2 ^ 32 - 1)
         = retry (attempt asserts self) (rejected self) (Z.to_nat (2 ^ 32 - 1)) gen').
Proof.
  intros Hattempt. split; intros Hrej.
  - now rewrite get_random_position_unfold, Hattempt, Hrej.
  - assert (Hwrap : wrap32 (0 - 1) = 2 ^ 32 - 1) by reflexivity.
    split; [exact Hwrap|]. split.
    + rewrite get_random_position_unfold, Hattempt, Hrej, Hwrap.
      assert (Hpos : (0 <? 2 ^ 32 - 1) = true) by reflexivity.
      now rewrite Hpos.
    + assert (Hid : Z.of_nat (Z.to_nat (2 ^ 32 - 1)) = 2 ^ 32 - 1)
        by (apply Z2Nat.id; discriminate).
      destruct (Z.to_nat (2 ^ 32 - 1)) as [|n]; [discriminate Hid|].
      rewrite <- Hid.
      apply get_random_position_retry. rewrite Hid. reflexivity.
Qed.

End Sampling.
End SamplingFacts.

(* ===================================================================== *)
(** * Facts about [biased_position_grid]: construction *)
(* ===================================================================== *)

Module ConstructionFacts.
Import Geometry Interfaces Machine MachineFacts Std FloatFacts StdFacts Specification.
Import BiasedPositionGrid SamplingFacts.

(** ** The cumulative array of weights that are not negative *)

Lemma accumulate_sign_clear (range : list float) (init : float) :
  Forall (fun w => (w <? 0)%float = false) range ->
  sign_clear (Prim2SF init) ->
  sign_clear (Prim2SF (accumulate range init)).
Proof.
  unfold accumulate. intros Hrange. revert init.
  induction Hrange as [|w range Hw _ IH]; intros init Hinit; simpl; trivial.
  apply IH. now apply add_sign_clear.
Qed.

(** An entry that is not a NaN is not below the value the loop started
    from. *)
Lemma running_share_not_below (sum last : float) (integral : list float) (x : float) :
  sign_clear (Prim2SF sum) -> sign_clear (Prim2SF last) ->
  Forall (fun w => (w <? 0)%float = false) integral ->
  In x (running_share sum last integral) ->
  Prim2SF x <> S754_nan ->
  (last <=? x)%float = true.
Proof.
  intros Hsum Hlast Hall. revert last Hlast.
  induction Hall as [|w integral Hw _ IH]; intros last Hlast Hin Hnan;
    [destruct Hin|].
  cbn [running_share] in Hin.
  pose proof (div_not_negative w sum Hw Hsum) as Hq.
  destruct Hin as [<-|Hin].
  - now apply add_not_below.
  - pose proof (IH _ (add_sign_clear last _ Hlast Hq) Hin Hnan) as Hle.
    apply (leb_trans last (last + w / sum)%float x); trivial.
    apply add_not_below; trivial. exact (leb_not_nan _ _ Hle).
Qed.

(** In the array [make_integral] leaves, the entries below a value come
    before the others: what [std::lower_bound] asks for. *)
Lemma running_share_partitioned (sum last : float) (integral : list float) (u : float) :
  sign_clear (Prim2SF sum) -> sign_clear (Prim2SF last) ->
  Forall (fun w => (w <? 0)%float = false) integral ->
  partitioned PrimFloat.ltb (running_share sum last integral) u.
Proof.
  intros Hsum Hlast Hall. revert last Hlast.
  induction Hall as [|w integral Hw Hall IH]; intros last Hlast i j x y Hij Hx Hy Hyu.
  - destruct i; discriminate.
  - cbn [running_share] in Hx, Hy.
    pose proof (div_not_negative w sum Hw Hsum) as Hq.
    pose proof (add_sign_clear last _ Hlast Hq) as Hnext.
    destruct i as [|i], j as [|j]; simpl in Hx, Hy; try lia.
    + congruence.
    + injection Hx as <-.
      apply (leb_ltb_trans _ y u); trivial.
      apply (running_share_not_below sum _ integral y); trivial.
      * now apply nth_error_In with j.
      * exact (ltb_not_nan _ _ Hyu).
    + apply (IH _ Hnext i j x y); trivial. lia.
Qed.

Lemma make_integral_partitioned (asserts : bool) (weights integral : list float)
  (u : float) :
  Forall (fun w => (w <? 0)%float = false) weights ->
  make_integral asserts weights = inr integral ->
  partitioned PrimFloat.ltb integral u.
Proof.
  intros Hall. unfold make_integral.
  destruct (asserts && negb _); [discriminate|]. intros [= <-].
  apply running_share_partitioned; trivial.
  - apply accumulate_sign_clear; trivial. exact zero_sign_clear.
  - exact zero_sign_clear.
Qed.

Section Construction.
Context {BSP : SolidBSP} {GX : Geometrix} {LM : Libm} {RE : RandomEngine}
        {EO : EvaluationOrder}.

Lemma classification_eqb_eq (a b : point_in_solid_classification) :
  classification_eqb a b = true -> a = b.
Proof. now destruct a, b. Qed.

Lemma visit_cell_filled tree halfcell m2 bsp wp self c :
  filled tree halfcell m2 bsp self ->
  filled tree halfcell m2 bsp (visit_cell m2 bsp wp self c).
Proof.
  intros [Ht Hh Hp Hl]. unfold visit_cell.
  destruct (admitted self m2 bsp c) eqn:Hadm; [|now split].
  unfold admitted in Hadm. apply andb_prop in Hadm. destruct Hadm as [Hd Hc].
  apply classification_eqb_eq in Hc. rewrite Ht in Hc.
  split; simpl; trivial.
  - apply Forall_app. split; trivial. now repeat constructor.
  - rewrite !length_app. simpl. lia.
Qed.

Lemma generate_points_filled tree halfcell bsp wp self pgon cell minDistance :
  filled tree halfcell (minDistance * minDistance)%float bsp self ->
  filled tree halfcell (minDistance * minDistance)%float bsp
         (generate_points self pgon cell minDistance bsp wp).
Proof.
  unfold generate_points. generalize (cell_centroids pgon cell). intros cells.
  revert self. induction cells as [|c cells IH]; intros self Hf; simpl; trivial.
  apply IH. now apply visit_cell_filled.
Qed.

Lemma collect_points_filled boundary bsp granularity dsat alpha minDistance self :
  collect_points boundary bsp granularity dsat alpha minDistance = inr self ->
  exists segments,
    polygon_collection_as_segment_range boundary = inr segments
    /\ filled (make_solid_bsp2 segments) (0.5 * granularity)%float
              (minDistance * minDistance)%float bsp self.
Proof.
  unfold collect_points.
  destruct (polygon_collection_as_segment_range boundary) as [e|segments];
    [discriminate|].
  intros [= <-]. exists segments. split; trivial.
  set (wp := make_weight_policy dsat alpha).
  set (self0 := {| m_halfcell := (0.5 * granularity)%float; m_positions := [];
                   m_integral := []; m_tree := make_solid_bsp2 segments |}).
  assert (H0 : filled (make_solid_bsp2 segments) (0.5 * granularity)%float
                      (minDistance * minDistance)%float bsp self0)
    by (split; simpl; trivial).
  revert H0. generalize self0. clear self0.
  induction boundary as [|p boundary IH]; intros self0 H0; simpl; trivial.
  apply IH. now apply generate_points_filled.
Qed.

Lemma construct_inr asserts boundary bsp granularity dsat alpha minDistance self :
  construct asserts boundary bsp granularity dsat alpha minDistance = inr self ->
  exists self0 integral,
    collect_points boundary bsp granularity dsat alpha minDistance = inr self0
    /\ make_integral asserts (m_integral self0) = inr integral
    /\ self = {| m_halfcell := m_halfcell self0; m_positions := m_positions self0;
                 m_integral := integral; m_tree := m_tree self0 |}.
Proof.
  unfold construct.
  destruct (collect_points _ _ _ _ _ _) as [e|self0]; [discriminate|].
  destruct (make_integral asserts (m_integral self0)) as [e|integral] eqn:Hmake;
    [discriminate|].
  intros [= <-]. exists self0, integral. repeat split. exact Hmake.
Qed.

Lemma length_running_share sum last integral :
  length (running_share sum last integral) = length integral.
Proof.
  revert last. induction integral as [|w integral IH]; intros last; simpl; trivial.
  now rewrite IH.
Qed.

Lemma visit_cell_weights m2 bsp wp self c :
  m_integral self
  = map (fun c => get_weight wp (get_min_distance_sqrd_to_solid bsp c)) (m_positions self) ->
  m_integral (visit_cell m2 bsp wp self c)
  = map (fun c => get_weight wp (get_min_distance_sqrd_to_solid bsp c))
        (m_positions (visit_cell m2 bsp wp self c)).
Proof.
  intros Hw. unfold visit_cell. destruct (admitted self m2 bsp c); trivial.
  simpl. now rewrite map_app, Hw.
Qed.

Lemma collect_points_weights boundary attractiveBSP
  granularity distanceSaturation attractionFactor minDistance self0 :
  collect_points boundary attractiveBSP granularity distanceSaturation
                 attractionFactor minDistance = inr self0 ->
  m_integral self0
  = map (fun c => get_weight (make_weight_policy distanceSaturation attractionFactor)
                             (get_min_distance_sqrd_to_solid attractiveBSP c))
        (m_positions self0).
Proof.
  unfold collect_points.
  destruct (polygon_collection_as_segment_range boundary) as [e|segments];
    [discriminate|].
  intros [= <-].
  set (wp := make_weight_policy distanceSaturation attractionFactor).
  match goal with |- context [fold_left _ boundary ?s] =>
    assert (H0 : m_integral s
                 = map (fun c => get_weight wp
                                   (get_min_distance_sqrd_to_solid attractiveBSP c))
                       (m_positions s)) by reflexivity;
    revert H0; generalize s
  end.
  induction boundary as [|p boundary IH]; intros self H0; simpl; trivial.
  apply IH. unfold generate_points.
  generalize (cell_centroids p granularity). intros cells. revert self H0.
  induction cells as [|c cells IHc]; intros self H0; simpl; trivial.
  apply IHc. now apply visit_cell_weights.
Qed.

(** X3. Before [make_integral] runs, the weight stored for an admitted
    centroid [c] at squared distance [d2] from the attractive geometry is
    [exp(-attractionFactor * distanceSaturation^2)] when [d2] is below the
    squared saturation distance and [exp(-attractionFactor * d2)]
    otherwise. *)
Theorem collected_weights boundary attractiveBSP
  granularity distanceSaturation attractionFactor minDistance self0 :
  collect_points boundary attractiveBSP granularity distanceSaturation
                 attractionFactor minDistance = inr self0 ->
  m_integral self0
  = map (fun c =>
           let d2 := get_min_distance_sqrd_to_solid attractiveBSP c in
           if (d2 <? distanceSaturation * distanceSaturation)%float
           then exp (- attractionFactor * (distanceSaturation * distanceSaturation))%float
           else exp (- attractionFactor * d2)%float)
        (m_positions self0).
Proof.
  intros Hcol. rewrite (collect_points_weights _ _ _ _ _ _ _ Hcol).
  apply map_ext. intros c. unfold get_weight, make_weight_policy, std_max.
  cbn [BiasedPositionGrid.distanceSaturation BiasedPositionGrid.attractionStrength].
  now destruct (_ <? _)%float.
Qed.

(** Every weight is a value of [exp]. *)
Lemma collect_points_exp boundary attractiveBSP
  granularity distanceSaturation attractionFactor minDistance self0 :
  collect_points boundary attractiveBSP granularity distanceSaturation
                 attractionFactor minDistance = inr self0 ->
  Forall (fun w => exists x, w = exp x) (m_integral self0).
Proof.
  intros Hcol. rewrite (collect_points_weights _ _ _ _ _ _ _ Hcol).
  apply Forall_forall. intros w Hw. apply in_map_iff in Hw.
  destruct Hw as (c & <- & _). unfold get_weight. eauto.
Qed.

(** When [exp] returns no negative value, the cumulative array of a
    constructed grid has the entries below any draw before the others. *)
Lemma construct_partitioned asserts boundary attractiveBSP
  granularity distanceSaturation attractionFactor minDistance self :
  (forall x, (exp x <? 0)%float = false) ->
  construct asserts boundary attractiveBSP granularity distanceSaturation
            attractionFactor minDistance = inr self ->
  forall u, partitioned PrimFloat.ltb (m_integral self) u.
Proof.
  intros Hexp Hc u.
  destruct (construct_inr _ _ _ _ _ _ _ _ Hc) as (self0 & integral & Hcol & Hmake & ->).
  cbn [m_integral]. apply (make_integral_partitioned asserts (m_integral self0)); trivial.
  apply (Forall_impl _ (fun w (Hw : exists x, w = exp x) =>
           match Hw with ex_intro _ x Hx => eq_trans (f_equal (fun v => (v <? 0)%float) Hx) (Hexp x) end)).
  exact (collect_points_exp _ _ _ _ _ _ _ Hcol).
Qed.

(** X1. On a constructed grid [m_tree] is the BSP of the boundary's segments,
    every stored position is classified by it as in empty space, and
    [m_integral] holds one entry per position. *)
Theorem stored_positions_in_empty_space asserts boundary attractiveBSP
  granularity distanceSaturation attractionFactor minDistance self :
  construct asserts boundary attractiveBSP granularity distanceSaturation
            attractionFactor minDistance = inr self ->
  exists segments,
    polygon_collection_as_segment_range boundary = inr segments
    /\ m_tree self = make_solid_bsp2 segments
    /\ Forall (fun c => point_in_solid_space (m_tree self) c = in_empty_space)
              (m_positions self)
    /\ length (m_integral self) = length (m_positions self).
Proof.
  intros Hc.
  destruct (construct_inr _ _ _ _ _ _ _ _ Hc) as (self0 & integral & Hcol & Hmake & ->).
  destruct (collect_points_filled _ _ _ _ _ _ _ Hcol) as (segments & Hseg & [Ht Hh Hp Hl]).
  exists segments. simpl. repeat split; trivial.
  - rewrite Ht. apply (Forall_impl _ (fun c H => proj2 H) Hp).
  - unfold make_integral in Hmake.
    destruct (asserts && negb _); [discriminate|].
    injection Hmake as <-. now rewrite length_running_share.
Qed.

(** A point the sampler returns came out of some attempt and was accepted. *)
Lemma get_random_position_some asserts self gen maxAttempts p gen' :
  0 <= maxAttempts < uint32_modulus ->
  get_random_position asserts self gen maxAttempts = inr (Some p, gen') ->
  exists gen0, attempt asserts self gen0 = inr (p, gen') /\ rejected self p = false.
Proof.
  intros Hm Hget.
  assert (Hpos : forall g m, 1 <= m < uint32_modulus ->
            get_random_position asserts self g m = inr (Some p, gen') ->
            exists gen0, attempt asserts self gen0 = inr (p, gen')
                         /\ rejected self p = false).
  { intros g m Hm1 Hg. pose proof (Z2Nat.id m) as Hid.
    destruct (Z.to_nat m) as [|n]; [lia|].
    rewrite <- Hid in Hg by lia.
    rewrite get_random_position_retry in Hg by lia.
    now apply retry_some in Hg. }
  destruct (Z.eq_dec maxAttempts 0) as [->|Hne]; [|apply (Hpos gen maxAttempts); [lia|trivial]].
  rewrite get_random_position_unfold in Hget.
  destruct (attempt asserts self gen) as [e|[q g1]]; [discriminate|].
  destruct (rejected self q); [|discriminate].
  assert (Hwrap : wrap32 (0 - 1) = 2 ^ 32 - 1) by reflexivity.
  rewrite Hwrap in Hget.
  assert (Hlt : (0 <? 2 ^ 32 - 1) = true) by reflexivity.
  rewrite Hlt in Hget.
  apply (Hpos g1 (2 ^ 32 - 1)); [|exact Hget].
  unfold uint32_modulus. split; [discriminate|reflexivity].
Qed.

(** What an attempt that yields a point did. *)
Lemma attempt_inr asserts self gen p gen' :
  attempt asserts self gen = inr (p, gen') ->
  exists c g1 g2,
    In c (m_positions self)
    /\ p = translate
             (translate c (scale (fst (uniform_real_distribution (-1)%float 1%float g1))
                                 (m_halfcell self, 0%float)))
             (scale (fst (uniform_real_distribution (-1)%float 1%float g2))
                    (0%float, m_halfcell self)).
Proof.
  unfold attempt, generate_random.
  destruct (uniform_real_distribution 0%float 1%float gen) as [rT g1].
  set (i := lower_bound PrimFloat.ltb (m_integral self) rT).
  destruct (asserts && negb (i <? length (m_positions self))%nat); [discriminate|].
  destruct (nth_error (m_positions self) i) as [c|] eqn:Hc; [|discriminate].
  destruct (uniform_real_distribution (-1)%float 1%float g1) as [u1 g2] eqn:H1.
  destruct (uniform_real_distribution (-1)%float 1%float g2) as [u2 g3] eqn:H2.
  assert (Hin : In c (m_positions self)) by now apply nth_error_In with i.
  destruct left_operand_first; intros [= <- <-].
  - exists c, g1, g2. split; trivial. now rewrite H1, H2.
  - exists c, g2, g1. split; trivial. now rewrite H1, H2.
Qed.

Lemma construct_halfcell asserts boundary bsp granularity dsat alpha minDistance self :
  construct asserts boundary bsp granularity dsat alpha minDistance = inr self ->
  m_halfcell self = (0.5 * granularity)%float.
Proof.
  intros Hc.
  destruct (construct_inr _ _ _ _ _ _ _ _ Hc) as (self0 & integral & Hcol & _ & ->).
  destruct (collect_points_filled _ _ _ _ _ _ _ Hcol) as (segments & _ & [Ht Hh Hp Hl]).
  exact Hh.
Qed.

(** C2. [std::exp] returning no negative value, on a constructed grid a
    call with [1 <= maxAttempts] makes up to [maxAttempts] attempts; each
    draws [u] from [0, 1), takes the first index whose cumulative value is
    not below [u] (found by binary search), moves the stored position by a
    draw from [-1, 1) times half the granularity along each axis (in the
    order the compiler evaluates the two draws), and rejects the point
    exactly when the boundary BSP does not classify it as in empty space (it
    is in solid space or on the boundary).  The result is absent if and only
    if every attempt is rejected. *)
Theorem get_random_position_retries asserts boundary attractiveBSP
  granularity distanceSaturation attractionFactor minDistance self
  (gen : Gen) (maxAttempts : Z) :
  (forall x, (exp x <? 0)%float = false) ->
  construct asserts boundary attractiveBSP granularity distanceSaturation
            attractionFactor minDistance = inr self ->
  1 <= maxAttempts < uint32_modulus ->
  get_random_position asserts self gen maxAttempts
  = sample_with_retries asserts self granularity (Z.to_nat maxAttempts) gen
  /\ ((exists gen', get_random_position asserts self gen maxAttempts = inr (None, gen'))
      <-> every_attempt_rejected asserts self granularity (Z.to_nat maxAttempts) gen).
Proof.
  intros Hexp Hc Hn.
  pose proof (construct_partitioned _ _ _ _ _ _ _ _ Hexp Hc) as Hsorted.
  pose proof (construct_halfcell _ _ _ _ _ _ _ _ Hc) as Hhalf.
  pose proof (get_random_position_sample_with_retries asserts self granularity gen
                maxAttempts Hhalf Hsorted Hn) as Hcode.
  split; [exact Hcode|].
  rewrite Hcode. apply retry_absent_iff.
Qed.

(** C6. On a constructed grid every stored cell centroid lies at squared
    distance greater than [minDistance^2] from the attractive geometry, and
    every point the sampler returns is such a centroid moved by a draw from
    [-1, 1) times half the granularity along each axis and classified as in
    empty space by the boundary BSP; the distance of the moved point to the
    attractive geometry is not tested. *)
Theorem returned_point_is_jittered_centroid asserts boundary attractiveBSP
  granularity distanceSaturation attractionFactor minDistance self
  gen maxAttempts p gen' :
  construct asserts boundary attractiveBSP granularity distanceSaturation
            attractionFactor minDistance = inr self ->
  0 <= maxAttempts < uint32_modulus ->
  get_random_position asserts self gen maxAttempts = inr (Some p, gen') ->
  Forall (fun c => (minDistance * minDistance
                    <? get_min_distance_sqrd_to_solid attractiveBSP c)%float = true)
         (m_positions self)
  /\ point_in_solid_space (m_tree self) p = in_empty_space
  /\ exists c g1 g2,
       In c (m_positions self)
       /\ let ux := fst (uniform_real_distribution (-1)%float 1%float g1) in
          let uy := fst (uniform_real_distribution (-1)%float 1%float g2) in
          let half := (0.5 * granularity)%float in
          p = (fst c + ux * half + uy * 0, snd c + ux * 0 + uy * half)%float.
Proof.
  intros Hc Hm Hget.
  destruct (construct_inr _ _ _ _ _ _ _ _ Hc) as (self0 & integral & Hcol & _ & ->).
  destruct (collect_points_filled _ _ _ _ _ _ _ Hcol) as (segments & _ & [Ht Hh Hp Hl]).
  destruct (get_random_position_some _ _ _ _ _ _ Hm Hget) as (gen0 & Hatt & Hrej).
  split; [|split].
  - simpl. apply (Forall_impl _ (fun c H => proj1 H) Hp).
  - unfold rejected in Hrej. apply negb_false_iff, classification_eqb_eq in Hrej.
    exact Hrej.
  - destruct (attempt_inr _ _ _ _ _ Hatt) as (c & g1 & g2 & Hin & ->).
    simpl in Hin |- *. exists c, g1, g2. split; trivial.
    rewrite Hh. reflexivity.
Qed.

(** C3. When the weights [generate_points] collected add up to zero (in
    particular when no cell was admitted) construction raises no error: with
    [GEOMETRIX_ASSERT] compiled in, the assertion [sum > 0.0] of
    [make_integral] trips; with assertions compiled out, construction
    completes and stores the weights divided by that sum. *)
Theorem zero_total_weight_only_asserts boundary attractiveBSP
  granularity distanceSaturation attractionFactor minDistance self0 :
  collect_points boundary attractiveBSP granularity distanceSaturation
                 attractionFactor minDistance = inr self0 ->
  (accumulate (m_integral self0) 0 =? 0)%float = true ->
  construct true boundary attractiveBSP granularity distanceSaturation
            attractionFactor minDistance = inl assertion_failed
  /\ construct false boundary attractiveBSP granularity distanceSaturation
               attractionFactor minDistance
     = inr {| m_halfcell := m_halfcell self0;
              m_positions := m_positions self0;
              m_integral := running_share (accumulate (m_integral self0) 0) 0
                                          (m_integral self0);
              m_tree := m_tree self0 |}.
Proof.
  intros Hcol Hzero. apply eqb_not_ltb in Hzero.
  unfold construct, make_integral. rewrite Hcol, Hzero. now split.
Qed.

End Construction.
End ConstructionFacts.

(* ===================================================================== *)
(** * Facts about the boundary segments and the stored cells *)
(* ===================================================================== *)

Module SegmentFacts.
Import Geometry Interfaces Specification BiasedPositionGrid.

Lemma closed_ring_nth (pgon : polygon2) (d : point2) :
  closed_ring pgon
  = map (fun k => (nth k pgon d, nth (Nat.modulo (k + 1) (length pgon)) pgon d))
        (seq 0 (length pgon)).
Proof.
  destruct pgon as [|first rest]; trivial.
  unfold closed_ring. set (pgon := first :: rest).
  assert (Hlen : length pgon = S (length rest)) by reflexivity.
  assert (Hsucc : length (rest ++ [first]) = S (length rest))
    by (rewrite length_app; simpl; lia).
  set (edge := fun k => (nth k pgon d, nth (Nat.modulo (k + 1) (length pgon)) pgon d)).
  apply (nth_ext _ _ (d, d) (edge 0%nat)).
  - rewrite length_combine, length_map, length_seq, Hsucc, Hlen. lia.
  - intros k Hk. rewrite length_combine, Hsucc, Hlen in Hk.
    rewrite combine_nth by lia.
    rewrite map_nth, seq_nth by lia. simpl Nat.add at 1.
    unfold edge. f_equal.
    destruct (Nat.eq_dec k (length rest)) as [->|Hne].
    + rewrite nth_middle. rewrite Hlen.
      replace (length rest + 1)%nat with (S (length rest)) by lia.
      now rewrite Nat.Div0.mod_same.
    + rewrite app_nth1 by lia. rewrite Nat.mod_small by lia.
      replace (k + 1)%nat with (S k) by lia. reflexivity.
Qed.

(** The loop of [add_segments], entered at [i] with [j = (i + 1) % size]. *)
Lemma add_segments_loop_spec (pgon : polygon2) (d : point2) (steps i : nat)
  (segs : list segment2) :
  (2 <= length pgon)%nat -> (i + steps = length pgon)%nat ->
  add_segments_loop pgon (length pgon) steps i (Nat.modulo (i + 1) (length pgon)) segs
  = inr (segs ++ map (fun k => (nth k pgon d,
                                nth (Nat.modulo (k + 1) (length pgon)) pgon d))
                     (seq i steps)).
Proof.
  intros Hn. revert i segs.
  induction steps as [|steps IH]; intros i segs Hi; simpl.
  - now rewrite app_nil_r.
  - assert (Hj : (Nat.modulo (i + 1) (length pgon) < length pgon)%nat)
      by (apply Nat.mod_upper_bound; lia).
    rewrite (nth_error_nth' pgon d) by lia.
    rewrite (nth_error_nth' pgon d) by exact Hj.
    rewrite Nat.Div0.add_mod_idemp_l.
    replace (i + 1 + 1)%nat with (S i + 1)%nat by lia.
    rewrite IH by lia. now rewrite <- app_assoc.
Qed.

Lemma add_segments_spec (pgon : polygon2) (segs : list segment2) :
  add_segments pgon segs
  = if single_vertex pgon then inl out_of_bounds else inr (segs ++ closed_ring pgon).
Proof.
  destruct pgon as [|p [|q rest]].
  - simpl. now rewrite app_nil_r.
  - reflexivity.
  - set (pgon := p :: q :: rest). change (single_vertex pgon) with false. cbv iota.
    rewrite (closed_ring_nth pgon p).
    unfold add_segments.
    pose proof (add_segments_loop_spec pgon p (length pgon) 0 segs) as Hloop.
    rewrite Nat.mod_small in Hloop by (simpl; lia).
    apply Hloop; simpl; lia.
Qed.

Lemma add_segments_rings_spec (rings : list polygon2) (segs : list segment2) :
  add_segments_rings rings segs
  = if existsb single_vertex rings then inl out_of_bounds
    else inr (segs ++ flat_map closed_ring rings).
Proof.
  revert segs. induction rings as [|ring rings IH]; intros segs; simpl.
  - now rewrite app_nil_r.
  - rewrite add_segments_spec. destruct (single_vertex ring); simpl; trivial.
    rewrite IH. destruct (existsb single_vertex rings); trivial.
    now rewrite app_assoc.
Qed.

Lemma polygon_collection_from_spec (pgons : list polygon_with_holes2)
  (segs : list segment2) :
  polygon_collection_from pgons segs
  = if existsb single_vertex (rings_of pgons) then inl out_of_bounds
    else inr (segs ++ flat_map closed_ring (rings_of pgons)).
Proof.
  revert segs. induction pgons as [|p pgons IH]; intros segs.
  - simpl. now rewrite app_nil_r.
  - cbn [polygon_collection_from]. unfold add_segments_with_holes.
    rewrite add_segments_rings_spec.
    unfold rings_of. cbn [flat_map]. fold (rings_of pgons).
    rewrite existsb_app, flat_map_app.
    destruct (existsb single_vertex (get_outer p :: get_holes p)); trivial.
    rewrite IH. cbn [orb].
    destruct (existsb single_vertex (rings_of pgons)); trivial.
    now rewrite <- app_assoc.
Qed.

(** X5. [polygon_collection_as_segment_range] turns every ring of the
    collection (per polygon the outer ring, then the holes) into the
    segments of the closed ring, vertex [i] joined to vertex
    [(i + 1) % size], in order; an empty ring adds nothing; and a ring of a
    single vertex makes [add_segments] read [pgon[1]] past the end. *)
Theorem segment_range_closes_every_ring (pgons : list polygon_with_holes2) :
  polygon_collection_as_segment_range pgons
  = if existsb single_vertex (rings_of pgons) then inl out_of_bounds
    else inr (flat_map closed_ring (rings_of pgons)).
Proof.
  unfold polygon_collection_as_segment_range.
  now rewrite polygon_collection_from_spec.
Qed.

End SegmentFacts.

Module GridFacts.
Import Geometry Interfaces Machine MachineFacts Std StdFacts Specification.
Import BiasedPositionGrid SamplingFacts ConstructionFacts SegmentFacts.

Section Grid.
Context {BSP : SolidBSP} {GX : Geometrix} {LM : Libm} {RE : RandomEngine}
        {EO : EvaluationOrder}.

(** X6. Constructing a [biased_position_grid] ends in an out-of-bounds read
    exactly when some boundary ring has a single vertex, and never in a
    [std::invalid_argument]: unlike the generator, the grid does not test
    its rings with [is_polygon_simple]. *)
Theorem construct_failures asserts boundary attractiveBSP
  granularity distanceSaturation attractionFactor minDistance :
  (construct asserts boundary attractiveBSP granularity distanceSaturation
             attractionFactor minDistance = inl out_of_bounds
   <-> existsb single_vertex (rings_of boundary) = true)
  /\ (forall what,
        construct asserts boundary attractiveBSP granularity distanceSaturation
                  attractionFactor minDistance <> inl (invalid_argument what)).
Proof.
  unfold construct, collect_points, polygon_collection_as_segment_range.
  rewrite polygon_collection_from_spec.
  destruct (existsb single_vertex (rings_of boundary)).
  - split; [now split|discriminate].
  - unfold make_integral.
    match goal with |- context [asserts && ?b] => destruct (asserts && b) end;
      (split; [split|]; discriminate).
Qed.

(** ** The cells [generate_points] stores *)





(** ** Draws *)

Lemma first_index_reaching_end (u : float) (a : list float) :
  first_index_reaching u a = length a <-> Forall (fun c => (c <? u)%float = true) a.
Proof.
  induction a as [|c a IH]; simpl.
  - split; [constructor|trivial].
  - destruct (c <? u)%float eqn:Hc.
    + split.
      * intros [= Hlen]. constructor; trivial. now apply IH.
      * intros Hall. inversion Hall; subst. f_equal. now apply IH.
    + split; [discriminate|].
      intros Hall. inversion Hall; subst. congruence.
Qed.

(** X8. On a constructed grid whose cumulative array is sorted, a draw [u]
    that lies above every entry of [m_integral] (every draw, when no cell was
    stored) ends [get_random_position] at its first attempt, in the failed
    assertion of [generate_random] or, with assertions compiled out, in a
    read of [m_positions] past its end; any other draw selects a stored
    position. *)
Theorem sampling_fails_iff_draw_past_integral asserts boundary attractiveBSP
  granularity distanceSaturation attractionFactor minDistance self (gen : Gen) :
  construct asserts boundary attractiveBSP granularity distanceSaturation
            attractionFactor minDistance = inr self ->
  non_decreasing (m_integral self) ->
  let u := fst (uniform_real_distribution 0%float 1%float gen) in
  (Forall (fun c => (c <? u)%float = true) (m_integral self) ->
   forall maxAttempts,
     get_random_position asserts self gen maxAttempts
     = inl (if asserts then assertion_failed else out_of_bounds))
  /\ (Exists (fun c => (c <? u)%float = false) (m_integral self) ->
      exists p gen', attempt asserts self gen = inr (p, gen')).
Proof.
  intros Hc Hsorted u.
  assert (Hlen : length (m_integral self) = length (m_positions self)).
  { destruct (construct_inr _ _ _ _ _ _ _ _ Hc) as (self0 & integral & Hcol & Hmake & ->).
    destruct (collect_points_filled _ _ _ _ _ _ _ Hcol) as (segments & _ & [_ _ _ Hl]).
    simpl. unfold make_integral in Hmake.
    destruct (asserts && negb _); [discriminate|].
    injection Hmake as <-. now rewrite length_running_share. }
  assert (Hattempt :
    (Forall (fun c => (c <? u)%float = true) (m_integral self) ->
     attempt asserts self gen
     = inl (if asserts then assertion_failed else out_of_bounds))
    /\ (Exists (fun c => (c <? u)%float = false) (m_integral self) ->
        exists p gen', attempt asserts self gen = inr (p, gen'))).
  { unfold attempt, generate_random. subst u.
    destruct (uniform_real_distribution 0%float 1%float gen) as [rT gen1]. cbn [fst].
    rewrite (lower_bound_first_index _ _ (non_decreasing_partitioned _ _ Hsorted)).
    pose proof (first_index_reaching_end rT (m_integral self)) as Hend.
    pose proof (first_index_reaching_spec rT (m_integral self)) as (Hle & _ & _).
    set (i := first_index_reaching rT (m_integral self)) in *.
    split.
    - intros Hall. apply Hend in Hall.
      assert (Hge : (length (m_positions self) <= i)%nat) by lia.
      pose proof Hge as Hnone. apply nth_error_None in Hnone. rewrite Hnone.
      apply Nat.ltb_ge in Hge. rewrite Hge. now destruct asserts.
    - intros Hex.
      assert (Hlt : (i < length (m_positions self))%nat).
      { destruct (Nat.eq_dec i (length (m_integral self))) as [Heq|Hne]; [|lia].
        exfalso. apply Hend in Heq. apply Exists_exists in Hex.
        destruct Hex as (c & Hin & Hc'). rewrite Forall_forall in Heq.
        specialize (Heq c Hin). congruence. }
      pose proof Hlt as Hsome. apply nth_error_Some in Hsome.
      apply Nat.ltb_lt in Hlt. rewrite Hlt, andb_false_r.
      destruct (nth_error (m_positions self) i) as [position|]; [|congruence].
      destruct (uniform_real_distribution (-1)%float 1%float gen1) as [u1 gen2].
      destruct (uniform_real_distribution (-1)%float 1%float gen2) as [u2 gen3].
      destruct left_operand_first; eauto. }
  destruct Hattempt as [Hfail Hok]. split; trivial.
  intros Hall maxAttempts. rewrite get_random_position_unfold.
  now rewrite (Hfail Hall).
Qed.

Lemma attempt_three_draws asserts self (gen : Gen) p gen' :
  attempt asserts self gen = inr (p, gen') -> gen' = three_draws gen.
Proof.
  unfold attempt, generate_random, three_draws.
  destruct (uniform_real_distribution 0%float 1%float gen) as [rT gen1].
  destruct (asserts && _); [discriminate|].
  destruct (nth_error _ _); [|discriminate].
  destruct (uniform_real_distribution (-1)%float 1%float gen1) as [u1 gen2].
  destruct (uniform_real_distribution (-1)%float 1%float gen2) as [u2 gen3].
  destruct left_operand_first; now intros [= _ <-].
Qed.

Lemma retry_three_draws asserts self (n : nat) (gen : Gen) r gen' :
  retry (attempt asserts self) (rejected self) n gen = inr (r, gen') ->
  exists k, (k <= n)%nat /\ gen' = Nat.iter k three_draws gen
            /\ (r = None -> k = n) /\ (r <> None -> (1 <= k)%nat).
Proof.
  revert gen. induction n as [|n IH]; intros gen; simpl.
  - intros [= <- <-]. exists 0%nat. repeat split; trivial. congruence.
  - destruct (attempt asserts self gen) as [e|[p gen1]] eqn:Hatt; [discriminate|].
    apply attempt_three_draws in Hatt. subst gen1.
    destruct (rejected self p).
    + intros Hr. destruct (IH _ Hr) as (k & Hk & -> & Hnone & Hsome).
      exists (S k). rewrite Nat.iter_succ_r. repeat split; trivial; try lia.
      intros Hn. specialize (Hnone Hn). lia.
    + intros [= <- <-]. exists 1%nat. repeat split; try lia. discriminate.
Qed.

(** X9. A call of [get_random_position] with [1 <= maxAttempts < 2^32] that
    returns has made at least one and at most [maxAttempts] attempts and has
    taken exactly three draws from the generator per attempt; it answers
    absent only after [maxAttempts] attempts. *)
Theorem get_random_position_draws asserts self (gen : Gen) (maxAttempts : Z)
  r gen' :
  1 <= maxAttempts < uint32_modulus ->
  get_random_position asserts self gen maxAttempts = inr (r, gen') ->
  exists k, (1 <= k <= Z.to_nat maxAttempts)%nat
            /\ gen' = Nat.iter k three_draws gen
            /\ (r = None -> k = Z.to_nat maxAttempts).
Proof.
  intros Hn.
  destruct (Z.to_nat maxAttempts) as [|n] eqn:Hnat; [lia|].
  replace maxAttempts with (Z.of_nat (S n)) by lia.
  rewrite get_random_position_retry by lia.
  intros Hr.
  destruct (retry_three_draws _ _ _ _ _ _ Hr) as (k & Hk & Hgen & Hnone & Hsome).
  exists k. repeat split; trivial.
  destruct r as [p|]; [apply Hsome; discriminate|]. rewrite Hnone; trivial. lia.
Qed.

End Grid.
End GridFacts.

(* ===================================================================== *)
(** * Facts about [biased_position_generator] *)
(* ===================================================================== *)

Module GeneratorFacts.
Import Geometry Interfaces Std Specification BiasedPositionGenerator.

(** ** [std::set] as a sorted sequence *)

Section SetFacts.
Context {A : Type} (less : A -> A -> bool) (domain : list A).
Hypothesis order : strict_total_order_on domain less.

Abbreviation within := (Forall (fun x => In x domain)).
Abbreviation sorted := (StronglySorted (fun x y => less x y = true)).

Lemma set_insert_in (x : A) (s : list A) :
  In x domain -> within s ->
  forall y, In y (set_insert less x s) <-> y = x \/ In y s.
Proof.
  destruct order as (_ & _ & Htotal).
  intros Hx Hs y. induction s as [|z s IH]; simpl.
  - intuition.
  - inversion Hs as [|? ? Hz Hs']; subst.
    destruct (less x z) eqn:Hxz; simpl; [intuition|].
    destruct (less z x) eqn:Hzx; simpl.
    + rewrite (IH Hs'). intuition.
    + rewrite (Htotal x z Hx Hz Hxz Hzx). intuition.
Qed.

Lemma set_insert_within (x : A) (s : list A) :
  In x domain -> within s -> within (set_insert less x s).
Proof.
  intros Hx Hs. apply Forall_forall. intros y Hy.
  apply (set_insert_in x s Hx Hs) in Hy. destruct Hy as [->|Hy]; trivial.
  rewrite Forall_forall in Hs. now apply Hs.
Qed.

Lemma set_insert_sorted (x : A) (s : list A) :
  In x domain -> within s -> sorted s -> sorted (set_insert less x s).
Proof.
  destruct order as (_ & Htrans & _).
  intros Hx Hs Hsorted. induction s as [|z s IH]; simpl.
  - repeat constructor.
  - inversion Hs as [|? ? Hz Hs']; subst.
    apply StronglySorted_inv in Hsorted. destruct Hsorted as [Hsorted Hall].
    destruct (less x z) eqn:Hxz.
    + constructor; [now constructor|].
      constructor; trivial.
      rewrite Forall_forall in Hall, Hs' |- *.
      intros y Hy. apply (Htrans x z y); auto.
    + destruct (less z x) eqn:Hzx; [|now constructor].
      constructor; [now apply IH|].
      apply Forall_forall. intros y Hy.
      apply (set_insert_in x s Hx Hs') in Hy. destruct Hy as [->|Hy]; trivial.
      rewrite Forall_forall in Hall. now apply Hall.
Qed.

Lemma sorted_NoDup (s : list A) : within s -> sorted s -> NoDup s.
Proof.
  destruct order as (Hirrefl & _ & _).
  intros Hs Hsorted. induction s as [|z s IH]; [constructor|].
  inversion Hs as [|? ? Hz Hs']; subst.
  apply StronglySorted_inv in Hsorted. destruct Hsorted as [Hsorted Hall].
  constructor; [|now apply IH].
  intros Hin. rewrite Forall_forall in Hall.
  specialize (Hall z Hin). rewrite (Hirrefl z Hz) in Hall. discriminate.
Qed.

End SetFacts.

Section Generator.
Context {BSP : SolidBSP} {GX : Geometrix} {P2T : Poly2Tri} {LM : Libm}.

(** ** Weights *)

Lemma make_mesh_weight triangles wp i T :
  nth_error triangles i = Some T ->
  weight_of (make_mesh triangles wp) i = Some (T, get_weight wp T).
Proof.
  intros Hi. unfold weight_of, make_mesh. simpl.
  now rewrite nth_error_map, Hi.
Qed.

Lemma construct_from_inr r g :
  construct_from r = inr g -> r = inr (m_mesh g).
Proof. destruct r as [e|m]; [discriminate|]. now intros [= <-]. Qed.

Lemma generate_weighted_mesh_inr polygon granularity bsp wp m :
  generate_weighted_mesh polygon granularity bsp wp = inr m ->
  exists triangles, m = make_mesh triangles wp.
Proof.
  unfold generate_weighted_mesh.
  destruct (not_a_simple_ring polygon); [discriminate|].
  intros [= <-]. eauto.
Qed.

Lemma generate_weighted_mesh_with_holes_inr polygon holes granularity bsp wp m :
  generate_weighted_mesh_with_holes polygon holes granularity bsp wp = inr m ->
  exists triangles, m = make_mesh triangles wp.
Proof.
  unfold generate_weighted_mesh_with_holes.
  destruct (not_a_simple_ring polygon); [discriminate|].
  destruct (add_holes holes []); [discriminate|].
  intros [= <-]. eauto.
Qed.

(** C1. Whichever constructor built the generator, the weight its mesh
    holds for a triangle [T] is
    [area(T) * exp(-attractionFactor * max(d2, distanceSaturation^2))], [d2]
    being the squared distance from the centroid of [T] to the attractive
    BSP: the squared saturation distance stands in for [d2] when [d2] is
    below it. *)
Theorem triangle_weight boundary holes attractiveSegments attractiveBSP
  granularity distanceSaturation attractionFactor g i T :
  (from_segments boundary attractiveSegments granularity distanceSaturation
                 attractionFactor = inr g
   /\ attractiveBSP = make_solid_bsp2 attractiveSegments)
  \/ (from_segments_with_holes boundary holes attractiveSegments granularity
                               distanceSaturation attractionFactor = inr g
      /\ attractiveBSP = make_solid_bsp2 attractiveSegments)
  \/ from_bsp boundary attractiveBSP granularity distanceSaturation
              attractionFactor = inr g ->
  nth_error (mesh_triangles (m_mesh g)) i = Some T ->
  let d2 := get_min_distance_sqrd_to_solid attractiveBSP (get_centroid T) in
  let saturation := (distanceSaturation * distanceSaturation)%float in
  weight_of (m_mesh g) i
  = Some (T, (get_area T
              * exp (- attractionFactor
                     * (if d2 <? saturation then saturation else d2)))%float).
Proof.
  intros Hbuilt HT.
  assert (Hmesh : exists triangles,
            m_mesh g = make_mesh triangles
                         (make_weight_policy attractiveBSP distanceSaturation
                                             attractionFactor)).
  { destruct Hbuilt as [[Hg ->]|[[Hg ->]|Hg]]; apply construct_from_inr in Hg.
    - now apply generate_weighted_mesh_inr in Hg.
    - now apply generate_weighted_mesh_with_holes_inr in Hg.
    - now apply generate_weighted_mesh_inr in Hg. }
  destruct Hmesh as [triangles Hm]. rewrite Hm in HT |- *.
  rewrite (make_mesh_weight _ _ _ _ HT).
  unfold get_weight, make_weight_policy, std_max. cbn. reflexivity.
Qed.

(** ** Invalid polygons *)

Lemma not_a_simple_ring_iff ring :
  not_a_simple_ring ring = true <-> invalid_ring ring.
Proof.
  unfold not_a_simple_ring, invalid_ring. rewrite orb_true_iff, negb_true_iff.
  destruct ring; simpl; intuition congruence.
Qed.

Lemma add_holes_inl holes added :
  add_holes holes added = inl (invalid_argument polygon_not_simple)
  <-> Exists invalid_ring holes.
Proof.
  revert added. induction holes as [|hole holes IH]; intros added; simpl.
  - split; [discriminate|]. intros H. inversion H.
  - destruct (not_a_simple_ring hole) eqn:Hhole.
    + split; trivial. intros _. constructor. now apply not_a_simple_ring_iff.
    + rewrite IH. split; [now constructor 2|].
      intros H. inversion H as [? ? Hbad|]; subst; trivial.
      apply not_a_simple_ring_iff in Hbad. congruence.
Qed.

Lemma construct_from_inl r e :
  construct_from r = inl e <-> r = inl e.
Proof. destruct r; simpl; split; congruence. Qed.

Lemma generate_weighted_mesh_inl polygon granularity bsp wp :
  generate_weighted_mesh polygon granularity bsp wp
  = inl (invalid_argument polygon_not_simple) <-> invalid_ring polygon.
Proof.
  unfold generate_weighted_mesh. rewrite <- not_a_simple_ring_iff.
  destruct (not_a_simple_ring polygon); split; congruence.
Qed.

Lemma generate_weighted_mesh_with_holes_inl polygon holes granularity bsp wp :
  generate_weighted_mesh_with_holes polygon holes granularity bsp wp
  = inl (invalid_argument polygon_not_simple)
  <-> invalid_ring polygon \/ Exists invalid_ring holes.
Proof.
  unfold generate_weighted_mesh_with_holes.
  rewrite <- not_a_simple_ring_iff, <- (add_holes_inl holes []).
  destruct (not_a_simple_ring polygon); [intuition|].
  destruct (add_holes holes []) as [e|hs]; intuition congruence.
Qed.

(** C5. Each of the three constructors throws
    [std::invalid_argument("polygon not simple")] if and only if the outer
    boundary is empty or not simple or, for the constructor that takes holes,
    some hole is empty or not simple. *)
Theorem invalid_polygon_iff boundary holes attractiveSegments attractiveBSP
  granularity distanceSaturation attractionFactor :
  (from_segments boundary attractiveSegments granularity distanceSaturation
                 attractionFactor = inl (invalid_argument polygon_not_simple)
   <-> invalid_ring boundary)
  /\ (from_segments_with_holes boundary holes attractiveSegments granularity
                               distanceSaturation attractionFactor
      = inl (invalid_argument polygon_not_simple)
      <-> invalid_ring boundary \/ Exists invalid_ring holes)
  /\ (from_bsp boundary attractiveBSP granularity distanceSaturation
               attractionFactor = inl (invalid_argument polygon_not_simple)
      <-> invalid_ring boundary).
Proof.
  unfold from_segments, from_segments_with_holes, from_bsp.
  rewrite !construct_from_inl.
  split; [|split].
  - apply generate_weighted_mesh_inl.
  - apply generate_weighted_mesh_with_holes_inl.
  - apply generate_weighted_mesh_inl.
Qed.

(** X2. The overload for a collection of polygons with holes tests each outer
    ring like the others, but a hole only for simplicity. *)
Theorem collection_invalid_polygon_iff polygons granularity bsp wp :
  generate_weighted_mesh_collection polygons granularity bsp wp
  = inl (invalid_argument polygon_not_simple)
  <-> Exists (fun polygon =>
                invalid_ring (get_outer polygon)
                \/ Exists (fun hole => is_polygon_simple hole = false)
                          (get_holes polygon))
             polygons.
Proof.
  unfold generate_weighted_mesh_collection.
  assert (Hloop : triangulate_collection polygons granularity bsp
                  = inl (invalid_argument polygon_not_simple)
                  <-> Exists (fun polygon =>
                                invalid_ring (get_outer polygon)
                                \/ Exists (fun hole => is_polygon_simple hole = false)
                                          (get_holes polygon))
                             polygons).
  { induction polygons as [|polygon polygons IH]; simpl.
    - split; [discriminate|]. intros H. inversion H.
    - destruct (not_a_simple_ring (get_outer polygon)) eqn:Houter.
      + split; trivial. intros _. constructor. left.
        now apply not_a_simple_ring_iff.
      + destruct (existsb _ (get_holes polygon)) eqn:Hholes.
        * split; trivial. intros _. constructor. right.
          apply existsb_exists in Hholes. apply Exists_exists.
          destruct Hholes as (hole & Hin & Hbad). exists hole.
          split; trivial. now apply negb_true_iff.
        * destruct (triangulate_collection polygons granularity bsp) as [e|more].
          -- rewrite Exists_cons. split; [intros H; right; now apply IH|].
             intros [[Hbad|Hbad]|Hrest]; [| |now apply IH].
             ++ apply not_a_simple_ring_iff in Hbad. congruence.
             ++ apply Exists_exists in Hbad. destruct Hbad as (hole & Hin & Hbad).
                assert (existsb (fun hole => negb (is_polygon_simple hole))
                                (get_holes polygon) = true)
                  by (apply existsb_exists; exists hole; now rewrite Hbad).
                congruence.
          -- rewrite Exists_cons. split; [discriminate|].
             intros [[Hbad|Hbad]|Hrest].
             ++ apply not_a_simple_ring_iff in Hbad. congruence.
             ++ apply Exists_exists in Hbad. destruct Hbad as (hole & Hin & Hbad).
                assert (existsb (fun hole => negb (is_polygon_simple hole))
                                (get_holes polygon) = true)
                  by (apply existsb_exists; exists hole; now rewrite Hbad).
                congruence.
             ++ apply IH in Hrest. discriminate. }
  destruct (triangulate_collection polygons granularity bsp) as [e|triangles];
    rewrite <- Hloop; split; congruence.
Qed.

(** ** Fine Steiner points *)

Lemma fine_steiner_points_visits obounds mesh cell bsp :
  fine_steiner_points obounds mesh cell bsp
  = fold_left (visit bsp) (visits (make_grid_traits obounds cell) mesh) [].
Proof.
  unfold fine_steiner_points, visits.
  generalize (make_grid_traits obounds cell) as grid. intros grid.
  generalize (@nil point2) as results.
  induction mesh as [|trig mesh IH]; intros results; simpl; trivial.
  rewrite fold_left_app, <- IH. f_equal.
  generalize (cell_centroids grid trig) as cells. clear IH.
  intros cells. revert results.
  induction cells as [|c cells IHc]; intros results; simpl; trivial.
Qed.

Lemma in_visits grid mesh trig c :
  In (trig, c) (visits grid mesh)
  <-> In trig mesh /\ In c (cell_centroids grid trig).
Proof.
  unfold visits. rewrite in_flat_map. split.
  - intros (t & Ht & Hin). apply in_map_iff in Hin.
    destruct Hin as (c' & [= <- <-] & Hc). now split.
  - intros [Ht Hc]. exists trig. split; trivial. now apply in_map.
Qed.

Lemma fold_visit_spec bsp (domain : list point2) (vs : list (triangle * point2))
  (results : list point2) :
  strict_total_order_on domain point_less ->
  Forall (fun v => In (snd v) domain) vs ->
  Forall (fun x => In x domain) results ->
  StronglySorted (fun x y => point_less x y = true) results ->
  let final := fold_left (visit bsp) vs results in
  Forall (fun x => In x domain) final
  /\ StronglySorted (fun x y => point_less x y = true) final
  /\ forall x, In x final
       <-> In x results
           \/ exists trig, In (trig, x) vs /\ admitted bsp trig x = true.
Proof.
  intros Hord. revert results.
  induction vs as [|[trig c] vs IH]; intros results Hvs Hin Hsorted; simpl.
  - repeat split; trivial; [tauto|]. intros [H|(t & [] & _)]. exact H.
  - inversion Hvs as [|? ? Hc Hvs']; subst. simpl in Hc.
    unfold visit at 2 4 6. unfold insert_admitted. simpl.
    destruct (admitted bsp trig c) eqn:Hadm.
    + destruct (IH (set_insert point_less c results) Hvs'
                  (set_insert_within point_less domain Hord c results Hc Hin)
                  (set_insert_sorted point_less domain Hord c results Hc Hin Hsorted))
        as (Hw & Hs & Hiff).
      repeat split; trivial.
      * intros Hx. apply Hiff in Hx. destruct Hx as [Hx|(t & Ht & Ha)].
        -- apply (set_insert_in point_less domain Hord c results Hc Hin) in Hx.
           destruct Hx as [->|Hx]; [right; exists trig|left]; auto.
        -- right. exists t. auto.
      * intros Hx. apply Hiff. destruct Hx as [Hx|(t & [Ht|Ht] & Ha)].
        -- left. apply (set_insert_in point_less domain Hord c results Hc Hin). auto.
        -- injection Ht as <- <-. left.
           apply (set_insert_in point_less domain Hord c results Hc Hin). auto.
        -- right. exists t. auto.
    + destruct (IH results Hvs' Hin Hsorted) as (Hw & Hs & Hiff).
      repeat split; trivial.
      * intros Hx. apply Hiff in Hx. destruct Hx as [Hx|(t & Ht & Ha)];
          [left|right; exists t]; auto.
      * intros Hx. apply Hiff. destruct Hx as [Hx|(t & [Ht|Ht] & Ha)].
        -- now left.
        -- injection Ht as <- <-. congruence.
        -- right. exists t. auto.
Qed.

(** The centroids enumerated for a triangle are those of the cells whose
    column lies between the columns of the least and the greatest [x] of its
    corners, and whose row lies between the rows of the least and the
    greatest [y]. *)
Lemma in_cell_centroids grid p0 p1 p2 c :
  In c (cell_centroids grid (p0, p1, p2))
  <-> exists i j,
        (let '(xmin, xmax, ymin, ymax) := get_bounds [p0; p1; p2] in
         get_x_index grid xmin <= i <= get_x_index grid xmax
         /\ get_y_index grid ymin <= j <= get_y_index grid ymax)
        /\ c = get_cell_centroid grid i j.
Proof.
  unfold cell_centroids, closed_range.
  destruct (get_bounds [p0; p1; p2]) as [[[xmin xmax] ymin] ymax].
  rewrite in_flat_map. split.
  - intros (j & Hj & Hc). apply in_map_iff in Hc. destruct Hc as (i & <- & Hi).
    apply MachineFacts.in_loop_range in Hi, Hj. exists i, j. split; [lia|reflexivity].
  - intros (i & j & [Hi Hj] & ->). exists j. split.
    + apply MachineFacts.in_loop_range. lia.
    + apply in_map_iff. exists i. split; [reflexivity|].
      apply MachineFacts.in_loop_range. lia.
Qed.

(** The same centroids, as members of the list of all that are visited. *)
Lemma visited_centroid grid mesh p0 p1 p2 i j :
  In (p0, p1, p2) mesh ->
  (let '(xmin, xmax, ymin, ymax) := get_bounds [p0; p1; p2] in
   get_x_index grid xmin <= i <= get_x_index grid xmax
   /\ get_y_index grid ymin <= j <= get_y_index grid ymax) ->
  In (get_cell_centroid grid i j) (flat_map (cell_centroids grid) mesh).
Proof.
  intros Ht Hij. apply in_flat_map. exists (p0, p1, p2). split; trivial.
  apply in_cell_centroids. now exists i, j.
Qed.

(** The set [generate_fine_steiner_points] fills, for any bounds and coarse
    mesh. *)
Lemma fine_steiner_points_spec obounds mesh cell bsp (domain : list point2) :
  let grid := make_grid_traits obounds cell in
  (forall p0 p1 p2 i j, In (p0, p1, p2) mesh ->
     (let '(xmin, xmax, ymin, ymax) := get_bounds [p0; p1; p2] in
      get_x_index grid xmin <= i <= get_x_index grid xmax
      /\ get_y_index grid ymin <= j <= get_y_index grid ymax) ->
     In (get_cell_centroid grid i j) domain) ->
  strict_total_order_on domain point_less ->
  Forall (fun x => In x domain) (fine_steiner_points obounds mesh cell bsp)
  /\ StronglySorted (fun x y => point_less x y = true)
                    (fine_steiner_points obounds mesh cell bsp)
  /\ forall c, In c (fine_steiner_points obounds mesh cell bsp)
       <-> exists p0 p1 p2 i j,
             In (p0, p1, p2) mesh
             /\ (let '(xmin, xmax, ymin, ymax) := get_bounds [p0; p1; p2] in
                 get_x_index grid xmin <= i <= get_x_index grid xmax
                 /\ get_y_index grid ymin <= j <= get_y_index grid ymax)
             /\ c = get_cell_centroid grid i j
             /\ (1 <? get_min_distance_sqrd_to_solid bsp c)%float = true
             /\ point_in_triangle c (p0, p1, p2) = true.
Proof.
  intros grid Hdomain Hord. rewrite fine_steiner_points_visits. fold grid.
  destruct (fold_visit_spec bsp domain (visits grid mesh) [] Hord) as (Hw & Hs & Hiff).
  - apply Forall_forall. intros [[[p0 p1] p2] c] Hv. apply in_visits in Hv.
    destruct Hv as [Ht Hc]. apply in_cell_centroids in Hc.
    destruct Hc as (i & j & Hij & ->). simpl. now apply (Hdomain p0 p1 p2).
  - constructor.
  - constructor.
  - split; [exact Hw|]. split; [exact Hs|].
    intros c. rewrite Hiff. split.
    + intros [[]|([[p0 p1] p2] & Hv & Hadm)].
      apply in_visits in Hv. destruct Hv as [Ht Hc].
      apply in_cell_centroids in Hc. destruct Hc as (i & j & Hij & Hc).
      unfold admitted in Hadm. apply andb_prop in Hadm.
      exists p0, p1, p2, i, j. tauto.
    + intros (p0 & p1 & p2 & i & j & Ht & Hij & Hc & Hd & Hp). right.
      exists (p0, p1, p2). split.
      * apply in_visits. split; trivial. apply in_cell_centroids. now exists i, j.
      * unfold admitted. now rewrite Hd, Hp.
Qed.

(** C7. Provided [operator<] orders the visited cell centroids strictly and
    totally by their exact coordinates, the Steiner points returned for a
    polygon hold no point twice, and a point is among them if and only if,
    for some triangle of the coarse mesh, it is the centroid of a grid cell
    whose column and row lie between those of the least and the greatest
    coordinates of the triangle's corners, it lies more than one square
    metre from the attractive BSP, and it lies in that triangle under the
    tolerance. *)
Theorem steiner_points_admitted (pgon : polygon2) (cell : float) (bsp : solid_bsp2)
  (domain : list point2) :
  let grid := make_grid_traits (get_bounds pgon) cell in
  let mesh := generate_mesh pgon [] in
  (forall p0 p1 p2 i j, In (p0, p1, p2) mesh ->
     (let '(xmin, xmax, ymin, ymax) := get_bounds [p0; p1; p2] in
      get_x_index grid xmin <= i <= get_x_index grid xmax
      /\ get_y_index grid ymin <= j <= get_y_index grid ymax) ->
     In (get_cell_centroid grid i j) domain) ->
  strict_total_order_on domain point_less ->
  NoDup (generate_fine_steiner_points pgon cell bsp)
  /\ forall c, In c (generate_fine_steiner_points pgon cell bsp)
       <-> exists p0 p1 p2 i j,
             In (p0, p1, p2) mesh
             /\ (let '(xmin, xmax, ymin, ymax) := get_bounds [p0; p1; p2] in
                 get_x_index grid xmin <= i <= get_x_index grid xmax
                 /\ get_y_index grid ymin <= j <= get_y_index grid ymax)
             /\ c = get_cell_centroid grid i j
             /\ (1 <? get_min_distance_sqrd_to_solid bsp c)%float = true
             /\ point_in_triangle c (p0, p1, p2) = true.
Proof.
  intros grid mesh Hdomain Hord. unfold generate_fine_steiner_points.
  destruct (fine_steiner_points_spec (get_bounds pgon) mesh cell bsp domain
              Hdomain Hord) as (Hw & Hs & Hiff).
  split; [|exact Hiff].
  now apply (sorted_NoDup point_less domain Hord).
Qed.

End Generator.
End GeneratorFacts.

(* ===================================================================== *)
(** * Facts about the Steiner points of polygons with holes *)
(* ===================================================================== *)

Module SteinerFacts.
Import Geometry Interfaces Specification Std BiasedPositionGenerator GeneratorFacts.

Section Generator.
Context {BSP : SolidBSP} {GX : Geometrix} {P2T : Poly2Tri} {LM : Libm}.

(** X10. For a polygon with holes the grid is laid over the bounds of the
    outer ring and the coarse mesh is that of the polygon with its holes.
    Provided [operator<] orders the visited centroids strictly and totally,
    the Steiner points come out in strictly ascending [operator<] order, and
    a point is among them if and only if, for some triangle of that mesh, it
    is the centroid of a grid cell whose column and row lie between those of
    the least and the greatest coordinates of the triangle's corners, it lies
    more than one square metre from the attractive BSP, and it lies in the
    triangle. *)
Theorem steiner_points_with_holes_sorted (pgon : polygon_with_holes2) (cell : float)
  (bsp : solid_bsp2) (domain : list point2) :
  let grid := make_grid_traits (get_bounds (get_outer pgon)) cell in
  let mesh := generate_mesh (get_outer pgon) (get_holes pgon) in
  (forall p0 p1 p2 i j, In (p0, p1, p2) mesh ->
     (let '(xmin, xmax, ymin, ymax) := get_bounds [p0; p1; p2] in
      get_x_index grid xmin <= i <= get_x_index grid xmax
      /\ get_y_index grid ymin <= j <= get_y_index grid ymax) ->
     In (get_cell_centroid grid i j) domain) ->
  strict_total_order_on domain point_less ->
  StronglySorted (fun p q => point_less p q = true)
                 (generate_fine_steiner_points_with_holes pgon cell bsp)
  /\ forall c, In c (generate_fine_steiner_points_with_holes pgon cell bsp)
       <-> exists p0 p1 p2 i j,
             In (p0, p1, p2) mesh
             /\ (let '(xmin, xmax, ymin, ymax) := get_bounds [p0; p1; p2] in
                 get_x_index grid xmin <= i <= get_x_index grid xmax
                 /\ get_y_index grid ymin <= j <= get_y_index grid ymax)
             /\ c = get_cell_centroid grid i j
             /\ (1 <? get_min_distance_sqrd_to_solid bsp c)%float = true
             /\ point_in_triangle c (p0, p1, p2) = true.
Proof.
  intros grid mesh Hdomain Hord. unfold generate_fine_steiner_points_with_holes.
  destruct (fine_steiner_points_spec (get_bounds (get_outer pgon)) mesh cell bsp domain
              Hdomain Hord) as (_ & Hs & Hiff).
  now split.
Qed.

End Generator.
End SteinerFacts.

(* ===================================================================== *)
(** * Facts about the arrays handed to the mesh *)
(* ===================================================================== *)

Module MeshArraysFacts.
Import Geometry Interfaces Specification MeshArrays.

(** ** [std::map<p2t::Point*, std::size_t>] *)

Lemma ascending_head k v (m : pointer_map) k' v' :
  ascending ((k, v) :: m) -> In (k', v') m -> k < k'.
Proof.
  intros Hs Hin. apply StronglySorted_inv in Hs. destruct Hs as [_ Hall].
  rewrite Forall_forall in Hall. apply (Hall _ Hin).
Qed.

Lemma map_find_in (m : pointer_map) key value :
  ascending m -> (map_find m key = Some value <-> In (key, value) m).
Proof.
  induction m as [|[k v] m IH]; intros Hs; simpl.
  - split; [discriminate|tauto].
  - pose proof (StronglySorted_inv Hs) as [Hm _].
    destruct (Z.eqb_spec key k) as [->|Hne].
    + split; [intros [= ->]; now left|].
      intros [[= ->]|Hin]; trivial.
      pose proof (ascending_head _ _ _ _ _ Hs Hin). lia.
    + rewrite (IH Hm). split; [tauto|]. intros [[= -> ->]|Hin]; [lia|trivial].
Qed.

Lemma map_assign_in (m : pointer_map) key value k' v' :
  ascending m ->
  In (k', v') (map_assign m key value)
  <-> (k' = key /\ v' = value) \/ (k' <> key /\ In (k', v') m).
Proof.
  induction m as [|[k v] m IH]; intros Hs; simpl.
  - split; [intros [[= <- <-]|[]]; tauto|]. intros [[-> ->]|[_ []]]. now left.
  - pose proof (StronglySorted_inv Hs) as [Hm _].
    destruct (Z.ltb_spec key k) as [Hlt|Hge].
    + simpl. split.
      * intros [[= <- <-]|[[= -> ->]|Hin]]; [tauto|right; split; [lia|now left]|].
        right. pose proof (ascending_head _ _ _ _ _ Hs Hin). split; [lia|now right].
      * intros [[-> ->]|[_ H]]; [now left|now right].
    + destruct (Z.ltb_spec k key) as [Hlt|Hge'].
      * simpl. rewrite (IH Hm). split.
        -- intros [[= -> ->]|[H|[Hne Hin]]]; [right; split; [lia|now left]|tauto|tauto].
        -- intros [H|[Hne [[= -> ->]|Hin]]]; [tauto|now left|tauto].
      * assert (key = k) as -> by lia. simpl. split.
        -- intros [[= <- <-]|Hin]; [tauto|].
           right. pose proof (ascending_head _ _ _ _ _ Hs Hin). split; [lia|now right].
        -- intros [[-> ->]|[Hne [[= -> ->]|Hin]]]; [now left|lia|now right].
Qed.

Lemma map_assign_ascending (m : pointer_map) key value :
  ascending m -> ascending (map_assign m key value).
Proof.
  induction m as [|[k v] m IH]; intros Hs; simpl.
  - repeat constructor.
  - pose proof (StronglySorted_inv Hs) as [Hm Hall].
    destruct (Z.ltb_spec key k) as [Hlt|Hge].
    + constructor; trivial. constructor; trivial.
      apply (Forall_impl _ (fun a (Ha : k < fst a) => Z.lt_trans _ _ _ Hlt Ha) Hall).
    + destruct (Z.ltb_spec k key) as [Hlt|Hge'].
      * constructor; [now apply IH|].
        apply Forall_forall. intros [k' v'] Hin.
        apply (map_assign_in m key value k' v' Hm) in Hin.
        destruct Hin as [[-> _]|[_ Hin]]; trivial.
        apply (ascending_head _ _ _ _ _ Hs Hin).
      * constructor; trivial.
Qed.

Lemma map_assign_length (m : pointer_map) key value :
  (forall v, ~ In (key, v) m) ->
  length (map_assign m key value) = S (length m).
Proof.
  induction m as [|[k v] m IH]; intros Hnew; simpl; trivial.
  destruct (Z.ltb_spec key k) as [Hlt|Hge]; trivial.
  destruct (Z.ltb_spec k key) as [Hlt|Hge'].
  - simpl. rewrite IH; trivial. intros v' Hin. apply (Hnew v'). now right.
  - assert (key = k) as -> by lia. exfalso. apply (Hnew v). now left.
Qed.

Lemma index_points_spec (cdtPoints : list Z) (i : nat) (indices : pointer_map) :
  NoDup cdtPoints -> ascending indices ->
  (forall k v, In (k, v) indices -> ~ In k cdtPoints) ->
  let final := index_points cdtPoints i indices in
  ascending final
  /\ length final = (length indices + length cdtPoints)%nat
  /\ forall k v, In (k, v) final
       <-> In (k, v) indices
           \/ exists j, nth_error cdtPoints j = Some k /\ v = (i + j)%nat.
Proof.
  revert i indices.
  induction cdtPoints as [|p cdtPoints IH]; intros i indices Hnodup Hs Hfresh; simpl.
  - split; [trivial|split; [lia|]]. intros k v. split; [tauto|].
    intros [H|(j & Hj & _)]; trivial. now destruct j.
  - apply NoDup_cons_iff in Hnodup. destruct Hnodup as [Hp Hnodup].
    destruct (IH (S i) (map_assign indices p i) Hnodup (map_assign_ascending _ _ _ Hs))
      as (Hfinal & Hlen & Hin).
    { intros k v Hk. apply (map_assign_in _ _ _ _ _ Hs) in Hk.
      destruct Hk as [[-> _]|[_ Hk]]; trivial.
      intros Hc. apply (Hfresh k v Hk). now right. }
    split; [trivial|split]; [|intros k v; split].
    + rewrite Hlen, map_assign_length; [lia|].
      intros v Hv. apply (Hfresh p v Hv). now left.
    + intros Hk. apply Hin in Hk. destruct Hk as [Hk|(j & Hj & ->)].
      * apply (map_assign_in _ _ _ _ _ Hs) in Hk.
        destruct Hk as [[-> ->]|[_ Hk]]; [right; exists 0%nat|left]; trivial.
        split; trivial; lia.
      * right. exists (S j). split; trivial; lia.
    + intros Hk. apply Hin. destruct Hk as [Hk|(j & Hj & ->)].
      * left. apply (map_assign_in _ _ _ _ _ Hs). right. split; trivial.
        intros ->. apply (Hfresh p v Hk). now left.
      * destruct j as [|j]; simpl in Hj.
        -- injection Hj as ->. left. apply (map_assign_in _ _ _ _ _ Hs). left.
           split; trivial; lia.
        -- right. exists j. split; trivial; lia.
Qed.

Section Pointers.
Variable deref : Z -> point2.
Variable unset : point2.

Lemma vector_assign_spec (points : polygon2) (i : nat) (p : point2) :
  (i < length points)%nat ->
  exists points',
    vector_assign points i p = inr points'
    /\ length points' = length points
    /\ nth_error points' i = Some p
    /\ forall j, j <> i -> nth_error points' j = nth_error points j.
Proof.
  revert i. induction points as [|q points IH]; intros i Hi; simpl in Hi; [lia|].
  destruct i as [|i]; simpl.
  - exists (p :: points). repeat split; trivial. intros [|j] Hj; [lia|trivial].
  - destruct (IH i ltac:(lia)) as (points' & -> & Hlen & Hset & Hkeep).
    exists (q :: points'). repeat split; simpl; trivial; [lia|].
    intros [|j] Hj; trivial. apply Hkeep. lia.
Qed.

Lemma assign_points_spec (items : pointer_map) (points : polygon2) :
  NoDup (map snd items) ->
  (forall k i, In (k, i) items -> (i < length points)%nat) ->
  exists points',
    assign_points deref items points = inr points'
    /\ length points' = length points
    /\ (forall k i, In (k, i) items -> nth_error points' i = Some (deref k))
    /\ (forall j, ~ In j (map snd items) -> nth_error points' j = nth_error points j).
Proof.
  revert points. induction items as [|[k i] items IH]; intros points Hnodup Hb; simpl.
  - exists points. repeat split; trivial. intros k i [].
  - simpl in Hnodup. apply NoDup_cons_iff in Hnodup. destruct Hnodup as [Hi Hnodup].
    destruct (vector_assign_spec points i (deref k)) as (points1 & -> & Hlen1 & Hset & Hkeep).
    { apply (Hb k i). now left. }
    destruct (IH points1 Hnodup) as (points' & -> & Hlen & Hitems & Hrest).
    { intros k' i' Hin. rewrite Hlen1. apply (Hb k' i'). now right. }
    exists points'. repeat split; trivial; [lia| |].
    + intros k' i' [[= -> ->]|Hin]; [|now apply Hitems].
      now rewrite (Hrest i' Hi).
    + intros j Hj. rewrite Hrest by tauto. apply Hkeep. intros ->. apply Hj. now left.
Qed.

Lemma index_corners_spec asserts (indices : pointer_map) (corners : list Z)
  (iArray : list nat) (cdtPoints : list Z) :
  (forall k v, map_find indices k = Some v <-> nth_error cdtPoints v = Some k) ->
  (incl corners cdtPoints ->
   exists added,
     index_corners asserts indices corners iArray = inr (iArray ++ added)
     /\ map (nth_error cdtPoints) added = map Some corners)
  /\ (~ incl corners cdtPoints ->
      index_corners asserts indices corners iArray
      = inl (if asserts then assertion_failed else out_of_bounds)).
Proof.
  intros Hfind. revert iArray.
  induction corners as [|p corners IH]; intros iArray; simpl.
  - split; [|intros H; exfalso; apply H; intros x []].
    intros _. exists []. now rewrite app_nil_r.
  - destruct (map_find indices p) as [i|] eqn:Hp.
    + destruct (IH (iArray ++ [i])) as [Hok Hbad]. apply Hfind in Hp. split.
      * intros Hincl. destruct Hok as (added & -> & Hadded).
        { intros x Hx. apply Hincl. now right. }
        exists (i :: added). rewrite <- app_assoc. split; trivial.
        simpl. now rewrite Hp, Hadded.
      * intros Hnot. apply Hbad. intros Hincl. apply Hnot.
        intros x [<-|Hx]; [now apply nth_error_In with i|now apply Hincl].
    + split; trivial. intros Hincl. exfalso.
      assert (Hin : In p cdtPoints) by (apply Hincl; now left).
      apply In_nth_error in Hin. destruct Hin as (i & Hi).
      apply Hfind in Hi. congruence.
Qed.

Lemma index_corners_app asserts (indices : pointer_map) (a b : list Z)
  (iArray : list nat) :
  index_corners asserts indices (a ++ b) iArray
  = match index_corners asserts indices a iArray with
    | inl e => inl e
    | inr iArray' => index_corners asserts indices b iArray'
    end.
Proof.
  revert iArray. induction a as [|p a IH]; intros iArray; simpl; trivial.
  destruct (map_find indices p); trivial.
Qed.

Lemma index_triangles_corners asserts (indices : pointer_map)
  (triangles : list (Z * Z * Z)) (iArray : list nat) :
  index_triangles asserts indices triangles iArray
  = index_corners asserts indices (corners_of triangles) iArray.
Proof.
  revert iArray. induction triangles as [|[[p0 p1] p2] triangles IH]; intros iArray; trivial.
  cbn [index_triangles corners_of flat_map].
  rewrite index_corners_app.
  destruct (index_corners asserts indices [p0; p1; p2] iArray); [reflexivity|apply IH].
Qed.

Lemma index_points_all (cdtPoints : list Z) :
  NoDup cdtPoints ->
  let indices := index_points cdtPoints 0 [] in
  ascending indices
  /\ length indices = length cdtPoints
  /\ forall k v, In (k, v) indices <-> nth_error cdtPoints v = Some k.
Proof.
  intros Hnodup.
  destruct (index_points_spec cdtPoints 0 [] Hnodup) as (Hs & Hlen & Hin);
    [constructor|intros k v []|].
  split; [trivial|split; [trivial|]]. intros k v. rewrite Hin. simpl. split.
  - now intros [[]|(j & Hj & ->)].
  - intros Hv. right. now exists v.
Qed.

(** X12. Provided [cdt.GetPoints()] holds no address twice: when every
    corner of every triangle of the CDT is among those points, the vertex
    array handed to the mesh lists the coordinates of the CDT's points in
    their order, and the index array names, corner by corner and triangle by
    triangle, the place of that corner among them; a corner that is not
    among the points trips the assertion on [indices.find] (dereferences
    [indices.end()] with assertions compiled out). *)
Theorem mesh_arrays_round_trip asserts (cdtPoints : list Z)
  (triangles : list (Z * Z * Z)) :
  NoDup cdtPoints ->
  (incl (corners_of triangles) cdtPoints ->
   exists iArray,
     mesh_arrays deref unset asserts cdtPoints triangles
     = inr (map deref cdtPoints, iArray)
     /\ map (nth_error cdtPoints) iArray = map Some (corners_of triangles))
  /\ (~ incl (corners_of triangles) cdtPoints ->
      mesh_arrays deref unset asserts cdtPoints triangles
      = inl (if asserts then assertion_failed else out_of_bounds)).
Proof.
  intros Hnodup. unfold mesh_arrays.
  destruct (index_points_all cdtPoints Hnodup) as (Hs & Hlen & Hin).
  set (indices := index_points cdtPoints 0 []) in *.
  assert (Hfind : forall k v, map_find indices k = Some v
                              <-> nth_error cdtPoints v = Some k).
  { intros k v. rewrite (map_find_in indices k v Hs). apply Hin. }
  destruct (assign_points_spec indices (repeat unset (length indices)))
    as (points & -> & Hpoints & Hitems & _).
  { apply NoDup_map_NoDup_ForallPairs.
    - intros [k i] [k' i'] Hk Hk' Heq. simpl in Heq. subst i'.
      apply Hin in Hk, Hk'. congruence.
    - clear -Hs. induction Hs as [|a m Hm IH Hall]; constructor; trivial.
      intros Ha. rewrite Forall_forall in Hall. specialize (Hall a Ha). lia. }
  { intros k i Hk. rewrite repeat_length, Hlen. apply Hin in Hk.
    apply nth_error_Some. congruence. }
  assert (Hsame : points = map deref cdtPoints).
  { apply nth_error_ext. intros j. rewrite nth_error_map.
    destruct (nth_error cdtPoints j) as [k|] eqn:Hj; simpl.
    - apply Hitems. now apply Hin.
    - apply nth_error_None. apply nth_error_None in Hj.
      rewrite Hpoints, repeat_length, Hlen. exact Hj. }
  rewrite index_triangles_corners.
  destruct (index_corners_spec asserts indices (corners_of triangles) [] cdtPoints Hfind)
    as [Hok Hbad].
  split.
  - intros Hincl. destruct (Hok Hincl) as (added & -> & Hadded).
    exists added. now rewrite Hsame.
  - intros Hnot. now rewrite (Hbad Hnot).
Qed.

End Pointers.

(** ** [std::map<point2, std::size_t>] *)

Section Collection.
Context {GX : Geometrix}.
Variable map_lower_bound_contains : point2 -> option (point2 * nat) -> bool.
Variable domain : list point2.
Hypothesis order : strict_total_order_on domain point_less.
Hypothesis contains_spec :
  forall p it, map_lower_bound_contains p it = found_at_lower_bound p it.

Abbreviation keys_within m := (Forall (fun e : point2 * nat => In (fst e) domain) m).
Abbreviation keys_ascend m :=
  (StronglySorted (fun a b : point2 * nat => point_less (fst a) (fst b) = true) m).

Lemma less_irrefl p : In p domain -> point_less p p = false.
Proof. destruct order as (Hirr & _ & _). apply Hirr. Qed.

Lemma less_trans p q r :
  In p domain -> In q domain -> In r domain ->
  point_less p q = true -> point_less q r = true -> point_less p r = true.
Proof. destruct order as (_ & Htrans & _). apply Htrans. Qed.

Lemma less_total p q :
  In p domain -> In q domain ->
  point_less p q = false -> point_less q p = false -> p = q.
Proof. destruct order as (_ & _ & Htotal). apply Htotal. Qed.

Lemma within_in (m : point_map) k v : keys_within m -> In (k, v) m -> In k domain.
Proof. intros Hw Hin. rewrite Forall_forall in Hw. apply (Hw _ Hin). Qed.

Lemma ascend_head k v (m : point_map) k' v' :
  keys_ascend ((k, v) :: m) -> In (k', v') m -> point_less k k' = true.
Proof.
  intros Hs Hin. apply StronglySorted_inv in Hs. destruct Hs as [_ Hall].
  rewrite Forall_forall in Hall. apply (Hall _ Hin).
Qed.

(** What the entry at [lower_bound(p)] tells about [p]. *)
Lemma lower_bound_decides (m : point_map) (p : point2) :
  keys_ascend m -> keys_within m -> In p domain ->
  match hd_error (snd (map_lower_bound m p)) with
  | Some (k, v) =>
      In (k, v) m
      /\ (point_less p k = false -> k = p)
      /\ (point_less p k = true -> forall v', ~ In (p, v') m)
  | None => forall v', ~ In (p, v') m
  end.
Proof.
  intros Hs Hw Hp. induction m as [|[k v] m IH]; simpl.
  - intros v' [].
  - pose proof (StronglySorted_inv Hs) as [Hm _].
    pose proof (Forall_inv_tail Hw) as Hwm.
    assert (Hk : In k domain) by (apply (within_in _ k v Hw); now left).
    destruct (point_less k p) eqn:Hkp.
    + specialize (IH Hm Hwm).
      destruct (map_lower_bound m p) as [before from]. simpl in *.
      assert (Hhead : forall v', (k, v) <> (p, v')).
      { intros v' [= -> _]. rewrite (less_irrefl p Hp) in Hkp. discriminate. }
      destruct (hd_error from) as [[k' w]|].
      * destruct IH as (Hin & Hfound & Habsent). repeat split; auto.
        intros Hlt v' [Heq|Hin']; [now apply (Hhead v')|now apply (Habsent Hlt v')].
      * intros v' [Heq|Hin']; [now apply (Hhead v')|now apply (IH v')].
    + simpl. repeat split; [now left|now apply less_total|].
      intros Hpk v' [[= -> _]|Hin].
      * rewrite (less_irrefl p Hp) in Hpk. discriminate.
      * pose proof (ascend_head _ _ _ _ _ Hs Hin). congruence.
Qed.

Lemma map_insert_in (m : point_map) (p : point2) (n : nat) k v :
  keys_within m -> In p domain -> (forall v', ~ In (p, v') m) ->
  In (k, v) (map_insert m p n) <-> (k = p /\ v = n) \/ In (k, v) m.
Proof.
  intros Hw Hp. induction m as [|[k0 w] m IH]; intros Habsent; simpl.
  - split; [intros [[= <- <-]|[]]; tauto|]. intros [[-> ->]|[]]. now left.
  - pose proof (Forall_inv_tail Hw) as Hwm.
    assert (Hk0 : In k0 domain) by (apply (within_in _ k0 w Hw); now left).
    destruct (point_less p k0) eqn:Hpk.
    + simpl. split; [intros [[= <- <-]|H]; tauto|]. intros [[-> ->]|H]; [now left|now right].
    + destruct (point_less k0 p) eqn:Hkp.
      * simpl. rewrite (IH Hwm); [tauto|].
        intros v' Hin. apply (Habsent v'). now right.
      * exfalso. apply (Habsent w). left. f_equal. now apply less_total.
Qed.

Lemma map_insert_within (m : point_map) (p : point2) (n : nat) :
  keys_within m -> In p domain -> keys_within (map_insert m p n).
Proof.
  intros Hw Hp. induction m as [|[k0 w] m IH]; simpl.
  - now repeat constructor.
  - pose proof (Forall_inv_tail Hw) as Hwm.
    destruct (point_less p k0); [now constructor|].
    destruct (point_less k0 p); trivial.
    constructor; [apply (Forall_inv Hw)|now apply IH].
Qed.

Lemma map_insert_ascend (m : point_map) (p : point2) (n : nat) :
  keys_ascend m -> keys_within m -> In p domain -> (forall v', ~ In (p, v') m) ->
  keys_ascend (map_insert m p n).
Proof.
  intros Hs Hw Hp. induction m as [|[k0 w] m IH]; intros Habsent; simpl.
  - repeat constructor.
  - pose proof (StronglySorted_inv Hs) as [Hm Hall].
    pose proof (Forall_inv_tail Hw) as Hwm.
    assert (Hk0 : In k0 domain) by (apply (within_in _ k0 w Hw); now left).
    assert (Habsent' : forall v', ~ In (p, v') m)
      by (intros v' Hin; apply (Habsent v'); now right).
    destruct (point_less p k0) eqn:Hpk.
    + constructor; trivial. constructor; trivial.
      apply Forall_forall. intros [k' v'] Hin. simpl.
      apply (less_trans p k0 k'); trivial.
      * apply (within_in m k' v' Hwm Hin).
      * apply (ascend_head _ _ _ _ _ Hs Hin).
    + destruct (point_less k0 p) eqn:Hkp; trivial.
      constructor; [now apply IH|].
      apply Forall_forall. intros [k' v'] Hin. simpl.
      apply (map_insert_in m p n k' v' Hwm Hp Habsent') in Hin.
      destruct Hin as [[-> _]|Hin]; trivial.
      apply (ascend_head _ _ _ _ _ Hs Hin).
Qed.

Lemma map_insert_length (m : point_map) (p : point2) (n : nat) :
  keys_within m -> In p domain -> (forall v', ~ In (p, v') m) ->
  length (map_insert m p n) = S (length m).
Proof.
  intros Hw Hp. induction m as [|[k0 w] m IH]; intros Habsent; simpl; trivial.
  pose proof (Forall_inv_tail Hw) as Hwm.
  assert (Hk0 : In k0 domain) by (apply (within_in _ k0 w Hw); now left).
  destruct (point_less p k0) eqn:Hpk; trivial.
  destruct (point_less k0 p) eqn:Hkp.
  - simpl. rewrite IH; trivial. intros v' Hin. apply (Habsent v'). now right.
  - exfalso. apply (Habsent w). left. f_equal. now apply less_total.
Qed.

(** A vertex that is new goes to the end of the array and into the map. *)
Lemma new_index_indexed (self : arrays) (p : point2) :
  indexed domain self -> In p domain ->
  (forall v', ~ In (p, v') (allIndices self)) ->
  let newIndex := length (allIndices self) in
  let self' := {| allIndices := map_insert (allIndices self) p newIndex;
                  pArray := pArray self ++ [p];
                  tArray := tArray self |} in
  indexed domain self' /\ nth_error (pArray self') newIndex = Some p.
Proof.
  intros [Hw Hs Hplaces Hlen] Hp Habsent newIndex self'.
  assert (Hlast : nth_error (pArray self ++ [p]) newIndex = Some p).
  { unfold newIndex. rewrite Hlen, nth_error_app2, Nat.sub_diag by lia. reflexivity. }
  split; trivial. split; simpl.
  - now apply map_insert_within.
  - now apply map_insert_ascend.
  - intros k v. rewrite (map_insert_in _ p _ k v Hw Hp Habsent), Hplaces. split.
    + intros [[-> ->]|Hv]; trivial.
      rewrite nth_error_app1; trivial. apply nth_error_Some. congruence.
    + intros Hv. destruct (Nat.lt_ge_cases v (length (pArray self))) as [Hlt|Hge].
      * rewrite nth_error_app1 in Hv by trivial. now right.
      * rewrite nth_error_app2 in Hv by trivial.
        destruct (v - length (pArray self))%nat as [|d] eqn:Hd; simpl in Hv.
        -- injection Hv as <-. left. split; trivial. unfold newIndex. lia.
        -- now destruct d.
  - rewrite (map_insert_length _ p _ Hw Hp Habsent), length_app. simpl. lia.
Qed.

Lemma getIndex_spec (self : arrays) (p : point2) :
  indexed domain self -> In p domain ->
  exists idx self',
    getIndex map_lower_bound_contains self p = inr (idx, self')
    /\ indexed domain self'
    /\ nth_error (pArray self') idx = Some p
    /\ tArray self' = tArray self
    /\ exists added, pArray self' = pArray self ++ added /\ incl added [p].
Proof.
  intros Hself Hp. unfold getIndex.
  pose proof (lower_bound_decides (allIndices self) p
                (indexed_sorted _ _ Hself) (indexed_within _ _ Hself) Hp) as Hlb.
  assert (Hnew : (forall v', ~ In (p, v') (allIndices self)) ->
    exists idx self',
      inr (length (allIndices self),
           {| allIndices := map_insert (allIndices self) p (length (allIndices self));
              pArray := pArray self ++ [p];
              tArray := tArray self |}) = inr (idx, self') :> failure + nat * arrays
      /\ indexed domain self'
      /\ nth_error (pArray self') idx = Some p
      /\ tArray self' = tArray self
      /\ exists added, pArray self' = pArray self ++ added /\ incl added [p]).
  { intros Habsent.
    destruct (new_index_indexed self p Hself Hp Habsent) as [Hindexed Hlast].
    eexists _, _. split; [reflexivity|].
    split; [exact Hindexed|]. split; [exact Hlast|]. split; [reflexivity|].
    exists [p]. split; [reflexivity|apply incl_refl]. }
  rewrite contains_spec.
  destruct (hd_error (snd (map_lower_bound (allIndices self) p))) as [[k second]|];
    simpl; [|now apply Hnew].
  destruct Hlb as (Hin & Hfound & Habsent).
  destruct (point_less p k) eqn:Hpk; simpl; [now apply Hnew, Habsent|].
  specialize (Hfound eq_refl). subst k. exists second, self.
  split; [reflexivity|]. split; trivial.
  split; [now apply (indexed_places _ _ Hself)|].
  split; trivial. exists []. rewrite app_nil_r. split; trivial. intros x [].
Qed.

Lemma nth_error_grows {A : Type} (l added : list A) (i : nat) (x : A) :
  nth_error l i = Some x -> nth_error (l ++ added) i = Some x.
Proof.
  intros Hi. rewrite nth_error_app1; trivial. apply nth_error_Some. congruence.
Qed.

Lemma addTriangle_spec (self : arrays) (p0 p1 p2 : point2) :
  indexed domain self -> In p0 domain -> In p1 domain -> In p2 domain ->
  exists self' added indices,
    addTriangle map_lower_bound_contains self (p0, p1, p2) = inr self'
    /\ indexed domain self'
    /\ pArray self' = pArray self ++ added /\ incl added [p0; p1; p2]
    /\ tArray self' = tArray self ++ indices
    /\ map (nth_error (pArray self')) indices = [Some p0; Some p1; Some p2].
Proof.
  intros Hself H0 H1 H2. unfold addTriangle.
  destruct (getIndex_spec self p0 Hself H0)
    as (i0 & self0 & -> & Hself0 & Hi0 & Ht0 & added0 & Hp0 & Ha0).
  destruct (getIndex_spec self0 p1 Hself0 H1)
    as (i1 & self1 & -> & Hself1 & Hi1 & Ht1 & added1 & Hp1 & Ha1).
  destruct (getIndex_spec self1 p2 Hself1 H2)
    as (i2 & self2 & -> & Hself2 & Hi2 & Ht2 & added2 & Hp2 & Ha2).
  eexists _, (added0 ++ added1 ++ added2), [i0; i1; i2].
  split; [reflexivity|]. simpl.
  split; [now destruct Hself2|]. split; [|split; [|split]].
  - now rewrite Hp2, Hp1, Hp0, <- !app_assoc.
  - intros x Hx. apply in_app_or in Hx. destruct Hx as [Hx|Hx].
    + apply Ha0 in Hx. destruct Hx as [<-|[]]. now left.
    + apply in_app_or in Hx. destruct Hx as [Hx|Hx].
      * apply Ha1 in Hx. destruct Hx as [<-|[]]. right. now left.
      * apply Ha2 in Hx. destruct Hx as [<-|[]]. right. right. now left.
  - now rewrite Ht2, Ht1, Ht0.
  - rewrite Hi2. rewrite Hp2. rewrite (nth_error_grows _ _ _ _ Hi1).
    rewrite Hp1. now rewrite (nth_error_grows _ _ _ _ (nth_error_grows _ _ _ _ Hi0)).
Qed.

Lemma map_nth_error_grows {A : Type} (l added : list A) (indices : list nat)
  (xs : list A) :
  map (nth_error l) indices = map Some xs ->
  map (nth_error (l ++ added)) indices = map Some xs.
Proof.
  revert xs. induction indices as [|i indices IH]; intros [|x xs]; simpl;
    try discriminate; trivial.
  intros [= Hi Hrest]. now rewrite (nth_error_grows _ _ _ _ Hi), (IH xs).
Qed.

Lemma add_triangles_spec (triangles : list triangle) (self : arrays)
  (seen : list point2) :
  indexed domain self -> incl (corners_of triangles) domain ->
  map (nth_error (pArray self)) (tArray self) = map Some seen ->
  incl (pArray self) seen ->
  exists self',
    add_triangles map_lower_bound_contains self triangles = inr self'
    /\ indexed domain self'
    /\ map (nth_error (pArray self')) (tArray self')
       = map Some (seen ++ corners_of triangles)
    /\ incl (pArray self') (seen ++ corners_of triangles).
Proof.
  revert self seen.
  induction triangles as [|[[p0 p1] p2] triangles IH]; intros self seen Hself Hdom Hseen Hincl.
  - exists self. simpl. rewrite app_nil_r.
    split; [reflexivity|]. split; [exact Hself|]. now split.
  - cbn [add_triangles].
    change (corners_of (((p0, p1), p2) :: triangles))
      with ([p0; p1; p2] ++ corners_of triangles) in *.
    destruct (addTriangle_spec self p0 p1 p2 Hself)
      as (self1 & added & indices & -> & Hself1 & Hp & Hadded & Ht & Hindices);
      try (apply Hdom; simpl; tauto).
    destruct (IH self1 (seen ++ [p0; p1; p2]) Hself1) as (self' & -> & Hself' & Hfinal & Hall).
    + intros x Hx. apply Hdom. apply in_or_app. now right.
    + rewrite Ht, !map_app, Hindices, Hp. f_equal.
      now apply map_nth_error_grows.
    + rewrite Hp. intros x Hx. apply in_app_or in Hx. apply in_or_app.
      destruct Hx as [Hx|Hx]; [left; now apply Hincl|right; now apply Hadded].
    + exists self'. rewrite <- !app_assoc in *.
      split; [reflexivity|]. split; [exact Hself'|]. now split.
Qed.

Lemma indexed_NoDup (self : arrays) : indexed domain self -> NoDup (pArray self).
Proof.
  intros [Hw Hs Hplaces Hlen]. apply NoDup_nth_error. intros i j Hi Hij.
  destruct (nth_error (pArray self) i) as [k|] eqn:Hk;
    [|apply nth_error_None in Hk; lia].
  symmetry in Hij. apply Hplaces in Hk, Hij.
  clear Hplaces Hlen Hi. induction (allIndices self) as [|[k0 w] m IH]; [easy|].
  pose proof (StronglySorted_inv Hs) as [Hm _].
  pose proof (Forall_inv_tail Hw) as Hwm.
  assert (Hirr : forall v, In (k, v) m -> k0 = k -> False).
  { intros v Hin ->.
    pose proof (ascend_head _ _ _ _ _ Hs Hin) as Hlt.
    rewrite less_irrefl in Hlt; [discriminate|]. apply (within_in m k v Hwm Hin). }
  destruct Hk as [Hk|Hk], Hij as [Hij|Hij].
  - congruence.
  - exfalso. apply (Hirr j Hij). congruence.
  - exfalso. apply (Hirr i Hk). congruence.
  - now apply IH.
Qed.

End Collection.

(** X13. Provided [map_lower_bound_contains] is the usual test after
    [lower_bound] and [operator<] orders the corners of the triangles
    strictly and totally by their exact coordinates: the vertex array built
    for a collection holds every corner of every triangle once, and the
    index array names, corner by corner and triangle by triangle, the place
    of that corner in it, so that a vertex shared by triangles, of one
    polygon or of several, is one vertex of the mesh. *)
Theorem collection_arrays_round_trip {GX : Geometrix}
  (map_lower_bound_contains : point2 -> option (point2 * nat) -> bool)
  (triangles : list triangle) :
  (forall p it, map_lower_bound_contains p it = found_at_lower_bound p it) ->
  strict_total_order_on (corners_of triangles) point_less ->
  exists pArray tArray,
    collection_arrays map_lower_bound_contains triangles = inr (pArray, tArray)
    /\ NoDup pArray
    /\ (forall p, In p pArray <-> In p (corners_of triangles))
    /\ map (nth_error pArray) tArray = map Some (corners_of triangles).
Proof.
  intros Hcontains Hord. unfold collection_arrays.
  set (self0 := {| allIndices := []; pArray := []; tArray := [] |}).
  destruct (add_triangles_spec map_lower_bound_contains (corners_of triangles)
              Hord Hcontains triangles self0 [])
    as (self & -> & Hself & Hround & Hincl).
  - split; simpl; [constructor|constructor| |reflexivity].
    intros k v. split; [intros []|now destruct v].
  - apply incl_refl.
  - reflexivity.
  - intros x [].
  - simpl in Hround, Hincl. exists (pArray self), (tArray self).
    split; [reflexivity|]. split; [now apply (indexed_NoDup _ Hord self)|].
    split; trivial. intros p. split; [apply Hincl|].
    intros Hp. apply In_nth_error in Hp. destruct Hp as (n & Hn).
    assert (Hsome : nth_error (map Some (corners_of triangles)) n = Some (Some p))
      by (rewrite nth_error_map, Hn; reflexivity).
    rewrite <- Hround, nth_error_map in Hsome.
    destruct (nth_error (tArray self) n) as [i|]; [|discriminate].
    simpl in Hsome. injection Hsome as Hi. now apply nth_error_In with i.
Qed.

End MeshArraysFacts.

(* ===================================================================== *)
(** * Facts about [is_self_intersecting] *)
(* ===================================================================== *)

Module SelfIntersectionFacts.
Import Geometry Interfaces Specification SelfIntersection.

Section SelfIntersection.
Context {IX : Intersection}.

Lemma emplace_polylines_spec (rings : list polygon2) (subjects : list polyline2) :
  emplace_polylines rings subjects
  = if existsb Std.empty rings then inl out_of_bounds
    else inr (subjects ++ map closed_polyline rings).
Proof.
  revert subjects. induction rings as [|ring rings IH]; intros subjects; simpl.
  - now rewrite app_nil_r.
  - destruct ring as [|front ring]; simpl; trivial.
    rewrite IH. destruct (existsb Std.empty rings); trivial.
    now rewrite <- app_assoc.
Qed.

Lemma some_pair_intersects_iff (subjects : list polyline2) :
  some_pair_intersects subjects = true
  <-> exists i j s t, (i < j)%nat /\ nth_error subjects i = Some s
                      /\ nth_error subjects j = Some t
                      /\ polyline_polyline_intersect s t = true.
Proof.
  induction subjects as [|subject later IH]; simpl.
  - split; [discriminate|]. intros (i & j & s & t & _ & Hi & _). now destruct i.
  - rewrite orb_true_iff, existsb_exists, IH. split.
    + intros [(t & Hin & Ht)|(i & j & s & t & Hij & Hi & Hj & Hst)].
      * apply In_nth_error in Hin. destruct Hin as (j & Hj).
        exists 0%nat, (S j), subject, t. repeat split; trivial. lia.
      * exists (S i), (S j), s, t. repeat split; trivial. lia.
    + intros (i & j & s & t & Hij & Hi & Hj & Hst).
      destruct j as [|j]; [lia|]. simpl in Hj. destruct i as [|i].
      * injection Hi as <-. left. exists t. split; trivial.
        now apply nth_error_In with j.
      * right. exists i, j, s, t. repeat split; trivial. lia.
Qed.

(** X14. [is_self_intersecting(outer, holes, cmp)] reads out of bounds
    when a ring is empty; otherwise it answers true exactly when two
    different rings, closed into polylines, intersect.  No ring is tested
    against itself: without holes the answer is false whatever the outer
    ring. *)
Theorem is_self_intersecting_compares_distinct_rings (outer : polygon2)
  (holes : list polygon2) :
  (existsb Std.empty (outer :: holes) = true ->
   is_self_intersecting outer holes = inl out_of_bounds)
  /\ (existsb Std.empty (outer :: holes) = false ->
      exists answer,
        is_self_intersecting outer holes = inr answer
        /\ (answer = true
            <-> exists i j s t,
                  (i < j)%nat
                  /\ nth_error (map closed_polyline (outer :: holes)) i = Some s
                  /\ nth_error (map closed_polyline (outer :: holes)) j = Some t
                  /\ polyline_polyline_intersect s t = true)
        /\ (holes = [] -> answer = false)).
Proof.
  unfold is_self_intersecting. rewrite emplace_polylines_spec.
  split; intros ->; trivial.
  eexists. split; [reflexivity|]. split.
  - apply some_pair_intersects_iff.
  - intros ->. simpl. reflexivity.
Qed.

End SelfIntersection.
End SelfIntersectionFacts.

(* ===================================================================== *)
(** * The model run on the concrete world *)
(* ===================================================================== *)

Module ScenarioRuns.
Import Geometry Interfaces Machine Std StdFacts Specification Scenario.
Import BiasedPositionGrid SamplingFacts ConstructionFacts GeneratorFacts.

Local Open Scope float_scope.

Lemma strict_total_order_check_sound (domain : list point2)
  (less : point2 -> point2 -> bool) :
  strict_total_order_check domain less = true ->
  strict_total_order_on domain less.
Proof.
  unfold strict_total_order_check, strict_total_order_on.
  rewrite !andb_true_iff, !forallb_forall. intros [[Hirr Htrans] Htotal].
  split; [|split].
  - intros x Hx. now apply negb_true_iff, Hirr.
  - intros x y z Hx Hy Hz Hxy Hyz.
    specialize (Htrans x Hx). rewrite forallb_forall in Htrans.
    specialize (Htrans y Hy). rewrite forallb_forall in Htrans.
    specialize (Htrans z Hz). now rewrite Hxy, Hyz in Htrans.
  - intros [x1 x2] [y1 y2] Hx Hy Hxy Hyx.
    specialize (Htotal _ Hx). rewrite forallb_forall in Htotal.
    specialize (Htotal _ Hy). rewrite Hxy, Hyx in Htotal. simpl in Htotal.
    unfold same_point in Htotal. apply andb_prop in Htotal. simpl in Htotal.
    destruct Htotal as [H1 H2].
    apply Leibniz.eqb_spec in H1, H2. now subst.
Qed.

(** The truncated series never returns a negative value: its last step is
    a square. *)
Lemma repeated_square_is_square (n : nat) (y : float) :
  exists z, repeated_square (S n) y = z * z.
Proof.
  revert y. induction n as [|n IH]; intros y.
  - now exists y.
  - change (repeated_square (S (S n)) y) with (repeated_square (S n) (y * y)).
    apply IH.
Qed.

Lemma exp_approx_not_negative (x : float) : (exp x <? 0) = false.
Proof.
  change (exp x) with (repeated_square 10 (exp_series 20 1 (x / 1024))).
  destruct (repeated_square_is_square 9 (exp_series 20 1 (x / 1024))) as [z ->].
  apply FloatFacts.square_not_negative.
Qed.

(** ** The generator over the square *)

Lemma square_generator_built :
  BiasedPositionGenerator.from_segments square far_bar 1 1 1 = inr square_generator.
Proof. vm_compute. reflexivity. Qed.

Lemma saturated_generator_built :
  BiasedPositionGenerator.from_segments square far_bar 1 10 0.0625
  = inr saturated_generator.
Proof. vm_compute. reflexivity. Qed.

(** The centroid of the first triangle lies at squared distance [75.1...]
    from the attractive segment: below the squared saturation distance of
    the one generator, above that of the other. *)
Lemma triangle_weight_square :
  (let d2 := get_min_distance_sqrd_to_solid (make_solid_bsp2 far_bar)
                                            (get_centroid ((0, 0), (2, 0), (2, 2))) in
   let saturation := 10 * 10 in
   BiasedPositionGenerator.weight_of
     (BiasedPositionGenerator.m_mesh saturated_generator) 0
   = Some (((0, 0), (2, 0), (2, 2)),
           get_area ((0, 0), (2, 0), (2, 2))
           * exp (- 0.0625 * (if d2 <? saturation then saturation else d2))))
  /\ (let d2 := get_min_distance_sqrd_to_solid (make_solid_bsp2 far_bar)
                                               (get_centroid ((0, 0), (2, 0), (2, 2))) in
      let saturation := 1 * 1 in
      BiasedPositionGenerator.weight_of
        (BiasedPositionGenerator.m_mesh square_generator) 0
      = Some (((0, 0), (2, 0), (2, 2)),
              get_area ((0, 0), (2, 0), (2, 2))
              * exp (- 1 * (if d2 <? saturation then saturation else d2)))).
Proof.
  split.
  - apply (triangle_weight square [] far_bar (make_solid_bsp2 far_bar) 1 10 0.0625
                           saturated_generator 0 ((0, 0), (2, 0), (2, 2))).
    + left. split; [exact saturated_generator_built|reflexivity].
    + reflexivity.
  - apply (triangle_weight square [] far_bar (make_solid_bsp2 far_bar) 1 1 1
                           square_generator 0 ((0, 0), (2, 0), (2, 2))).
    + left. split; [exact square_generator_built|reflexivity].
    + reflexivity.
Defined.

Lemma steiner_points_admitted_square :
  let grid := make_grid_traits (get_bounds square) 1 in
  let mesh := generate_mesh square [] in
  NoDup (BiasedPositionGenerator.generate_fine_steiner_points square 1
           (make_solid_bsp2 far_bar))
  /\ forall c,
       In c (BiasedPositionGenerator.generate_fine_steiner_points square 1
           (make_solid_bsp2 far_bar))
       <-> exists p0 p1 p2 i j,
             In (p0, p1, p2) mesh
             /\ (let '(xmin, xmax, ymin, ymax) := get_bounds [p0; p1; p2] in
                 (get_x_index grid xmin <= i <= get_x_index grid xmax)%Z
                 /\ (get_y_index grid ymin <= j <= get_y_index grid ymax)%Z)
             /\ c = get_cell_centroid grid i j
             /\ (1 <? get_min_distance_sqrd_to_solid (make_solid_bsp2 far_bar) c) = true
             /\ point_in_triangle c (p0, p1, p2) = true.
Proof.
  apply (steiner_points_admitted square 1 (make_solid_bsp2 far_bar)
           (flat_map (BiasedPositionGenerator.cell_centroids
                        (make_grid_traits (get_bounds square) 1))
                     (generate_mesh square []))).
  - intros p0 p1 p2 i j. apply visited_centroid.
  - apply strict_total_order_check_sound. vm_compute. reflexivity.
Defined.

(** ** The grid over the strip *)

Lemma strip_grid_constructed :
  construct true [strip] (make_solid_bsp2 middle_bar) 1 1 0 0.125 = inr strip_grid.
Proof. vm_compute. reflexivity. Qed.

Lemma strip_grid_sorted : non_decreasing (m_integral strip_grid).
Proof. apply non_decreasing_check_sound. vm_compute. reflexivity. Qed.

Lemma get_random_position_retries_strip :
  get_random_position true strip_grid towards_the_bar 3
  = sample_with_retries true strip_grid 1 (Z.to_nat 3) towards_the_bar
  /\ ((exists gen', get_random_position true strip_grid towards_the_bar 3
                    = inr (None, gen'))
      <-> every_attempt_rejected true strip_grid 1 (Z.to_nat 3) towards_the_bar).
Proof.
  apply (get_random_position_retries true [strip] (make_solid_bsp2 middle_bar)
           1 1 0 0.125 strip_grid towards_the_bar 3).
  - exact exp_approx_not_negative.
  - exact strip_grid_constructed.
  - unfold uint32_modulus. lia.
Defined.

(** Whichever draw the compiler takes first: the single attempt yields the
    corner [(0, 0)] of the boundary, which is not in solid space, and the
    sampler still answers absent.  And under a repulsion that makes [exp]
    overflow the grid is constructed with a cumulative array of NaNs: for
    the draw [0.5] no entry is greater than or equal to it, and the sampler
    selects the first cell all the same. *)
Lemma boundary_point_rejected_and_nan_entry_selected :
  (attempt (EO := left_to_right) true strip_grid onto_the_wall = inr ((0, 0), [])
   /\ attempt (EO := right_to_left) true strip_grid onto_the_wall = inr ((0, 0), [])
   /\ point_in_solid_space (m_tree strip_grid) (0, 0) = on_boundary
   /\ point_in_solid_space (m_tree strip_grid) (0, 0) <> in_solid_space
   /\ get_random_position (EO := left_to_right) true strip_grid onto_the_wall 1
      = inr (None, [])
   /\ get_random_position (EO := right_to_left) true strip_grid onto_the_wall 1
      = inr (None, []))
  /\ (construct true [strip] (make_solid_bsp2 middle_bar) 1 1 (-800) 0.125
      = inr repelled_grid
      /\ m_integral repelled_grid <> []
      /\ Forall (fun c => (0.5 <=? c) = false) (m_integral repelled_grid)
      /\ get_random_position (EO := left_to_right) true repelled_grid [0.5; 0.5; 0.5] 1
         = inr (Some (0.5, 0.5), [])
      /\ get_random_position (EO := right_to_left) true repelled_grid [0.5; 0.5; 0.5] 1
         = inr (Some (0.5, 0.5), [])).
Proof.
  assert (Hclass : point_in_solid_space (m_tree strip_grid) (0, 0) = on_boundary)
    by (vm_compute; reflexivity).
  split; repeat split; try (vm_compute; reflexivity).
  - rewrite Hclass. discriminate.
  - discriminate.
  - apply Forall_forall. intros c Hc.
    repeat (destruct Hc as [<-|Hc]; [vm_compute; reflexivity|]). destruct Hc.
Qed.

Lemma zero_cap_wraps_around_strip :
  (rejected strip_grid (0, 0) = false ->
   get_random_position true strip_grid onto_the_wall 0 = inr (None, []))
  /\ (rejected strip_grid (0, 0) = true ->
      wrap32 (0 - 1) = (2 ^ 32 - 1)%Z
      /\ get_random_position true strip_grid onto_the_wall 0
         = get_random_position true strip_grid [] (2 ^ 32 - 1)
      /\ get_random_position true strip_grid [] (2 ^ 32 - 1)
         = retry (attempt true strip_grid) (rejected strip_grid)
                 (Z.to_nat (2 ^ 32 - 1)) []).
Proof.
  apply (zero_cap_wraps_around true strip_grid onto_the_wall (0, 0) []).
  vm_compute. reflexivity.
Defined.

Lemma returned_point_is_jittered_centroid_strip :
  Forall (fun c => (0.125 * 0.125
                    <? get_min_distance_sqrd_to_solid (make_solid_bsp2 middle_bar) c)
                   = true)
         (m_positions strip_grid)
  /\ point_in_solid_space (m_tree strip_grid) (0.0625, 5.0625) = in_empty_space
  /\ exists c g1 g2,
       In c (m_positions strip_grid)
       /\ let ux := fst (uniform_real_distribution (-1) 1 g1) in
          let uy := fst (uniform_real_distribution (-1) 1 g2) in
          let half := 0.5 * 1 in
          (0.0625, 5.0625) = (fst c + ux * half + uy * 0, snd c + ux * 0 + uy * half).
Proof.
  apply (returned_point_is_jittered_centroid true [strip] (make_solid_bsp2 middle_bar)
           1 1 0 0.125 strip_grid towards_the_bar 1 (0.0625, 5.0625) []).
  - exact strip_grid_constructed.
  - unfold uint32_modulus. lia.
  - vm_compute. reflexivity.
Defined.

(** Whichever draw the compiler takes first, the returned point
    [(0.0625, 5.0625)] is a sixteenth of a metre from the bar, closer than
    the minimum distance of an eighth. *)
Lemma returned_point_within_min_distance :
  construct true [strip] (make_solid_bsp2 middle_bar) 1 1 0 0.125 = inr strip_grid
  /\ get_random_position (EO := left_to_right) true strip_grid towards_the_bar 1
     = inr (Some (0.0625, 5.0625), [])
  /\ get_random_position (EO := right_to_left) true strip_grid towards_the_bar 1
     = inr (Some (0.0625, 5.0625), [])
  /\ get_min_distance_sqrd_to_solid (make_solid_bsp2 middle_bar) (0.0625, 5.0625)
     = 0.0625 * 0.0625
  /\ (0.125 * 0.125
      <? get_min_distance_sqrd_to_solid (make_solid_bsp2 middle_bar) (0.0625, 5.0625))
     = false.
Proof. repeat split; vm_compute; reflexivity. Qed.

Lemma stored_positions_in_empty_space_strip :
  exists segments,
    polygon_collection_as_segment_range [strip] = inr segments
    /\ m_tree strip_grid = make_solid_bsp2 segments
    /\ Forall (fun c => point_in_solid_space (m_tree strip_grid) c = in_empty_space)
              (m_positions strip_grid)
    /\ length (m_integral strip_grid) = length (m_positions strip_grid).
Proof.
  exact (stored_positions_in_empty_space true [strip] (make_solid_bsp2 middle_bar)
           1 1 0 0.125 strip_grid strip_grid_constructed).
Defined.

(** Saturation at two metres, attraction factor one: the four cells next to
    the bar lie below the squared saturation distance, the other six above
    it. *)
Lemma collected_weights_strip :
  m_integral attracted_collected
  = map (fun c =>
           let d2 := get_min_distance_sqrd_to_solid (make_solid_bsp2 middle_bar) c in
           if d2 <? 2 * 2 then exp (- 1 * (2 * 2)) else exp (- 1 * d2))
        (m_positions attracted_collected).
Proof.
  apply (collected_weights [strip] (make_solid_bsp2 middle_bar) 1 2 1 0.125
                           attracted_collected).
  vm_compute. reflexivity.
Defined.

(** ** No admitted cell *)

Lemma zero_total_weight_only_asserts_strip :
  construct true [strip] (make_solid_bsp2 middle_bar) 1 1 0 100
  = inl assertion_failed
  /\ construct false [strip] (make_solid_bsp2 middle_bar) 1 1 0 100
     = inr {| m_halfcell := m_halfcell empty_strip_grid;
              m_positions := m_positions empty_strip_grid;
              m_integral :=
                running_share (accumulate (m_integral empty_strip_grid) 0) 0
                              (m_integral empty_strip_grid);
              m_tree := m_tree empty_strip_grid |}.
Proof.
  apply (zero_total_weight_only_asserts [strip] (make_solid_bsp2 middle_bar)
           1 1 0 100 empty_strip_grid); vm_compute; reflexivity.
Defined.

(** Built without assertions, the grid with no admitted cell is constructed
    all the same: no error reports the zero total weight. *)
Lemma zero_total_weight_completes :
  collect_points [strip] (make_solid_bsp2 middle_bar) 1 1 0 100 = inr empty_strip_grid
  /\ accumulate (m_integral empty_strip_grid) 0 = 0
  /\ construct false [strip] (make_solid_bsp2 middle_bar) 1 1 0 100
     = inr empty_strip_grid.
Proof. repeat split; vm_compute; reflexivity. Qed.

(** ** Seven cells of equal weight *)

(** C8. The grid over the seven-cell strip is constructed, its cumulative
    array ends at [1 - 2^-52], not at [1.0], and a draw of [1 - 2^-53] finds
    no entry to select: the sampler trips the assertion of
    [generate_random] (or reads past the end when assertions are off). *)
Lemma seven_cells_end_below_one :
  construct true [strip7] (make_solid_bsp2 bar7) 1 1 0 0.125 = inr strip7_grid
  /\ make_integral true [1; 1; 1; 1; 1; 1; 1] = inr (m_integral strip7_grid)
  /\ m_positions strip7_grid
     = [(0.5, 0.5); (0.5, 1.5); (0.5, 2.5); (0.5, 3.5); (0.5, 4.5); (0.5, 5.5);
        (0.5, 6.5)]
  /\ last (m_integral strip7_grid) 0 = 0x1.ffffffffffffep-1
  /\ (last (m_integral strip7_grid) 0 <? 1) = true
  /\ lower_bound PrimFloat.ltb (m_integral strip7_grid) 0x1.fffffffffffffp-1 = 7%nat
  /\ get_random_position true strip7_grid [0x1.fffffffffffffp-1; 0.5; 0.5] 1
     = inl assertion_failed
  /\ get_random_position false strip7_grid [0x1.fffffffffffffp-1; 0.5; 0.5] 1
     = inl out_of_bounds.
Proof. repeat split; vm_compute; reflexivity. Qed.

End ScenarioRuns.

(* ===================================================================== *)
(** * Further runs *)
(* ===================================================================== *)

Module GridRuns.
Import Geometry Interfaces Machine Specification Scenario.
Import BiasedPositionGrid GridFacts ScenarioRuns.

Local Open Scope float_scope.


Lemma sampling_fails_iff_draw_past_integral_strip :
  let u := fst (uniform_real_distribution 0 1 towards_the_bar) in
  (Forall (fun c => (c <? u) = true) (m_integral strip_grid) ->
   forall maxAttempts,
     get_random_position true strip_grid towards_the_bar maxAttempts
     = inl assertion_failed)
  /\ (Exists (fun c => (c <? u) = false) (m_integral strip_grid) ->
      exists p gen', attempt true strip_grid towards_the_bar = inr (p, gen')).
Proof.
  exact (sampling_fails_iff_draw_past_integral true [strip]
           (make_solid_bsp2 middle_bar) 1 1 0 0.125 strip_grid towards_the_bar
           strip_grid_constructed strip_grid_sorted).
Defined.

Lemma get_random_position_draws_strip :
  exists k, (1 <= k <= Z.to_nat 1)%nat
            /\ [] = Nat.iter k three_draws towards_the_bar
            /\ (Some (0.0625, 5.0625) = None -> k = Z.to_nat 1).
Proof.
  apply (get_random_position_draws true strip_grid towards_the_bar 1
           (Some (0.0625, 5.0625)) []).
  - unfold uint32_modulus. lia.
  - vm_compute. reflexivity.
Defined.

End GridRuns.

Module MeshRuns.
Import Geometry Interfaces Specification Scenario.
Import BiasedPositionGenerator MeshArrays SteinerFacts MeshArraysFacts ScenarioRuns.

Local Open Scope float_scope.

(** The frame: the eight triangles of the band between the square and its
    hole are visited, and the four cells inside the hole yield no Steiner
    point. *)
Lemma steiner_points_with_holes_sorted_frame :
  let grid := make_grid_traits (get_bounds (get_outer frame)) 1 in
  let mesh := generate_mesh (get_outer frame) (get_holes frame) in
  StronglySorted (fun p q => point_less p q = true)
                 (generate_fine_steiner_points_with_holes frame 1
                    (make_solid_bsp2 far_bar))
  /\ forall c,
       In c (generate_fine_steiner_points_with_holes frame 1
               (make_solid_bsp2 far_bar))
       <-> exists p0 p1 p2 i j,
             In (p0, p1, p2) mesh
             /\ (let '(xmin, xmax, ymin, ymax) := get_bounds [p0; p1; p2] in
                 (get_x_index grid xmin <= i <= get_x_index grid xmax)%Z
                 /\ (get_y_index grid ymin <= j <= get_y_index grid ymax)%Z)
             /\ c = get_cell_centroid grid i j
             /\ (1 <? get_min_distance_sqrd_to_solid (make_solid_bsp2 far_bar) c) = true
             /\ point_in_triangle c (p0, p1, p2) = true.
Proof.
  apply (steiner_points_with_holes_sorted frame 1 (make_solid_bsp2 far_bar)
           (flat_map (cell_centroids (make_grid_traits (get_bounds (get_outer frame)) 1))
                     (generate_mesh (get_outer frame) (get_holes frame)))).
  - intros p0 p1 p2 i j. apply GeneratorFacts.visited_centroid.
  - apply strict_total_order_check_sound. vm_compute. reflexivity.
Defined.

(** The Steiner points of the frame: the twelve cells of the band. *)
Lemma frame_steiner_points :
  generate_fine_steiner_points_with_holes frame 1 (make_solid_bsp2 far_bar)
  = [(0.5, 0.5); (0.5, 1.5); (0.5, 2.5); (0.5, 3.5); (1.5, 0.5); (1.5, 3.5);
     (2.5, 0.5); (2.5, 3.5); (3.5, 0.5); (3.5, 1.5); (3.5, 2.5); (3.5, 3.5)].
Proof. vm_compute. reflexivity. Qed.

Lemma four_points_distinct : NoDup four_points.
Proof. unfold four_points. repeat constructor; simpl; lia. Qed.

Lemma mesh_arrays_round_trip_two_triangles :
  (incl (corners_of two_triangles) four_points ->
   exists iArray,
     mesh_arrays coordinates (0, 0) true four_points two_triangles
     = inr (map coordinates four_points, iArray)
     /\ map (nth_error four_points) iArray = map Some (corners_of two_triangles))
  /\ (~ incl (corners_of two_triangles) four_points ->
      mesh_arrays coordinates (0, 0) true four_points two_triangles
      = inl assertion_failed).
Proof.
  exact (mesh_arrays_round_trip coordinates (0, 0) true four_points two_triangles
           four_points_distinct).
Defined.

Lemma collection_arrays_round_trip_square :
  exists pArray tArray,
    collection_arrays found_at_lower_bound (fan square) = inr (pArray, tArray)
    /\ NoDup pArray
    /\ (forall p, In p pArray <-> In p (corners_of (fan square)))
    /\ map (nth_error pArray) tArray = map Some (corners_of (fan square)).
Proof.
  apply (collection_arrays_round_trip found_at_lower_bound (fan square)).
  - reflexivity.
  - apply strict_total_order_check_sound. vm_compute. reflexivity.
Defined.

End MeshRuns.

Module PoolRuns.
Import Machine FiberPool FiberPoolFacts.

Lemma four_threads_two_processors_built :
  fiber_pool true 16 4 2 = inr Scenario.four_threads_two_processors.
Proof. vm_compute. reflexivity. Qed.

Lemma launched_slots_within_bounds_4_on_2 :
  (forall s, (exists t, owns Scenario.four_threads_two_processors t s)
             <-> 0 <= s < Z.min 4 2 * 16)
  /\ Z.min 4 2 * 16 <= n_slots Scenario.four_threads_two_processors.
Proof.
  apply (launched_slots_within_bounds true 16 4 2);
    [lia|unfold uint32_modulus; lia|unfold uint32_modulus; lia
    |unfold size_t_modulus; lia|exact four_threads_two_processors_built].
Defined.

(** Four threads, the second already joined.  When the join of the third
    throws, the call returns and the third thread stays joinable; when the
    join of the third never returns, neither does the call, and the fourth
    thread is never joined. *)
Lemma shutdown_joins_each_joinable_thread_once_four_threads :
  let p := {| m_done := false; m_threads := [true; false; true; true] |} in
  let throwing := fun t => match t with 2%nat => join_throws | _ => join_returns end in
  let blocking := fun t => match t with 2%nat => join_blocks | _ => join_returns end in
  shutdown throwing p
  = ({| m_done := true; m_threads := [false; false; true; false] |},
     [notify_all; join 0; join 2; join 3], true)
  /\ shutdown blocking p
     = ({| m_done := true; m_threads := [false; false; true; true] |},
        [notify_all; join 0; join 2], false).
Proof.
  intros p throwing blocking. split.
  - apply (proj1 (shutdown_joins_each_joinable_thread_once throwing p eq_refl)).
    intros [|[|[|t]]] _; discriminate.
  - apply (proj2 (shutdown_joins_each_joinable_thread_once blocking p eq_refl) 2%nat).
    + simpl. tauto.
    + reflexivity.
    + intros [|[|t]] _ Hlt; [discriminate|discriminate|lia].
Defined.

End PoolRuns.

Module TaskRuns.
Import FiberPoolTasks Specification TaskFacts Scenario.

Lemma at_most_one_task_per_fiber_after_shutdown_draining :
  let '(final, ran) := run late_send draining in
  m_done final = true
  /\ (length ran <= committed (m_fibers draining))%nat
  /\ (committed (m_fibers draining) = 0%nat ->
      ran = [] /\ m_tasks final = m_tasks draining ++ sent late_send).
Proof.
  exact (at_most_one_task_per_fiber_after_shutdown late_send draining eq_refl).
Defined.

End TaskRuns.
